(** * PyChunkedGraph: local mincut and edit handlers

    A shallow embedding of
    - [pychunkedgraph/backend/cutting.py] (cross chunk coalescing and the
      local mincut), and
    - the edit handlers of [pychunkedgraph/app/segmentation/common.py]
      (merge, split, undo, redo, rollback), with two of its read handlers
      (the recent change log and the children of a level 2 chunk),
    with the properties of the system description that concern them.

    Node identifiers are [np.uint64] values, modelled in [N] (no arithmetic
    is performed on them, so no wrap-around arises).  Affinities are
    [np.float32] values, modelled by the Standard Library's [spec_float].
    Python dictionaries are [gmap]s; numpy arrays are lists. *)

From Stdlib Require Import NArith ZArith Lia Ascii.
From Stdlib Require Import Floats.SpecFloat.
From stdpp Require Import base relations list sorting gmap strings pretty.

Set Default Proof Using "Type".

(** ** Exceptions and results *)

(** The Python exceptions that the modelled code can raise or meet. *)
Inductive exn : Type :=
  | IndexError
  | ValueError
  | AssertionError
  | KeyError
  | AttributeError
  | NetworkXError
  | BadRequestKeyError
  | BadRequest (msg : string)
  | InternalServerError (msg : string)
  | LockingError (msg : string)
  | PreconditionError (msg : string)
  | PostconditionError (msg : string)
  | OtherError (name : string).

Inductive outcome (A : Type) : Type :=
  | Return (a : A)
  | Raise (e : exn).
Arguments Return {A} a.
Arguments Raise {A} e.

#[export] Instance outcome_ret : MRet outcome := λ A a, Return a.
#[export] Instance outcome_bind : MBind outcome := λ A B k m,
  match m with
  | Return a => k a
  | Raise e => Raise e
  end.

(** A [for] loop whose body may raise: the first exception ends it. *)
Fixpoint for_each {A S} (body : S → A → outcome S) (s : S) (l : list A)
  : outcome S :=
  match l with
  | [] => Return s
  | x :: l' => s' ← body s x; for_each body s' l'
  end.

(** A comprehension whose element may raise. *)
Fixpoint map_each {A B} (f : A → outcome B) (l : list A) : outcome (list B) :=
  match l with
  | [] => Return []
  | x :: l' => y ← f x; ys ← map_each f l'; Return (y :: ys)
  end.

(** ** numpy helpers *)

Module Np.

(** [np.isinf]: true for both infinities, false for NaN. *)
Definition isinf (a : spec_float) : bool :=
  match a with
  | S754_infinity _ => true
  | _ => false
  end.

(** [np.finfo(np.float32).max] = (2^24 - 1) * 2^104. *)
Definition float32_max : spec_float := S754_finite false 16777215 104.

(** Boolean mask indexing [a[mask]]; numpy raises [IndexError] when the
    mask and the array differ in length. *)
Fixpoint mask_select {A} (a : list A) (mask : list bool) : outcome (list A) :=
  match a, mask with
  | [], [] => Return []
  | x :: a', b :: mask' =>
      r ← mask_select a' mask';
      Return (if b then x :: r else r)
  | _, _ => Raise IndexError
  end.

(** [np.min] of a one-dimensional array; [ValueError] on an empty one. *)
Definition min (a : list N) : outcome N :=
  match a with
  | [] => Raise ValueError
  | x :: a' => Return (foldr N.min x a')
  end.

(** [np.unique]: the sorted distinct values. *)
Definition unique (a : list N) : list N :=
  merge_sort N.le (remove_dups a).

(** [np.in1d(a, b)]: membership of each element of [a] in [b]. *)
Definition in1d `{EqDecision A} (a b : list A) : list bool :=
  (λ x, bool_decide (x ∈ b)) <$> a.

(** [itertools.product(a, b)] *)
Definition product {A B} (a : list A) (b : list B) : list (A * B) :=
  x ← a; y ← b; [(x, y)].

(** [a[i]] *)
Definition item {A} (a : list A) (i : nat) : outcome A :=
  match a !! i with
  | Some x => Return x
  | None => Raise IndexError
  end.

(** [np.any] *)
Definition any (m : list bool) : bool := existsb id m.

(** Flattening of an n x 2 array in row-major order. *)
Definition ravel (a : list (N * N)) : list N :=
  a ≫= λ e, [e.1; e.2].

(** [a[np.argsort(a[:, 0])]]: the rows ordered by their first column.
    The order that numpy gives to rows with equal keys is unspecified;
    the rows met here have distinct keys. *)
Definition row_le (r1 r2 : N * N) : Prop := (r1.1 ≤ r2.1)%N.

#[export] Instance row_le_dec r1 r2 : Decision (row_le r1 r2) :=
  decide (r1.1 ≤ r2.1)%N.

Definition sort_rows (a : list (N * N)) : list (N * N) :=
  merge_sort row_le a.

(** [np.searchsorted(keys, v)] on ascending [keys], side "left": the
    number of keys strictly below [v]. *)
Fixpoint searchsorted (keys : list N) (v : N) : nat :=
  match keys with
  | [] => 0
  | k :: keys' => if decide (k < v)%N then S (searchsorted keys' v) else 0
  end.

End Np.

(** ** networkx graphs

    [nx.Graph] is an external library class.  The model keeps what the
    code observes of it: the nodes in insertion order, and one attribute
    record per undirected edge.  In networkx [G[u][v]] and [G[v][u]] are
    the same dictionary object; the model stores it once, under the
    ordered pair [ekey u v].  The only attribute used is ['capacity'],
    which an edge may lack. *)

Module Nx.

Definition ekey (u v : N) : N * N := (N.min u v, N.max u v).

Record Graph : Type := mkGraph {
  nodes : list N;
  adj : gmap (N * N) (option spec_float)
}.

(** [nx.Graph()] *)
Definition empty : Graph := mkGraph [] ∅.

Definition add_node (ns : list N) (n : N) : list N :=
  if decide (n ∈ ns) then ns else ns ++ [n].

(** [G.add_edge(u, v)]: both nodes are added when new, in this order; an
    edge that exists keeps its attributes. *)
Definition add_edge (G : Graph) (e : N * N) : Graph :=
  mkGraph (add_node (add_node (nodes G) e.1) e.2)
          (match adj G !! ekey e.1 e.2 with
           | Some _ => adj G
           | None => <[ekey e.1 e.2 := None]> (adj G)
           end).

(** [G.add_edges_from(es)] *)
Definition add_edges_from (G : Graph) (es : list (N * N)) : Graph :=
  foldl add_edge G es.

Definition has_edge (G : Graph) (u v : N) : Prop :=
  is_Some (adj G !! ekey u v).

(** [G[u][v]['capacity']], when the edge exists and has the attribute. *)
Definition capacity (G : Graph) (u v : N) : option spec_float :=
  mjoin (adj G !! ekey u v).

(** [G[u][v]['capacity'] = c]; [KeyError] when [v] is no neighbour of [u]. *)
Definition set_capacity (G : Graph) (u v : N) (c : spec_float) : outcome Graph :=
  match adj G !! ekey u v with
  | Some _ => Return (mkGraph (nodes G) (<[ekey u v := Some c]> (adj G)))
  | None => Raise KeyError
  end.

(** [G.remove_nodes_from(ns)]: the nodes go, with the edges at them. *)
Definition remove_nodes_from (G : Graph) (ns : list N) : Graph :=
  mkGraph (filter (λ n, n ∉ ns) (nodes G))
          (filter (λ kv, (fst (fst kv) ∉ ns) ∧ (snd (fst kv) ∉ ns)) (adj G)).

(** Two nodes are connected when a chain of edges joins them. *)
Definition connected (G : Graph) : relation N := rtsc (has_edge G).

(** *** Connected components

    [nx.connected_components(G)] visits the nodes in insertion order and,
    from each node not seen yet, collects the nodes reachable from it by a
    breadth first search.  The search itself is library code; the model
    computes the same set through a labelling of the nodes: every node
    starts with its own label, and each edge gives the label of its first
    end to all nodes that carry the label of its second end.  Two nodes
    are connected exactly when their labels agree ([component_label_spec]
    below).  The order of the nodes inside a component (a Python set) is
    not specified by networkx; the model lists them in insertion order. *)

Definition union_label (lab : N → N) (e : N * N) : N → N :=
  λ x, if decide (lab x = lab e.2) then lab e.1 else lab x.

Definition component_label (G : Graph) : N → N :=
  foldl union_label id (map_to_list (adj G)).*1.

Definition plain_bfs (G : Graph) (v : N) : list N :=
  filter (λ w, component_label G w = component_label G v) (nodes G).

Fixpoint components_loop (G : Graph) (todo seen : list N) : list (list N) :=
  match todo with
  | [] => []
  | v :: todo' =>
      if decide (v ∈ seen) then components_loop G todo' seen
      else let c := plain_bfs G v in
           c :: components_loop G todo' (c ++ seen)
  end.

Definition connected_components (G : Graph) : list (list N) :=
  components_loop G (nodes G) [].

(** Well-formed graphs: what [add_edges_from], [set_capacity] and
    [remove_nodes_from] maintain from [empty]. *)
Definition wf (G : Graph) : Prop :=
  NoDup (nodes G) ∧
  ∀ u v, is_Some (adj G !! (u, v)) → (u ≤ v)%N ∧ u ∈ nodes G ∧ v ∈ nodes G.

End Nx.

(** ** [pychunkedgraph/backend/cutting.py] *)

Module Cutting.

(** [float_max = np.finfo(np.float32).max] *)
Definition float_max : spec_float := Np.float32_max.

(** The body of the loop over the cross chunk components: the component
    elects its minimum as representative, is recorded under it in
    [remapping], and contributes one row (node, representative) per node
    to [mapping]. *)
Definition merge_component (acc : gmap N (list N) * list (N * N))
    (cc : list N) : outcome (gmap N (list N) * list (N * N)) :=
  let '(remapping, mapping) := acc in
  let nodes := cc in
  rep_node ← Np.min nodes;
  let remapping := <[rep_node := nodes]> remapping in
  let m := (λ n, (n, rep_node)) <$> nodes in
  Return (remapping, mapping ++ m).

(** [mapping[:, 1][sort_idx][idx]] for one entry of [edges]. *)
Definition lookup_sorted (sorted : list (N * N)) (v : N) : outcome N :=
  Np.item sorted.*2 (Np.searchsorted sorted.*1 v).

Definition merge_cross_chunk_edges (edges : list (N * N))
    (affs : list spec_float)
  : outcome (list (N * N) * list spec_float * list (N * N) * gmap N (list N)) :=
  let cross_chunk_edge_mask := Np.isinf <$> affs in
  cross_edges ← Np.mask_select edges cross_chunk_edge_mask;
  let cross_chunk_graph := Nx.add_edges_from Nx.empty cross_edges in
  let ccs := Nx.connected_components cross_chunk_graph in
  '(remapping, mapping) ← for_each merge_component (∅, []) ccs;
  let u_nodes := Np.unique (Np.ravel edges) in
  u_unmapped_nodes ←
    Np.mask_select u_nodes (negb <$> Np.in1d u_nodes (Np.ravel mapping));
  let unmapped_mapping := (λ n, (n, n)) <$> u_unmapped_nodes in
  let mapping := mapping ++ unmapped_mapping in
  let sorted := Np.sort_rows mapping in
  remapped_edges ←
    map_each (λ e, u ← lookup_sorted sorted e.1;
                   v ← lookup_sorted sorted e.2;
                   Return (u, v)) edges;
  remapped_edges ← Np.mask_select remapped_edges (negb <$> cross_chunk_edge_mask);
  remapped_affs ← Np.mask_select affs (negb <$> cross_chunk_edge_mask);
  Return (remapped_edges, remapped_affs, mapping, remapping).

(** [dict(mapping)]: a later row replaces an earlier one with the same key. *)
Definition dict (rows : list (N * N)) : gmap N N :=
  foldl (λ d r, <[r.1 := r.2]> d) ∅ rows.

(** The loops that replace each terminal by its representative; a terminal
    that the mapping does not know stays as it is. *)
Definition remap (mapping_dict : gmap N N) (n : N) : N :=
  match mapping_dict !! n with
  | Some r => r
  | None => n
  end.

(** [assert np.unique(mapping[:, 0], return_counts=True)[1].max() == 1];
    [max] of an empty array raises [ValueError]. *)
Definition assert_unique_keys (mapping : list (N * N)) : outcome unit :=
  let keys := mapping.*1 in
  let counts := (λ k, length (filter (λ x, x = k) keys)) <$> Np.unique keys in
  match counts with
  | [] => Raise ValueError
  | _ => if decide (max_list counts = 1) then Return () else Raise AssertionError
  end.

(** Lines 103 to 125: the working graph on the representatives. *)
Definition build_weighted_graph (edges : list (N * N)) (affs : list spec_float)
    (sources sinks : list N) : outcome Nx.Graph :=
  let sink_connections := Np.product sinks sinks in
  let source_connections := Np.product sources sources in
  let weighted_graph := Nx.add_edges_from Nx.empty edges in
  let weighted_graph := Nx.add_edges_from weighted_graph sink_connections in
  let weighted_graph := Nx.add_edges_from weighted_graph source_connections in
  weighted_graph ←
    for_each (λ G ie,
                a ← Np.item affs ie.1;
                G ← Nx.set_capacity G (ie.2).1 (ie.2).2 a;
                Nx.set_capacity G (ie.2).2 (ie.2).1 a)
             weighted_graph (imap (λ i e, (i, e)) edges);
  weighted_graph ←
    for_each (λ G p, Nx.set_capacity G p.1 p.2 float_max)
             weighted_graph (Np.product sinks sinks);
  for_each (λ G p, Nx.set_capacity G p.1 p.2 float_max)
           weighted_graph (Np.product sources sources).

(** Lines 132 to 144: components without terminal are dropped; a component
    with a terminal that misses some source or some sink ends [mincut]
    ([None] here). *)
Fixpoint check_components (G : Nx.Graph) (ccs : list (list N))
    (sources sinks : list N) : option Nx.Graph :=
  match ccs with
  | [] => Some G
  | cc :: ccs' =>
      let cc_list := cc in
      if negb (Np.any (Np.in1d sources cc_list) || Np.any (Np.in1d sinks cc_list))
      then check_components (Nx.remove_nodes_from G cc) ccs' sources sinks
      else if Np.any (negb <$> Np.in1d sources cc_list)
              || Np.any (negb <$> Np.in1d sinks cc_list)
      then None
      else check_components G ccs' sources sinks
  end.

(** Lines 168 to 190: the cut of the coalesced graph, taken back to the
    edges of the input. *)
Definition expand_cut (remapping : gmap N (list N)) (cut : N * N)
  : list (N * N) :=
  let pre_cut := match remapping !! cut.1 with
                 | Some ns => ns
                 | None => [cut.1]
                 end in
  let post_cut := match remapping !! cut.2 with
                  | Some ns => ns
                  | None => [cut.2]
                  end in
  Np.product pre_cut post_cut ++ Np.product post_cut pre_cut.

Definition uncoalesce (remapping : gmap N (list N)) (cutset : list (N * N))
    (original_edges : list (N * N)) : outcome (list (N * N)) :=
  let remapped_cutset := cutset ≫= expand_cut remapping in
  let cutset_mask := Np.in1d remapped_cutset original_edges in
  Np.mask_select remapped_cutset cutset_mask.

Definition disconnected_message : string :=
  "sources and sinks are in different connected components".

Section Mincut.

(** [nx.minimum_edge_cut(G, s, t, flow_func=edmonds_karp)] is library
    code: it is a parameter of the model.  It may raise, and the code
    tests its result against [None]. *)
Variable minimum_edge_cut :
  Nx.Graph → N → N → outcome (option (list (N * N))).

(** The result pairs what [mincut] writes to the standard output with
    what it returns or raises.  Of the output only the line that reports
    disconnected terminals is kept; the other lines are timings and
    debugging dumps. *)
Definition mincut (edges : list (N * N)) (affs : list spec_float)
    (sources sinks : list N) : list string * outcome (list (N * N)) :=
  let original_edges := edges in
  match merge_cross_chunk_edges edges affs with
  | Raise e => ([], Raise e)
  | Return (edges, affs, mapping, remapping) =>
  if decide (length edges = 0) then ([], Return []) else
  match assert_unique_keys mapping with
  | Raise e => ([], Raise e)
  | Return _ =>
  let mapping_dict := dict mapping in
  let remapped_sinks := remap mapping_dict <$> sinks in
  let remapped_sources := remap mapping_dict <$> sources in
  let sinks := remapped_sinks in
  let sources := remapped_sources in
  match build_weighted_graph edges affs sources sinks with
  | Raise e => ([], Raise e)
  | Return weighted_graph =>
  let ccs := Nx.connected_components weighted_graph in
  match check_components weighted_graph ccs sources sinks with
  | None => ([disconnected_message], Return [])
  | Some weighted_graph =>
  ([],
   s ← Np.item sources 0;
   t ← Np.item sinks 0;
   cutset ← minimum_edge_cut weighted_graph s t;
   match cutset with
   | None => Return []
   | Some cutset =>
       _ ← Np.item cutset 0;
       uncoalesce remapping cutset original_edges
   end)
  end end end end.

End Mincut.

End Cutting.

(** ** [pychunkedgraph/app/segmentation/common.py]: the edit handlers *)

Module Common.

(** [GraphEditOperation.Result]: the handlers read [operation_id],
    [new_root_ids] (which they test against [None]) and [new_lvl2_ids]. *)
Record Result : Type := mkResult {
  operation_id : N;
  new_root_ids : option (list N);
  new_lvl2_ids : list N
}.

(** A row of the operation log.  The handlers read the user and the
    timestamp (a [datetime], counted here in microseconds).

    Modelled from the spec: [undo_operation_id] is the undo linkage that
    the log entry of section 3 carries; the column keys are declared in
    [backend/utils/column_keys.py], which is not among the sources.  No
    handler reads it. *)
Record log_entry : Type := mkEntry {
  UserID : string;
  timestamp : Z;
  undo_operation_id : option N
}.

(** The calls that the handlers make on the chunked graph, with their
    arguments. *)
Inductive cg_call : Type :=
  | GetCg (table_id : string)
  | SupervoxelIdLookup (table_id : string) (coords : list (list Z * list Z))
      (node_ids : list N)
  | AddEdges (table_id user_id : string) (atomic_edges : list N)
      (source_coord sink_coord : list (list Z * list Z))
  | RemoveEdges (table_id user_id : string) (source_ids sink_ids : list N)
      (source_coords sink_coords : list (list Z * list Z)) (mincut : bool)
  | Undo (table_id user_id : string) (operation_id : N)
  | Redo (table_id user_id : string) (operation_id : N)
  | UndoOperation (table_id user_id : string) (operation_id : N)
  | ReadLogRows (table_id : string) (start_time : Z).

(** The chunked graph and its helpers ([app_utils], [backend]) are not
    among the sources: they are an interface.  What a call answers may
    depend on every call made before it, so each answer is a function of
    that history.

    A coordinate [np.array(node[1:]) / cg.segmentation_resolution] is kept
    as the pair of its numerators and the resolution. *)
Class Backend : Type := {
  get_cg : list cg_call → string → outcome unit;
  segmentation_resolution : string → list Z;
  get_chunk_coordinates : string → N → list Z;
  handle_supervoxel_id_lookup :
    list cg_call → string → list (list Z * list Z) → list N → outcome (list N);
  add_edges :
    list cg_call → string → string → list N →
    list (list Z * list Z) → list (list Z * list Z) → outcome Result;
  remove_edges :
    list cg_call → string → string → list N → list N →
    list (list Z * list Z) → list (list Z * list Z) → bool → outcome Result;
  undo : list cg_call → string → string → N → outcome Result;
  redo : list cg_call → string → string → N → outcome Result;
  undo_operation : list cg_call → string → string → N → outcome Result;
  read_log_rows : list cg_call → string → Z → outcome (gmap N log_entry);
  (** [datetime.fromtimestamp(float(s), UTC)], or the exception that
      [float] or [fromtimestamp] raises: [ValueError] for a text that is
      no number, [OverflowError] for an infinity. *)
  datetime_of_string : string → outcome Z
}.

(** The body of a request after [json.loads], in the shapes that the
    handlers take apart: a node is [[id, x, y, z]]. *)
Inductive body : Type :=
  | NodesBody (nodes : list (N * list Z))
  | TerminalsBody (sources sinks : list (N * list Z))
  | OperationBody (operation_id : N).

Record request : Type := mkRequest {
  auth_user_id : string;
  args : gmap string string;
  data : body
}.

(** The message that [publish_edit] hands to the messaging client. *)
Record message : Type := mkMessage {
  exchange : string;
  payload_operation_id : N;
  payload_new_lvl2_ids : list N;
  payload_new_root_ids : list N;
  attr_table_id : string;
  attr_user_id : string;
  attr_remesh_priority : string
}.

(** What a handler can change: the fields of [current_app], the calls made
    on the chunked graph so far, and the messages published so far. *)
Record world : Type := mkWorld {
  current_table_id : option string;
  current_user_id : option string;
  environ : gmap string string;
  cg_calls : list cg_call;
  published : list message
}.

Definition handler (A : Type) : Type := world → world * outcome A.

#[export] Instance handler_ret : MRet handler := λ A a w, (w, Return a).
#[export] Instance handler_bind : MBind handler := λ A B k m w,
  match m w with
  | (w', Return a) => k a w'
  | (w', Raise e) => (w', Raise e)
  end.

Definition raise {A} (e : exn) : handler A := λ w, (w, Raise e).

Definition lift {A} (m : outcome A) : handler A := λ w, (w, m).

(** [try: m except ...: h]: [h] names the exceptions it catches. *)
Definition try_except {A} (m : handler A) (h : exn → option (handler A))
  : handler A := λ w,
  match m w with
  | (w', Return a) => (w', Return a)
  | (w', Raise e) =>
      match h e with
      | Some k => k w'
      | None => (w', Raise e)
      end
  end.

Definition set_table_id (t : string) : handler unit := λ w,
  (mkWorld (Some t) (current_user_id w) (environ w) (cg_calls w) (published w),
   Return ()).

Definition set_user_id (u : string) : handler unit := λ w,
  (mkWorld (current_table_id w) (Some u) (environ w) (cg_calls w) (published w),
   Return ()).

(** A call on the chunked graph: it is recorded, and answered from the
    calls before it. *)
Definition call {A} (c : cg_call) (answer : list cg_call → outcome A)
  : handler A := λ w,
  (mkWorld (current_table_id w) (current_user_id w) (environ w)
           (cg_calls w ++ [c]) (published w),
   answer (cg_calls w)).

Definition send (m : message) : handler unit := λ w,
  (mkWorld (current_table_id w) (current_user_id w) (environ w)
           (cg_calls w) (published w ++ [m]),
   Return ()).

Definition getenv (name default : string) : handler string := λ w,
  (w, Return (match environ w !! name with Some v => v | None => default end)).

(** [str.lower], on the ASCII letters. *)
Definition lower_ascii (c : ascii) : ascii :=
  let n := nat_of_ascii c in
  if decide (65 ≤ n ∧ n ≤ 90) then ascii_of_nat (n + 32) else c.

Fixpoint lower (s : string) : string :=
  match s with
  | EmptyString => EmptyString
  | String c s' => String (lower_ascii c) (lower s')
  end.

Definition str2bool (v : string) : bool :=
  bool_decide (lower v ∈ ["yes"; "true"; "t"; "1"]).

(** [request.args.get(name, True, type=str2bool)] *)
Definition arg_bool (req : request) (name : string) : bool :=
  match args req !! name with
  | Some v => str2bool v
  | None => true
  end.

(** The table names on which undo, redo and rollback are refused. *)
Definition deny_list : list string := ["fly_v26"; "fly_v31"].

(** Stable sorting by decreasing timestamp: Python's
    [operations.sort(key=lambda op: op[1], reverse=True)], which keeps the
    order of the entries with equal keys. *)
Fixpoint insert_desc (x : N * Z) (l : list (N * Z)) : list (N * Z) :=
  match l with
  | [] => [x]
  | y :: l' => if decide (y.2 ≤ x.2)%Z then x :: y :: l'
               else y :: insert_desc x l'
  end.

Definition sort_desc (l : list (N * Z)) : list (N * Z) :=
  foldr insert_desc [] l.

Section Handlers.

Context `{Backend}.

Definition publish_edit (table_id user_id : string) (result : Result)
    (is_priority : bool) : handler unit :=
  let remesh_priority := if is_priority then "true" else "false" in
  roots ← match new_root_ids result with
          | Some ids => mret ids
          | None => raise AttributeError
          end;
  exchange ← getenv "PYCHUNKEDGRAPH_EDITS_EXCHANGE" "pychunkedgraph";
  send (mkMessage exchange (operation_id result) (new_lvl2_ids result) roots
                  table_id user_id remesh_priority).

Definition scale (table_id : string) (node : N * list Z) : list Z * list Z :=
  (node.2, segmentation_resolution table_id).

Definition handle_merge (table_id : string) (req : request) : handler Result :=
  _ ← set_table_id table_id;
  nodes ← match data req with
          | NodesBody nodes => mret nodes
          | _ => raise (OtherError "TypeError")
          end;
  let is_priority := arg_bool req "priority" in
  let user_id := auth_user_id req in
  _ ← set_user_id user_id;
  _ ← (if decide (length nodes = 2) then mret () else raise AssertionError);
  _ ← call (GetCg table_id) (λ h, get_cg h table_id);
  let node_ids := nodes.*1 in
  let coords := scale table_id <$> nodes in
  atomic_edge ← call (SupervoxelIdLookup table_id coords node_ids)
                     (λ h, handle_supervoxel_id_lookup h table_id coords node_ids);
  a0 ← lift (Np.item atomic_edge 0);
  a1 ← lift (Np.item atomic_edge 1);
  let chunk_coord_delta :=
    zip_with Z.sub (get_chunk_coordinates table_id a0)
                   (get_chunk_coordinates table_id a1) in
  _ ← (if existsb (λ d, bool_decide (3 < Z.abs d)%Z) chunk_coord_delta
       then raise (BadRequest
         "Chebyshev distance between merge points exceeded allowed maximum (3 chunks).")
       else mret ());
  ret ← try_except
          (call (AddEdges table_id user_id atomic_edge (take 1 coords) (drop 1 coords))
                (λ h, add_edges h table_id user_id atomic_edge
                                (take 1 coords) (drop 1 coords)))
          (λ e, match e with
                | LockingError _ => Some (raise (InternalServerError
                    "Could not acquire root lock for merge operation."))
                | PreconditionError msg => Some (raise (BadRequest msg))
                | _ => None
                end);
  _ ← (match new_root_ids ret with
       | None => raise (InternalServerError "Could not merge selected supervoxel.")
       | Some _ => mret ()
       end);
  _ ← (if decide (0 < length (new_lvl2_ids ret))
       then publish_edit table_id user_id ret is_priority
       else mret ());
  mret ret.

Definition handle_split (table_id : string) (req : request) : handler Result :=
  _ ← set_table_id table_id;
  let is_priority := arg_bool req "priority" in
  let mincut := arg_bool req "mincut" in
  let user_id := auth_user_id req in
  _ ← set_user_id user_id;
  _ ← call (GetCg table_id) (λ h, get_cg h table_id);
  '(sources, sinks) ← match data req with
                      | TerminalsBody sources sinks => mret (sources, sinks)
                      | _ => raise KeyError
                      end;
  let node_ids := (sources ++ sinks).*1 in
  let coords := scale table_id <$> (sources ++ sinks) in
  let node_idents := ((λ _, 0) <$> sources) ++ ((λ _, 1) <$> sinks) in
  sv_ids ← call (SupervoxelIdLookup table_id coords node_ids)
                (λ h, handle_supervoxel_id_lookup h table_id coords node_ids);
  let is_source := (λ i, bool_decide (i = 0)) <$> node_idents in
  let is_sink := (λ i, bool_decide (i = 1)) <$> node_idents in
  source_ids ← lift (Np.mask_select sv_ids is_source);
  sink_ids ← lift (Np.mask_select sv_ids is_sink);
  source_coords ← lift (Np.mask_select coords is_source);
  sink_coords ← lift (Np.mask_select coords is_sink);
  ret ← try_except
          (call (RemoveEdges table_id user_id source_ids sink_ids
                             source_coords sink_coords mincut)
                (λ h, remove_edges h table_id user_id source_ids sink_ids
                                   source_coords sink_coords mincut))
          (λ e, match e with
                | LockingError _ => Some (raise (InternalServerError
                    "Could not acquire root lock for split operation."))
                | PreconditionError msg => Some (raise (BadRequest msg))
                | _ => None
                end);
  _ ← (match new_root_ids ret with
       | None => raise (InternalServerError
                          "Could not split selected segment groups.")
       | Some _ => mret ()
       end);
  _ ← (if decide (0 < length (new_lvl2_ids ret))
       then publish_edit table_id user_id ret is_priority
       else mret ());
  mret ret.

(** The [except] clauses shared by undo, redo and rollback. *)
Definition undo_handlers {A} (what : string) (e : exn) : option (handler A) :=
  match e with
  | LockingError _ => Some (raise (InternalServerError
      ("Could not acquire root lock for " +:+ what +:+ " operation.")))
  | PreconditionError msg => Some (raise (BadRequest msg))
  | PostconditionError msg => Some (raise (BadRequest msg))
  | _ => None
  end.

Definition handle_undo (table_id : string) (req : request) : handler Result :=
  if decide (table_id ∈ deny_list)
  then raise (InternalServerError "Undo not supported for this chunkedgraph table.")
  else
  _ ← set_table_id table_id;
  let is_priority := arg_bool req "priority" in
  let user_id := auth_user_id req in
  _ ← set_user_id user_id;
  _ ← call (GetCg table_id) (λ h, get_cg h table_id);
  operation_id ← match data req with
                 | OperationBody op => mret op
                 | _ => raise KeyError
                 end;
  ret ← try_except
          (call (Undo table_id user_id operation_id)
                (λ h, undo h table_id user_id operation_id))
          (undo_handlers "undo");
  _ ← (if decide (0 < length (new_lvl2_ids ret))
       then publish_edit table_id user_id ret is_priority
       else mret ());
  mret ret.

Definition handle_redo (table_id : string) (req : request) : handler Result :=
  if decide (table_id ∈ deny_list)
  then raise (InternalServerError "Redo not supported for this chunkedgraph table.")
  else
  _ ← set_table_id table_id;
  let is_priority := arg_bool req "priority" in
  let user_id := auth_user_id req in
  _ ← set_user_id user_id;
  _ ← call (GetCg table_id) (λ h, get_cg h table_id);
  operation_id ← match data req with
                 | OperationBody op => mret op
                 | _ => raise KeyError
                 end;
  ret ← try_except
          (call (Redo table_id user_id operation_id)
                (λ h, redo h table_id user_id operation_id))
          (undo_handlers "redo");
  _ ← (if decide (0 < length (new_lvl2_ids ret))
       then publish_edit table_id user_id ret is_priority
       else mret ());
  mret ret.

(** [_parse_timestamp("start_time", 0, return_datetime=True)] *)
Definition parse_start_time (req : request) : handler Z :=
  match args req !! "start_time" with
  | None => mret 0%Z
  | Some s =>
      try_except (lift (datetime_of_string s))
        (λ e, match e with
              | ValueError => Some (raise (BadRequest
                  "Timestamp parameter start_time is not a valid unix timestamp"))
              | OtherError name =>
                  if decide (name = "TypeError")
                  then Some (raise (BadRequest
                    "Timestamp parameter start_time is not a valid unix timestamp"))
                  else None
              | _ => None
              end)
  end.

(** [request.args["user_id"]] *)
Definition arg_user_id (req : request) : handler string :=
  match args req !! "user_id" with
  | Some u => mret u
  | None => raise BadRequestKeyError
  end.

(** The rows of the log in the order of their keys, [np.sort(keys)]. *)
Definition sorted_rows (log_rows : gmap N log_entry) : list (N * log_entry) :=
  omap (λ k, (λ e, (k, e)) <$> log_rows !! k)
       (merge_sort N.le (map_to_list log_rows).*1).

Definition all_user_operations (table_id : string) (req : request)
  : handler (list N * list Z) :=
  _ ← set_table_id table_id;
  let user_id := auth_user_id req in
  _ ← set_user_id user_id;
  target_user_id ← arg_user_id req;
  start_time ← parse_start_time req;
  _ ← call (GetCg table_id) (λ h, get_cg h table_id);
  log_rows ← call (ReadLogRows table_id start_time)
                  (λ h, read_log_rows h table_id start_time);
  let valid := filter (λ r, UserID r.2 = target_user_id) (sorted_rows log_rows) in
  let valid_entry_ids := valid.*1 in
  let timestamp_list := (λ r, timestamp r.2) <$> valid in
  mret (valid_entry_ids, timestamp_list).

(** The body of the loop of [handle_rollback]. *)
Definition rollback_one (table_id user_id target_user_id : string)
    (operation : N * Z) : handler unit :=
  let operation_id := operation.1 in
  ret ← try_except
          (call (UndoOperation table_id target_user_id operation_id)
                (λ h, undo_operation h table_id target_user_id operation_id))
          (undo_handlers "undo");
  if decide (0 < length (new_lvl2_ids ret))
  then publish_edit table_id user_id ret false
  else mret ().

Fixpoint rollback_loop (table_id user_id target_user_id : string)
    (operations : list (N * Z)) : handler unit :=
  match operations with
  | [] => mret ()
  | operation :: operations' =>
      _ ← rollback_one table_id user_id target_user_id operation;
      rollback_loop table_id user_id target_user_id operations'
  end.

Definition handle_rollback (table_id : string) (req : request)
  : handler (list N * list Z) :=
  if decide (table_id ∈ deny_list)
  then raise (InternalServerError
                "Rollback not supported for this chunkedgraph table.")
  else
  _ ← set_table_id table_id;
  let user_id := auth_user_id req in
  _ ← set_user_id user_id;
  target_user_id ← arg_user_id req;
  _ ← call (GetCg table_id) (λ h, get_cg h table_id);
  user_operations ← all_user_operations table_id req;
  let operation_ids := user_operations.1 in
  let timestamps := user_operations.2 in
  let operations := sort_desc (zip operation_ids timestamps) in
  _ ← rollback_loop table_id user_id target_user_id operations;
  mret user_operations.

End Handlers.

End Common.

(** ** Vocabulary of the properties *)

Module Spec.

(** The cross chunk edges of an input: those with an infinite affinity. *)
Definition cross_edges (edges : list (N * N)) (affs : list spec_float)
  : list (N * N) :=
  (filter (λ ea, Np.isinf ea.2 = true) (zip edges affs)).*1.

(** The weighted edges of an input, each with its affinity. *)
Definition weighted (edges : list (N * N)) (affs : list spec_float)
  : list ((N * N) * spec_float) :=
  filter (λ ea, Np.isinf ea.2 = false) (zip edges affs).

(** Connection by a chain of cross chunk edges, in either direction. *)
Definition cross_connected (edges : list (N * N)) (affs : list spec_float)
  : relation N :=
  rtsc (λ u v, (u, v) ∈ cross_edges edges affs).

(** The graph of the cross chunk edges. *)
Definition cross_graph (edges : list (N * N)) (affs : list spec_float)
  : Nx.Graph :=
  Nx.add_edges_from Nx.empty (cross_edges edges affs).

(** The nodes of the cross chunk graph. *)
Definition cross_node (edges : list (N * N)) (affs : list spec_float)
    (n : N) : Prop :=
  n ∈ Np.ravel (cross_edges edges affs).

(** The representative that the rows of [mapping] give to a node. *)
Definition rep (mapping : list (N * N)) (n : N) : N :=
  Cutting.remap (Cutting.dict mapping) n.



End Spec.

(** ** Error kinds

    Modelled from the spec: the exception classes are declared in
    [backend/chunkedgraph_exceptions.py], which is not among the sources.
    Section 7 of the system description separates the errors caused by the
    request, [BadRequest], from the server's own, [Internal]; a client
    error is one of the former. *)
Definition is_client_error (e : exn) : bool :=
  match e with
  | BadRequest _ | BadRequestKeyError => true
  | _ => false
  end.

(** The exceptions of the class [BadRequest]. *)
Definition is_bad_request (e : exn) : bool :=
  match e with
  | BadRequest _ => true
  | _ => false
  end.

(** ** Concrete inputs *)

Module Scenario.

Local Open Scope N_scope.

(** The float32 values 1.0 and 5.0, and plus infinity. *)
Definition one : spec_float := S754_finite false 8388608 (-23).
Definition five : spec_float := S754_finite false 10485760 (-21).
Definition inf : spec_float := S754_infinity false.

(** A chain with two cross chunk edges around one weighted edge. *)
Definition chain_edges : list (N * N) := [(1, 2); (2, 3); (3, 4)]%N.
Definition chain_affs : list spec_float := [inf; five; inf].
Definition chain_mapping : list (N * N) := [(1, 1); (2, 1); (3, 3); (4, 3)]%N.

(** A stand-in for the minimum cut routine: it cuts between 1 and 3. *)
Definition cut_1_3 (G : Nx.Graph) (s t : N)
  : outcome (option (list (N * N))) :=
  Return (Some [(1, 3)%N]).

(** A chunked graph that answers every edit with [answer] and every read
    of the log with [log]. *)
Definition backend (answer : outcome Common.Result)
    (log : gmap N Common.log_entry) : Common.Backend :=
  {| Common.get_cg := λ _ _, Return ();
     Common.segmentation_resolution := λ _, [1; 1; 1]%Z;
     Common.get_chunk_coordinates := λ _ _, [0; 0; 0]%Z;
     Common.handle_supervoxel_id_lookup := λ _ _ _ node_ids, Return node_ids;
     Common.add_edges := λ _ _ _ _ _ _, answer;
     Common.remove_edges := λ _ _ _ _ _ _ _ _, answer;
     Common.undo := λ _ _ _ _, answer;
     Common.redo := λ _ _ _ _, answer;
     Common.undo_operation := λ _ _ _ _, answer;
     Common.read_log_rows := λ _ _ _, Return log;
     Common.datetime_of_string := λ _, Raise ValueError |}.

Definition world0 : Common.world := Common.mkWorld None None ∅ [] [].

Definition merge_request : Common.request :=
  Common.mkRequest "alice" ∅
    (Common.NodesBody [(1%N, [0; 0; 0]%Z); (2%N, [8; 0; 0]%Z)]).

Definition split_request : Common.request :=
  Common.mkRequest "alice" ∅
    (Common.TerminalsBody [(1%N, [0; 0; 0]%Z)] [(2%N, [8; 0; 0]%Z)]).

Definition undo_request : Common.request :=
  Common.mkRequest "alice" ∅ (Common.OperationBody 7%N).

Definition rollback_request : Common.request :=
  Common.mkRequest "admin" {["user_id" := "bob"]} (Common.OperationBody 0%N).

(** The calls that precede the edit of [merge_request] and of
    [split_request] on the table "t". *)
Definition before_edit : list Common.cg_call :=
  [Common.GetCg "t";
   Common.SupervoxelIdLookup "t"
     [([0; 0; 0]%Z, [1; 1; 1]%Z); ([8; 0; 0]%Z, [1; 1; 1]%Z)] [1%N; 2%N]].

(** An edit with new level 2 ids and new roots, one without new level 2
    ids, and one whose roots are an empty array. *)
Definition edited : Common.Result := Common.mkResult 7 (Some [90%N]) [20%N; 21%N].
Definition unchanged : Common.Result := Common.mkResult 7 (Some [90%N]) [].
Definition no_roots : Common.Result := Common.mkResult 7 (Some []) [].
Definition none_roots : Common.Result := Common.mkResult 7 None [].

(** A log in which bob's operation 1 was undone by bob's operation 3. *)
Definition log : gmap N Common.log_entry :=
  {[ 1%N := Common.mkEntry "bob" 10 None;
     2%N := Common.mkEntry "eve" 20 None;
     3%N := Common.mkEntry "bob" 30 (Some 1%N);
     4%N := Common.mkEntry "bob" 25 None ]}.

End Scenario.

(** ** Two read handlers *)

Module Reads.

Import Common.

(** What the read handlers ask of the chunked graph.  A read is answered
    from the calls made before it, and it is not recorded among them.
    The rows of [range_read_chunk] come as the dictionary has them: in its
    order, each key with the cells of the child column, and each cell
    with its value. *)
Class Reader : Type := {
  get_chunk_layer : string → N → N;
  range_read_chunk :
    list cg_call → string → N → Z → outcome (list (N * list (list N)))
}.

(** What [handle_l2_chunk_children] returns: the flat array or the
    dictionary (with its keys in their order).  The handler also sets
    [current_app.request_type], a field that no modelled code reads and
    that [world] does not keep. *)
Inductive l2_chunk_children : Type :=
  | L2Array (a : list N)
  | L2Dict (d : list (N * list N)).

(** [d[k] = v] on a dictionary kept in insertion order. *)
Fixpoint dict_set (k : N) (v : list N) (d : list (N * list N))
  : list (N * list N) :=
  match d with
  | [] => [(k, v)]
  | (k', v') :: d' => if decide (k' = k) then (k, v) :: d'
                      else (k', v') :: dict_set k v d'
  end.

Section ReadHandlers.

Context `{Backend} `{Reader}.

(** [_parse_timestamp("timestamp", time.time(), return_datetime=True)];
    [now] is the time that [time.time()] gave. *)
Definition parse_timestamp (now : Z) (req : request) : handler Z :=
  match args req !! "timestamp" with
  | None => mret now
  | Some s =>
      try_except (lift (datetime_of_string s))
        (λ e, match e with
              | ValueError => Some (raise (BadRequest
                  "Timestamp parameter timestamp is not a valid unix timestamp"))
              | OtherError name =>
                  if decide (name = "TypeError")
                  then Some (raise (BadRequest
                    "Timestamp parameter timestamp is not a valid unix timestamp"))
                  else None
              | _ => None
              end)
  end.

Definition handle_l2_chunk_children (table_id : string) (chunk_id : N)
    (as_array : bool) (now : Z) (req : request) : handler l2_chunk_children :=
  _ ← set_table_id table_id;
  timestamp ← parse_timestamp now req;
  _ ← call (GetCg table_id) (λ h, get_cg h table_id);
  let chunk_layer := get_chunk_layer table_id chunk_id in
  if decide (chunk_layer ≠ 2%N)
  then raise (PreconditionError
    ("This function only accepts level 2 chunks, the chunk requested is a level "
     +:+ pretty chunk_layer +:+ " chunk"))
  else
  rr_chunk ← (λ w, (w, range_read_chunk (cg_calls w) table_id chunk_id timestamp));
  if as_array then
    l2_chunk_array ←
      lift (for_each (λ l2_chunk_array row,
                        svs ← Np.item row.2 0;
                        Return (l2_chunk_array
                                ++ mjoin ((λ sv, [row.1; sv]) <$> svs)))
                     [] rr_chunk);
    mret (L2Array l2_chunk_array)
  else
    l2_chunk_dict ←
      lift (for_each (λ l2_chunk_dict row,
                        v ← Np.item row.2 0;
                        Return (dict_set row.1 v l2_chunk_dict))
                     [] rr_chunk);
    mret (L2Dict l2_chunk_dict).

(** The data frame is kept as its three columns, [operation_id],
    [timestamp] and [user_id]. *)
Definition tabular_change_log_recent (table_id : string) (req : request)
  : handler (list N * list Z * list string) :=
  _ ← set_table_id table_id;
  let user_id := auth_user_id req in
  _ ← set_user_id user_id;
  start_time ← parse_start_time req;
  _ ← call (GetCg table_id) (λ h, get_cg h table_id);
  log_rows ← call (ReadLogRows table_id start_time)
                  (λ h, read_log_rows h table_id start_time);
  let entry_ids := merge_sort N.le (map_to_list log_rows).*1 in
  let entries := sorted_rows log_rows in
  let timestamp_list := (λ r, timestamp r.2) <$> entries in
  let user_list := (λ r, UserID r.2) <$> entries in
  mret (entry_ids, timestamp_list, user_list).

End ReadHandlers.

End Reads.

(** ** Further inputs *)

Module Inputs.

(** A chunked graph like [Scenario.backend] whose chunks lie [step]
    apart along the first axis, one chunk for each id. *)
Definition spread_backend (step : Z) (answer : outcome Common.Result)
    (log : gmap N Common.log_entry) : Common.Backend :=
  {| Common.get_cg := λ _ _, Return ();
     Common.segmentation_resolution := λ _, [1; 1; 1]%Z;
     Common.get_chunk_coordinates := λ _ n, [step * Z.of_N n; 0; 0]%Z;
     Common.handle_supervoxel_id_lookup := λ _ _ _ node_ids, Return node_ids;
     Common.add_edges := λ _ _ _ _ _ _, answer;
     Common.remove_edges := λ _ _ _ _ _ _ _ _, answer;
     Common.undo := λ _ _ _ _, answer;
     Common.redo := λ _ _ _ _, answer;
     Common.undo_operation := λ _ _ _ _, answer;
     Common.read_log_rows := λ _ _ _, Return log;
     Common.datetime_of_string := λ _, Raise ValueError |}.

(** A reader that finds every chunk on [layer] and reads [rows]. *)
Definition reader (layer : N) (rows : list (N * list (list N)))
  : Reads.Reader :=
  {| Reads.get_chunk_layer := λ _ _, layer;
     Reads.range_read_chunk := λ _ _ _ _, Return rows |}.

(** A level 2 chunk with the ids 5 (two supervoxels), 6 (none) and 7. *)
Definition chunk_rows : list (N * list (list N)) :=
  [(5, [[50; 51]]); (6, [[]]); (7, [[70]])]%N.

(** A result with new level 2 ids and without roots. *)
Definition rootless : Common.Result := Common.mkResult 7 None [20%N].

(** A log in which two operations of bob bear the same timestamp. *)
Definition tied_log : gmap N Common.log_entry :=
  {[ 1%N := Common.mkEntry "bob" 10%Z None;
     2%N := Common.mkEntry "bob" 30%Z None;
     3%N := Common.mkEntry "eve" 40%Z None;
     4%N := Common.mkEntry "bob" 30%Z None ]}.


(** A chunked graph like [Scenario.backend] that reads the rows of [log]
    since the start time, and that knows the texts "20e-6" (20
    microseconds) and "inf". *)
Definition dated_backend (answer : outcome Common.Result)
    (log : gmap N Common.log_entry) : Common.Backend :=
  {| Common.get_cg := λ _ _, Return ();
     Common.segmentation_resolution := λ _, [1; 1; 1]%Z;
     Common.get_chunk_coordinates := λ _ _, [0; 0; 0]%Z;
     Common.handle_supervoxel_id_lookup := λ _ _ _ node_ids, Return node_ids;
     Common.add_edges := λ _ _ _ _ _ _, answer;
     Common.remove_edges := λ _ _ _ _ _ _ _ _, answer;
     Common.undo := λ _ _ _ _, answer;
     Common.redo := λ _ _ _ _, answer;
     Common.undo_operation := λ _ _ _ _, answer;
     Common.read_log_rows := λ _ _ start_time,
       Return (filter (λ row : N * Common.log_entry,
                         (start_time ≤ Common.timestamp row.2)%Z) log);
     Common.datetime_of_string := λ s,
       if decide (s = "20e-6") then Return 20%Z
       else if decide (s = "inf") then Raise (OtherError "OverflowError")
       else Raise ValueError |}.

(** Requests for the operations of bob since 20 microseconds, and since
    an infinite start time. *)
Definition since_request : Common.request :=
  Common.mkRequest "admin" {["user_id" := "bob"; "start_time" := "20e-6"]}
    (Common.OperationBody 0%N).

Definition inf_start_request : Common.request :=
  Common.mkRequest "admin" {["user_id" := "bob"; "start_time" := "inf"]}
    (Common.OperationBody 0%N).

(** A rollback request whose start time is no number. *)
Definition bad_start_request : Common.request :=
  Common.mkRequest "admin" {["user_id" := "bob"; "start_time" := "yesterday"]}
    (Common.OperationBody 0%N).

(** A split request with two sources and one sink. *)
Definition split_request_2_1 : Common.request :=
  Common.mkRequest "alice" ∅
    (Common.TerminalsBody [(1%N, [0; 0; 0]%Z); (2%N, [4; 0; 0]%Z)]
                          [(3%N, [8; 0; 0]%Z)]).

End Inputs.

(** * Facts about the graph model *)

Section Labels.

(** One step of the labelling: when equal labels mean connection by [R],
    then after the edge [e] they mean connection by [R] and [e]. *)
Lemma union_label_spec (R : relation N) (lab : N → N) (e : N * N) :
  (∀ u v, lab u = lab v ↔ rtsc R u v) →
  ∀ u v, Nx.union_label lab e u = Nx.union_label lab e v
         ↔ rtsc (λ x y, R x y ∨ (x, y) = e) u v.
Proof.
  intros Hlab u v. destruct e as [a b].
  assert (Hmono : ∀ x y, rtsc R x y → rtsc (λ x y, R x y ∨ (x, y) = (a, b)) x y).
  { intros x y. apply rtc_subrel. intros ?? [?|?]; [left|right]; auto. }
  assert (Hab : rtsc (λ x y, R x y ∨ (x, y) = (a, b)) a b).
  { apply rtsc_lr. by right. }
  unfold Nx.union_label; simpl. split.
  - intros Heq.
    destruct (decide (lab u = lab b)) as [Hu|Hu],
             (decide (lab v = lab b)) as [Hv|Hv].
    + apply Hmono, Hlab. congruence.
    + transitivity b; [by apply Hmono, Hlab|].
      transitivity a; [by symmetry|]. by apply Hmono, Hlab.
    + transitivity a; [apply Hmono, Hlab; congruence|].
      transitivity b; [done|]. apply Hmono, Hlab. congruence.
    + by apply Hmono, Hlab.
  - intros Hc. induction Hc as [x|x y z Hxy _ IH]; [done|].
    rewrite <- IH. clear IH.
    assert (Hstep : ∀ p q, (R p q ∨ (p, q) = (a, b)) →
      (if decide (lab p = lab b) then lab a else lab p)
      = (if decide (lab q = lab b) then lab a else lab q)).
    { intros p q [Hr|[= -> ->]].
      - assert (lab p = lab q) as -> by (apply Hlab; by apply rtsc_lr). done.
      - destruct (decide (lab a = lab b)), (decide (lab b = lab b)); congruence. }
    destruct Hxy as [Hxy|Hxy]; [by apply Hstep|symmetry; by apply Hstep].
Qed.

Lemma foldl_union_label_spec (es : list (N * N)) (R : relation N) (lab : N → N) :
  (∀ u v, lab u = lab v ↔ rtsc R u v) →
  ∀ u v, foldl Nx.union_label lab es u = foldl Nx.union_label lab es v
         ↔ rtsc (λ x y, R x y ∨ (x, y) ∈ es) u v.
Proof.
  revert R lab. induction es as [|e es IH]; intros R lab Hlab u v; simpl.
  - rewrite Hlab. split; apply rtc_subrel; unfold sc.
    + intros ?? [?|?]; auto.
    + intros ?? [[?|Hin]|[?|Hin]]; auto; by apply elem_of_nil in Hin.
  - rewrite (IH _ _ (union_label_spec R lab e Hlab)).
    split; apply rtc_subrel; unfold sc; intros x y; rewrite !elem_of_cons;
      tauto.
Qed.

End Labels.

Lemma has_edge_sym G u v : Nx.has_edge G u v → Nx.has_edge G v u.
Proof.
  unfold Nx.has_edge, Nx.ekey. by rewrite (N.min_comm v u), (N.max_comm v u).
Qed.

Lemma ekey_cases u v : Nx.ekey u v = (u, v) ∧ (u ≤ v)%N ∨ Nx.ekey u v = (v, u) ∧ (v ≤ u)%N.
Proof.
  unfold Nx.ekey. destruct (N.le_ge_cases u v).
  - left. rewrite N.min_l, N.max_r by done. done.
  - right. rewrite N.min_r, N.max_l by done. done.
Qed.

Lemma ekey_le u v : (u ≤ v)%N → Nx.ekey u v = (u, v).
Proof. intros. unfold Nx.ekey. by rewrite N.min_l, N.max_r. Qed.

(** Equal labels are connection in the graph. *)
Lemma component_label_spec G :
  Nx.wf G →
  ∀ u v, Nx.component_label G u = Nx.component_label G v ↔ Nx.connected G u v.
Proof.
  intros [_ Hwf] u v. unfold Nx.component_label.
  rewrite (foldl_union_label_spec _ (λ _ _, False) id).
  - unfold Nx.connected. split; apply rtc_subrel; intros x y.
    + intros [[[]|Hin]|[[]|Hin]];
        apply list_elem_of_fmap in Hin as [[k a] [Hk Hin]]; simpl in Hk; subst k;
        apply elem_of_map_to_list in Hin;
        [left|right]; unfold Nx.has_edge;
        (rewrite ekey_le; [by eexists|]); eapply Hwf; by eexists.
    + assert (Hone : ∀ p q, Nx.has_edge G p q →
        sc (λ x y, False ∨ (x, y) ∈ (map_to_list (Nx.adj G)).*1) p q).
      { intros p q [a Ha]. destruct (ekey_cases p q) as [[Hk _]|[Hk _]];
          rewrite Hk in Ha; [left|right]; right; apply list_elem_of_fmap.
        - exists (p, q, a). split; [done|]. by apply elem_of_map_to_list.
        - exists (q, p, a). split; [done|]. by apply elem_of_map_to_list. }
      intros [Hpq|Hpq]; [by apply Hone|]. symmetry. by apply Hone.
  - intros x y. simpl. split; [intros ->; reflexivity|].
    intros Hc. induction Hc as [|x' y' z' Hs _ _]; [done|].
    by destruct Hs as [[]|[]].
Qed.

Lemma connected_sym G u v : Nx.connected G u v → Nx.connected G v u.
Proof. intros. by symmetry. Qed.

Lemma elem_of_plain_bfs G v w :
  Nx.wf G →
  w ∈ Nx.plain_bfs G v ↔ w ∈ Nx.nodes G ∧ Nx.connected G v w.
Proof.
  intros Hwf. unfold Nx.plain_bfs. rewrite list_elem_of_filter.
  rewrite (component_label_spec G Hwf). split.
  - intros [? ?]. split; [done|by symmetry].
  - intros [? ?]. split; [by symmetry|done].
Qed.

Lemma NoDup_plain_bfs G v : Nx.wf G → NoDup (Nx.plain_bfs G v).
Proof. intros [? _]. by apply NoDup_filter. Qed.

(** The loop of [connected_components], from any state in which the nodes
    seen so far are closed under connection. *)
Lemma components_loop_spec G todo seen :
  Nx.wf G →
  (∀ v, v ∈ todo → v ∈ Nx.nodes G) →
  (∀ x y, x ∈ seen → Nx.connected G x y → y ∈ Nx.nodes G → y ∈ seen) →
  (∀ c, c ∈ Nx.components_loop G todo seen →
        ∃ v, v ∈ todo ∧ (v ∉ seen) ∧ c = Nx.plain_bfs G v) ∧
  (∀ v, v ∈ todo → v ∈ seen ∨ ∃ c, c ∈ Nx.components_loop G todo seen ∧ v ∈ c) ∧
  NoDup (mjoin (Nx.components_loop G todo seen)) ∧
  (∀ x, x ∈ mjoin (Nx.components_loop G todo seen) → x ∉ seen).
Proof.
  intros Hwf. revert seen.
  induction todo as [|v todo IH]; intros seen Htodo Hclosed; simpl.
  { split_and!; [by intros ? ?%elem_of_nil|by intros ? ?%elem_of_nil
                |constructor|by intros ? ?%elem_of_nil]. }
  assert (Htodo' : ∀ v, v ∈ todo → v ∈ Nx.nodes G).
  { intros x Hx. apply Htodo. by right. }
  destruct (decide (v ∈ seen)) as [Hv|Hv].
  - destruct (IH seen Htodo' Hclosed) as (Ha & Hb & Hc & Hd).
    split_and!; try done.
    + intros c Hc'. destruct (Ha c Hc') as (x & ? & ? & ?).
      exists x. split_and!; try done. by right.
    + intros x [->|Hx]%elem_of_cons; [by left|by apply Hb].
  - set (c := Nx.plain_bfs G v).
    assert (Hvc : v ∈ c).
    { apply elem_of_plain_bfs; [done|]. split; [apply Htodo; by left|done]. }
    assert (Hclosed' : ∀ x y, x ∈ c ++ seen → Nx.connected G x y →
                              y ∈ Nx.nodes G → y ∈ c ++ seen).
    { intros x y [Hx|Hx]%elem_of_app Hxy Hy; apply elem_of_app.
      - left. apply elem_of_plain_bfs; [done|]. split; [done|].
        apply elem_of_plain_bfs in Hx as [_ Hx]; [|done]. by etransitivity.
      - right. by eapply Hclosed. }
    destruct (IH (c ++ seen) Htodo' Hclosed') as (Ha & Hb & Hc & Hd).
    split_and!.
    + intros c' [->|Hc']%elem_of_cons.
      * exists v. split_and!; [by left|done|done].
      * destruct (Ha c' Hc') as (x & ? & Hx & ?).
        exists x. split_and!; [by right| |done].
        intros ?. apply Hx, elem_of_app. by right.
    + intros x [->|Hx]%elem_of_cons.
      * right. exists c. split; [by left|done].
      * destruct (Hb x Hx) as [[?|?]%elem_of_app|(c' & ? & ?)].
        -- right. exists c. split; [by left|done].
        -- by left.
        -- right. exists c'. split; [by right|done].
    + simpl. apply NoDup_app. split_and!; [by apply NoDup_plain_bfs| |done].
      intros x Hx Hx'. apply (Hd x Hx'), elem_of_app. by left.
    + simpl. intros x [Hx|Hx]%elem_of_app Hs.
      * apply Hv. apply (Hclosed x v Hs).
        -- apply elem_of_plain_bfs in Hx as [_ Hx]; [|done]. by symmetry.
        -- apply Htodo. by left.
      * apply (Hd x Hx), elem_of_app. by right.
Qed.

(** The components partition the nodes, and each is a class of
    connection. *)
Lemma connected_components_spec G :
  Nx.wf G →
  (∀ c, c ∈ Nx.connected_components G →
        ∃ v, v ∈ Nx.nodes G ∧ c = Nx.plain_bfs G v) ∧
  (∀ v, v ∈ Nx.nodes G → ∃ c, c ∈ Nx.connected_components G ∧ v ∈ c) ∧
  NoDup (mjoin (Nx.connected_components G)).
Proof.
  intros Hwf. unfold Nx.connected_components.
  destruct (components_loop_spec G (Nx.nodes G) [] Hwf) as (Ha & Hb & Hc & _);
    [done|by intros ?? ?%elem_of_nil|].
  split_and!; [|intros v Hv|done].
  - intros c Hc'. destruct (Ha c Hc') as (v & ? & _ & ?). by exists v.
  - destruct (Hb v Hv) as [?%elem_of_nil|?]; done.
Qed.

Lemma component_members G c x y :
  Nx.wf G → c ∈ Nx.connected_components G → x ∈ c →
  y ∈ c ↔ y ∈ Nx.nodes G ∧ Nx.connected G x y.
Proof.
  intros Hwf Hc Hx.
  destruct (connected_components_spec G Hwf) as (Ha & _ & _).
  destruct (Ha c Hc) as (v & Hv & ->).
  apply elem_of_plain_bfs in Hx as [Hx Hvx]; [|done].
  rewrite elem_of_plain_bfs by done. split; intros [? ?]; (split; [done|]).
  - transitivity v; [by symmetry|done].
  - by transitivity x.
Qed.

(** *** Building graphs *)

Lemma wf_empty : Nx.wf Nx.empty.
Proof.
  split; [constructor|]. intros u v [a Ha]. simpl in Ha.
  by rewrite lookup_empty in Ha.
Qed.

Lemma elem_of_add_node ns n x : x ∈ Nx.add_node ns n ↔ x ∈ ns ∨ x = n.
Proof.
  unfold Nx.add_node. case_decide.
  - split; [by left|]. by intros [?| ->].
  - rewrite elem_of_app, list_elem_of_singleton. done.
Qed.

Lemma NoDup_add_node ns n : NoDup ns → NoDup (Nx.add_node ns n).
Proof.
  intros Hnd. unfold Nx.add_node. case_decide; [done|].
  apply NoDup_app. split_and!; [done| |apply NoDup_singleton].
  intros x Hx ->%list_elem_of_singleton. done.
Qed.

Lemma wf_add_edge G e : Nx.wf G → Nx.wf (Nx.add_edge G e).
Proof.
  intros [Hnd Hk]. destruct e as [a b]. split; simpl.
  - by do 2 apply NoDup_add_node.
  - intros u v Huv.
    assert (Hcase : is_Some (Nx.adj G !! (u, v)) ∨ (u, v) = Nx.ekey a b).
    { destruct (Nx.adj G !! Nx.ekey a b) eqn:E; [by left|].
      destruct (decide (Nx.ekey a b = (u, v))) as [<-|Hne]; [by right|].
      left. by rewrite lookup_insert_ne in Huv. }
    rewrite !elem_of_add_node.
    destruct Hcase as [Hs|Heq].
    + destruct (Hk u v Hs) as (? & ? & ?). auto.
    + destruct (ekey_cases a b) as [[E ?]|[E ?]]; rewrite E in Heq;
        injection Heq as -> ->; auto.
Qed.

Lemma wf_add_edges_from G es : Nx.wf G → Nx.wf (Nx.add_edges_from G es).
Proof.
  unfold Nx.add_edges_from. revert G.
  induction es as [|e es IH]; intros G HG; simpl; [done|].
  by apply IH, wf_add_edge.
Qed.

Lemma elem_of_nodes_add_edges_from G es x :
  x ∈ Nx.nodes (Nx.add_edges_from G es) ↔ x ∈ Nx.nodes G ∨ x ∈ Np.ravel es.
Proof.
  unfold Nx.add_edges_from. revert G.
  induction es as [|[a b] es IH]; intros G; simpl.
  - split; [by left|]. by intros [?|?%elem_of_nil].
  - rewrite IH. simpl. rewrite !elem_of_add_node, !elem_of_cons.
    unfold Np.ravel. tauto.
Qed.

Lemma has_edge_add_edge G e u v :
  Nx.has_edge (Nx.add_edge G e) u v
  ↔ Nx.has_edge G u v ∨ (u, v) = e ∨ (v, u) = e.
Proof.
  destruct e as [a b]. unfold Nx.has_edge, Nx.add_edge; simpl.
  destruct (Nx.adj G !! Nx.ekey a b) eqn:E.
  - split; [by left|]. intros [?|[[= <- <-]|[= <- <-]]]; [done| |].
    + by eexists.
    + assert (Nx.ekey u v = Nx.ekey v u) as ->; [|by eexists].
      unfold Nx.ekey. by rewrite N.min_comm, N.max_comm.
  - destruct (decide (Nx.ekey a b = Nx.ekey u v)) as [Heq|Hne].
    + rewrite Heq, lookup_insert_eq. split; [|by eexists]. intros _. right.
      destruct (ekey_cases a b) as [[E1 ?]|[E1 ?]],
               (ekey_cases u v) as [[E2 ?]|[E2 ?]];
        rewrite E1, E2 in Heq; injection Heq as -> ->; auto.
    + rewrite lookup_insert_ne by done. split; [by left|].
      intros [?|[[= <- <-]|[= <- <-]]]; [done|done|].
      exfalso. apply Hne. unfold Nx.ekey. by rewrite N.min_comm, N.max_comm.
Qed.

Lemma has_edge_add_edges_from G es u v :
  Nx.has_edge (Nx.add_edges_from G es) u v
  ↔ Nx.has_edge G u v ∨ (u, v) ∈ es ∨ (v, u) ∈ es.
Proof.
  unfold Nx.add_edges_from. revert G.
  induction es as [|e es IH]; intros G; simpl.
  - split; [by left|]. by intros [?|[?%elem_of_nil|?%elem_of_nil]].
  - rewrite IH, has_edge_add_edge, !elem_of_cons. tauto.
Qed.

(** * Facts about the numpy helpers *)

Lemma mask_select_fmap_l {A B} (f : B → bool) (a : list A) (bs : list B) :
  length a = length bs →
  Np.mask_select a (f <$> bs)
  = Return (filter (λ p, f p.2 = true) (zip a bs)).*1.
Proof.
  revert bs. induction a as [|x a IH]; intros [|b bs] Hlen; simplify_eq/=; [done|].
  rewrite (IH bs) by done. simpl.
  rewrite filter_cons. simpl. destruct (f b); by case_decide.
Qed.

Lemma mask_select_fmap_r {A B} (f : B → bool) (a : list A) (bs : list B) :
  length a = length bs →
  Np.mask_select bs (f <$> bs)
  = Return (filter (λ p, f p.2 = true) (zip a bs)).*2.
Proof.
  revert bs. induction a as [|x a IH]; intros [|b bs] Hlen; simplify_eq/=; [done|].
  rewrite (IH bs) by done. simpl.
  rewrite filter_cons. simpl. destruct (f b); by case_decide.
Qed.

Lemma mask_select_self {A} (f : A → bool) (a : list A) :
  Np.mask_select a (f <$> a) = Return (filter (λ x, f x = true) a).
Proof.
  induction a as [|x a IH]; [done|].
  rewrite fmap_cons. cbn [Np.mask_select]. rewrite IH. simpl.
  rewrite filter_cons. destruct (f x); by case_decide.
Qed.

Lemma mask_select_map {A B} (g : A → B) (a : list A) (m : list bool) r :
  Np.mask_select a m = Return r →
  Np.mask_select (g <$> a) m = Return (g <$> r).
Proof.
  revert m r. induction a as [|x a IH]; intros [|b m] r;
    rewrite ?fmap_cons; cbn [Np.mask_select]; try done.
  - by intros [= <-].
  - destruct (Np.mask_select a m) as [r'|] eqn:E; simpl; [|done].
    intros [= <-]. rewrite (IH m r' E). simpl. by destruct b.
Qed.

Lemma map_each_ext {A B} (f : A → outcome B) (g : A → B) (l : list A) :
  (∀ x, x ∈ l → f x = Return (g x)) →
  map_each f l = Return (g <$> l).
Proof.
  induction l as [|x l IH]; intros Hf; [done|].
  rewrite fmap_cons. cbn [map_each].
  rewrite Hf by (by left). simpl. rewrite IH; [done|].
  intros y Hy. apply Hf. by right.
Qed.

Lemma np_min_spec (l : list N) r :
  Np.min l = Return r → r ∈ l ∧ ∀ x, x ∈ l → (r ≤ x)%N.
Proof.
  destruct l as [|x l]; simpl; [done|]. intros [= <-].
  induction l as [|y l [IH1 IH2]]; simpl.
  - split; [by left|]. intros z ->%list_elem_of_singleton. done.
  - split.
    + destruct (N.min_spec y (foldr N.min x l)) as [[_ ->]|[_ ->]].
      * right. by left.
      * apply elem_of_cons in IH1 as [->|?]; [by left|]. right. by right.
    + intros z Hz.
      assert (z = y ∨ z ∈ x :: l) as [->|Hz'].
      { apply elem_of_cons in Hz as [->|Hz]; [right; by left|].
        apply elem_of_cons in Hz as [->|Hz]; [by left|right; by right]. }
      * apply N.le_min_l.
      * etransitivity; [apply N.le_min_r|]. by apply IH2.
Qed.

Lemma np_min_returns (l : list N) : l ≠ [] → ∃ r, Np.min l = Return r.
Proof. destruct l; [done|]. intros _. by eexists. Qed.

Lemma elem_of_unique (a : list N) x : x ∈ Np.unique a ↔ x ∈ a.
Proof.
  unfold Np.unique. rewrite merge_sort_Permutation. apply elem_of_remove_dups.
Qed.

Lemma NoDup_unique (a : list N) : NoDup (Np.unique a).
Proof.
  unfold Np.unique. rewrite merge_sort_Permutation. apply NoDup_remove_dups.
Qed.

Lemma elem_of_ravel (es : list (N * N)) x :
  x ∈ Np.ravel es ↔ ∃ e, e ∈ es ∧ (x = e.1 ∨ x = e.2).
Proof.
  unfold Np.ravel. rewrite list_elem_of_bind. split.
  - intros (e & Hx & He). exists e. split; [done|].
    apply elem_of_cons in Hx as [?|Hx]; [by left|].
    apply list_elem_of_singleton in Hx. by right.
  - intros (e & He & Hx). exists e. split; [|done].
    destruct Hx as [-> | ->]; [by left|right; by left].
Qed.

#[local] Instance row_le_trans : Transitive Np.row_le.
Proof. intros x y z. unfold Np.row_le. lia. Qed.

#[local] Instance row_le_total : Total Np.row_le.
Proof. intros x y. unfold Np.row_le. lia. Qed.

(** Looking a key up in rows sorted by key: with distinct keys, the
    position that [searchsorted] gives holds the row of the key. *)
Lemma lookup_sorted_spec (l : list (N * N)) k r :
  StronglySorted Np.row_le l → NoDup l.*1 → (k, r) ∈ l →
  Cutting.lookup_sorted l k = Return r.
Proof.
  unfold Cutting.lookup_sorted, Np.item.
  induction l as [|[k0 r0] l IH]; intros Hs Hnd Hin; [by apply elem_of_nil in Hin|].
  apply StronglySorted_inv in Hs as [Hs Hall].
  simpl in Hnd. apply NoDup_cons in Hnd as [Hk0 Hnd]. simpl.
  destruct (decide (k0 < k)%N) as [Hlt|Hge]; simpl.
  - apply IH; [done|done|]. apply elem_of_cons in Hin as [[= -> ->]|?]; [lia|done].
  - apply elem_of_cons in Hin as [[= -> ->]|Hin]; [done|]. exfalso.
    rewrite Forall_forall in Hall. specialize (Hall _ Hin).
    unfold Np.row_le in Hall. simpl in Hall.
    assert (k = k0) as -> by lia.
    apply Hk0. apply list_elem_of_fmap. by exists (k0, r).
Qed.

Lemma lookup_sort_rows (mapping : list (N * N)) k r :
  NoDup mapping.*1 → (k, r) ∈ mapping →
  Cutting.lookup_sorted (Np.sort_rows mapping) k = Return r.
Proof.
  intros Hnd Hin. apply lookup_sorted_spec.
  - apply StronglySorted_merge_sort; apply _.
  - unfold Np.sort_rows. by rewrite merge_sort_Permutation.
  - unfold Np.sort_rows. by rewrite merge_sort_Permutation.
Qed.

(** [dict] of rows with distinct keys holds exactly the rows. *)
Lemma dict_lookup (rows : list (N * N)) k r :
  NoDup rows.*1 → Cutting.dict rows !! k = Some r ↔ (k, r) ∈ rows.
Proof.
  unfold Cutting.dict. induction rows as [|[k0 r0] rows IH] using rev_ind.
  - intros _. simpl. rewrite lookup_empty. split; [done|by intros ?%elem_of_nil].
  - rewrite fmap_app, foldl_snoc. simpl. intros Hnd.
    apply NoDup_app in Hnd as (Hnd & Hdis & _).
    rewrite elem_of_app, list_elem_of_singleton.
    destruct (decide (k0 = k)) as [->|Hne].
    + rewrite lookup_insert_eq. split.
      * intros [= ->]. by right.
      * intros [Hin|[= ->]]; [|done]. exfalso.
        apply (Hdis k); [|by left]. apply list_elem_of_fmap. by exists (k, r).
    + rewrite lookup_insert_ne by done. rewrite IH by done.
      split; [by left|]. intros [?|[= ? ?]]; [done|congruence].
Qed.

Lemma rep_of_row (mapping : list (N * N)) k r :
  NoDup mapping.*1 → (k, r) ∈ mapping → Spec.rep mapping k = r.
Proof.
  intros Hnd Hin. unfold Spec.rep, Cutting.remap.
  apply (dict_lookup _ _ _ Hnd) in Hin. by rewrite Hin.
Qed.

Lemma rep_unmapped (mapping : list (N * N)) k :
  NoDup mapping.*1 → k ∉ mapping.*1 → Spec.rep mapping k = k.
Proof.
  intros Hnd Hk. unfold Spec.rep, Cutting.remap.
  destruct (Cutting.dict mapping !! k) as [r|] eqn:E; [|done].
  apply dict_lookup in E; [|done]. exfalso. apply Hk.
  apply list_elem_of_fmap. by exists (k, r).
Qed.

(** * Cross chunk coalescing *)

Lemma fmap_fst_pair {A B} (f : A → B) (l : list A) :
  ((λ x, (x, f x)) <$> l).*1 = l.
Proof. induction l; simpl; [done|]. by f_equal. Qed.

(** The loop over the components: what it appends to [mapping] and what
    it records in [remapping]. *)
Lemma merge_components_spec (ccs : list (list N)) rm mp :
  (∀ c, c ∈ ccs → c ≠ []) →
  ∃ rm' mp',
    for_each Cutting.merge_component (rm, mp) ccs = Return (rm', mp') ∧
    mp'.*1 = mp.*1 ++ mjoin ccs ∧
    (∀ k r, (k, r) ∈ mp' ↔
            (k, r) ∈ mp ∨ ∃ c, c ∈ ccs ∧ k ∈ c ∧ Np.min c = Return r) ∧
    (∀ u ns, rm' !! u = Some ns →
             rm !! u = Some ns ∨ (ns ∈ ccs ∧ Np.min ns = Return u)) ∧
    (∀ u, rm' !! u = None →
          rm !! u = None ∧ ∀ c, c ∈ ccs → Np.min c ≠ Return u).
Proof.
  revert rm mp. induction ccs as [|c ccs IH]; intros rm mp Hne.
  { exists rm, mp. simpl. rewrite app_nil_r. split_and!; try done.
    - intros k r. split; [by left|]. by intros [?|(? & ?%elem_of_nil & _)].
    - intros u ns ?. by left.
    - intros u ?. split; [done|]. by intros ? ?%elem_of_nil. }
  destruct (np_min_returns c) as [r Hr]; [apply Hne; by left|].
  destruct (IH (<[r := c]> rm) (mp ++ ((λ n, (n, r)) <$> c)))
    as (rm' & mp' & Hrun & Hkeys & Hrows & Hsome & Hnone).
  { intros c' Hc'. apply Hne. by right. }
  exists rm', mp'. split_and!.
  - assert (Hstep : Cutting.merge_component (rm, mp) c
                    = Return (<[r := c]> rm, mp ++ ((λ n, (n, r)) <$> c))).
    { unfold Cutting.merge_component. cbv beta iota zeta. by rewrite Hr. }
    cbn [for_each]. rewrite Hstep. exact Hrun.
  - by rewrite Hkeys, fmap_app, fmap_fst_pair, <- app_assoc.
  - intros k r'. rewrite Hrows, elem_of_app, list_elem_of_fmap. split.
    + intros [[?|(n & [= -> ->] & Hn)]|(c' & Hc' & ? & ?)].
      * by left.
      * right. exists c. split_and!; [by left|done|done].
      * right. exists c'. split_and!; [by right|done|done].
    + intros [?|(c' & [->|Hc']%elem_of_cons & Hk & Hm)].
      * left. by left.
      * left. right. exists k. split; [|done]. congruence.
      * right. by exists c'.
  - intros u ns Hu. destruct (Hsome u ns Hu) as [Hin|[? ?]].
    + destruct (decide (r = u)) as [->|Hne'].
      * rewrite lookup_insert_eq in Hin. injection Hin as <-.
        right. split; [by left|done].
      * rewrite lookup_insert_ne in Hin by done. by left.
    + right. split; [by right|done].
  - intros u Hu. destruct (Hnone u Hu) as [Hin Hall].
    destruct (decide (r = u)) as [->|Hne'].
    { by rewrite lookup_insert_eq in Hin. }
    rewrite lookup_insert_ne in Hin by done. split; [done|].
    intros c' [->|Hc']%elem_of_cons; [congruence|by apply Hall].
Qed.

Lemma connected_in_nodes G x y :
  Nx.wf G → x ∈ Nx.nodes G → Nx.connected G x y → y ∈ Nx.nodes G.
Proof.
  intros [_ Hwf] Hx Hc. induction Hc as [|x y z Hxy _ IH]; [done|].
  apply IH.
  assert (Hone : ∀ p q, Nx.has_edge G p q → q ∈ Nx.nodes G).
  { intros p q Hpq. unfold Nx.has_edge in Hpq.
    destruct (ekey_cases p q) as [[E _]|[E _]]; rewrite E in Hpq;
      by destruct (Hwf _ _ Hpq) as (_ & ? & ?). }
  destruct Hxy as [Hxy|Hxy]; [by eapply Hone|].
  eapply Hone. by apply has_edge_sym.
Qed.

Section Merge.

Variables (edges : list (N * N)) (affs : list spec_float).

Local Abbreviation cross_graph := (Spec.cross_graph edges affs).

Lemma cross_graph_wf : Nx.wf cross_graph.
Proof. apply wf_add_edges_from, wf_empty. Qed.

Lemma cross_graph_nodes n :
  n ∈ Nx.nodes cross_graph ↔ Spec.cross_node edges affs n.
Proof.
  unfold Spec.cross_graph, Spec.cross_node.
  rewrite elem_of_nodes_add_edges_from. simpl. split; [|by right].
  by intros [?%elem_of_nil|?].
Qed.

Lemma cross_graph_connected u v :
  Nx.connected cross_graph u v ↔ Spec.cross_connected edges affs u v.
Proof.
  unfold Nx.connected, Spec.cross_connected, Spec.cross_graph.
  split; apply rtc_subrel; intros x y; unfold sc;
    rewrite !has_edge_add_edges_from.
  - intros [[[? He]|?]|[[? He]|?]]; try tauto;
      simpl in He; by rewrite lookup_empty in He.
  - tauto.
Qed.

Lemma cross_nodes_in_edges n :
  Spec.cross_node edges affs n → n ∈ Np.ravel edges.
Proof.
  unfold Spec.cross_node, Spec.cross_edges. rewrite !elem_of_ravel.
  intros (e & He & Hn). exists e. split; [|done].
  apply list_elem_of_fmap in He as ([e' a] & -> & He).
  apply list_elem_of_filter in He as [_ He]. simpl.
  by apply elem_of_zip_l in He.
Qed.

Lemma cross_components_nonempty c :
  c ∈ Nx.connected_components cross_graph → c ≠ [].
Proof.
  intros Hc. destruct (connected_components_spec _ cross_graph_wf) as (Ha & _).
  destruct (Ha c Hc) as (v & Hv & ->). intros Hnil.
  assert (Hvv : v ∈ Nx.plain_bfs cross_graph v).
  { apply elem_of_plain_bfs; [apply cross_graph_wf|]. by split. }
  rewrite Hnil in Hvv. by apply elem_of_nil in Hvv.
Qed.

Lemma elem_of_cross_components n :
  n ∈ mjoin (Nx.connected_components cross_graph)
  ↔ Spec.cross_node edges affs n.
Proof.
  rewrite <- cross_graph_nodes.
  destruct (connected_components_spec _ cross_graph_wf) as (Ha & Hb & _).
  rewrite list_elem_of_join. split.
  - intros (c & Hn & Hc). destruct (Ha c Hc) as (v & Hv & ->).
    apply elem_of_plain_bfs in Hn as [? _]; [done|apply cross_graph_wf].
  - intros Hn. destruct (Hb n Hn) as (c & ? & ?). by exists c.
Qed.

(** What [merge_cross_chunk_edges] returns, in full. *)
Lemma merge_cross_chunk_edges_structure :
  length edges = length affs →
  ∃ remapped_edges remapped_affs mapping remapping,
    Cutting.merge_cross_chunk_edges edges affs
    = Return (remapped_edges, remapped_affs, mapping, remapping) ∧
    NoDup mapping.*1 ∧
    (∀ n, n ∈ mapping.*1 ↔ n ∈ Np.ravel edges) ∧
    (∀ k r, (k, r) ∈ mapping →
       (∃ c, c ∈ Nx.connected_components cross_graph ∧ k ∈ c ∧
             Np.min c = Return r)
       ∨ (¬ Spec.cross_node edges affs k ∧ r = k)) ∧
    (∀ c k r, c ∈ Nx.connected_components cross_graph → k ∈ c →
       Np.min c = Return r → (k, r) ∈ mapping) ∧
    (∀ u ns, remapping !! u = Some ns →
       ns ∈ Nx.connected_components cross_graph ∧ Np.min ns = Return u) ∧
    (∀ u, remapping !! u = None →
       ∀ c, c ∈ Nx.connected_components cross_graph → Np.min c ≠ Return u) ∧
    remapped_edges
    = (λ ea, (Spec.rep mapping (ea.1).1, Spec.rep mapping (ea.1).2))
      <$> Spec.weighted edges affs ∧
    remapped_affs = (Spec.weighted edges affs).*2.
Proof.
  intros Hlen. unfold Cutting.merge_cross_chunk_edges.
  rewrite (mask_select_fmap_l Np.isinf edges affs Hlen). simpl.
  fold (Spec.cross_edges edges affs). fold (Spec.cross_graph edges affs).
  set (ccs := Nx.connected_components cross_graph).
  destruct (merge_components_spec ccs ∅ [] cross_components_nonempty)
    as (rm & mp & Hrun & Hkeys & Hrows & Hsome & Hnone).
  rewrite Hrun. simpl in Hkeys. simpl.
  assert (Hravel : ∀ x, x ∈ Np.ravel mp ↔ x ∈ mjoin ccs).
  { intros x. rewrite elem_of_ravel, list_elem_of_join. split.
    - intros ([k r] & Hin & Hx). apply Hrows in Hin as [?%elem_of_nil|Hin]; [done|].
      destruct Hin as (c & Hc & Hk & Hm). exists c. split; [|done].
      simpl in Hx. destruct Hx as [-> | ->]; [done|].
      by apply np_min_spec in Hm as [? _].
    - intros (c & Hx & Hc).
      destruct (np_min_returns c) as [r Hr]; [by apply cross_components_nonempty|].
      exists (x, r). split; [|by left]. apply Hrows. right. by exists c. }
  unfold Np.in1d. rewrite <- !list_fmap_compose.
  rewrite (mask_select_self (negb ∘ (λ x, bool_decide (x ∈ Np.ravel mp)))). simpl.
  set (unmapped := filter _ (Np.unique (Np.ravel edges))).
  assert (Hunm : ∀ x, x ∈ unmapped ↔ x ∈ Np.ravel edges ∧ x ∉ mjoin ccs).
  { intros x. unfold unmapped. rewrite list_elem_of_filter, elem_of_unique.
    simpl. rewrite negb_true_iff, bool_decide_eq_false, Hravel. tauto. }
  set (mapping := mp ++ ((λ n, (n, n)) <$> unmapped)).
  assert (Hmkeys : mapping.*1 = mjoin ccs ++ unmapped).
  { unfold mapping. by rewrite fmap_app, Hkeys, (fmap_fst_pair id). }
  assert (Hnd : NoDup mapping.*1).
  { rewrite Hmkeys. apply NoDup_app. split_and!.
    - by destruct (connected_components_spec _ cross_graph_wf) as (_ & _ & ?).
    - intros x Hx Hx'. apply Hunm in Hx' as [_ ?]. done.
    - unfold unmapped. apply NoDup_filter, NoDup_unique. }
  assert (Hcover : ∀ n, n ∈ mapping.*1 ↔ n ∈ Np.ravel edges).
  { intros n. rewrite Hmkeys, elem_of_app, Hunm. split.
    - intros [Hn|[? _]]; [|done].
      by apply cross_nodes_in_edges, elem_of_cross_components.
    - intros Hn. destruct (decide (n ∈ mjoin ccs)); [by left|by right]. }
  assert (Hlook : ∀ n, n ∈ Np.ravel edges →
    Cutting.lookup_sorted (Np.sort_rows mapping) n = Return (Spec.rep mapping n)).
  { intros n Hn. apply Hcover in Hn.
    apply list_elem_of_fmap in Hn as ([k r] & -> & Hin). simpl.
    rewrite (rep_of_row mapping k r Hnd Hin). by apply lookup_sort_rows. }
  rewrite (map_each_ext _
    (λ e, (Spec.rep mapping e.1, Spec.rep mapping e.2))).
  2:{ intros e He. rewrite !Hlook; [done| |];
        apply elem_of_ravel; exists e; auto. }
  cbn [mbind outcome_bind].
  rewrite (mask_select_map _ _ _ _
             (mask_select_fmap_l (negb ∘ Np.isinf) edges affs Hlen)).
  simpl.
  rewrite (mask_select_fmap_r (negb ∘ Np.isinf) edges affs Hlen). simpl.
  assert (Hw : filter (λ p : N * N * spec_float, (negb ∘ Np.isinf) p.2 = true)
                      (zip edges affs) = Spec.weighted edges affs).
  { unfold Spec.weighted. apply list_filter_iff. intros [e a]. simpl.
    by rewrite negb_true_iff. }
  eexists _, _, mapping, rm. split; [reflexivity|].
  split_and!; try done.
  - intros k r [Hin|Hin]%elem_of_app.
    + apply Hrows in Hin as [?%elem_of_nil|?]; [done|by left].
    + apply list_elem_of_fmap in Hin as (n & [= -> ->] & Hn). right.
      apply Hunm in Hn as [_ Hn]. split; [|done].
      by rewrite <- elem_of_cross_components.
  - intros c k r Hc Hk Hm. apply elem_of_app. left. apply Hrows. right.
    by exists c.
  - intros u ns Hu. destruct (Hsome u ns Hu) as [Hin|?]; [|done].
    by rewrite lookup_empty in Hin.
  - intros u Hu. by destruct (Hnone u Hu).
  - change (filter _ (zip edges affs))
      with (filter (λ p : N * N * spec_float, (negb ∘ Np.isinf) p.2 = true)
                   (zip edges affs)).
    by rewrite Hw, <- list_fmap_compose.
  - change (filter _ (zip edges affs))
      with (filter (λ p : N * N * spec_float, (negb ∘ Np.isinf) p.2 = true)
                   (zip edges affs)).
    by rewrite Hw.
Qed.

End Merge.

Lemma mask_select_length {A} (a : list A) (m : list bool) r :
  Np.mask_select a m = Return r → length a = length m.
Proof.
  revert m r. induction a as [|x a IH]; intros [|b m] r; simpl; try done.
  destruct (Np.mask_select a m) as [r'|] eqn:E; simpl; [|done].
  intros _. f_equal. by eapply IH.
Qed.

Lemma merge_cross_chunk_edges_length edges affs r :
  Cutting.merge_cross_chunk_edges edges affs = Return r →
  length edges = length affs.
Proof.
  unfold Cutting.merge_cross_chunk_edges. intros Hr.
  destruct (Np.mask_select edges (Np.isinf <$> affs)) as [c|] eqn:E; [|done].
  apply mask_select_length in E. by rewrite length_fmap in E.
Qed.

(** C1: [merge_cross_chunk_edges] splits the edges into cross chunk edges
    (infinite affinity) and weighted edges; every node of a cross chunk
    component is mapped to the least node connected to it by cross chunk
    edges; every other node of the input is mapped to itself; and the
    weighted edges come back with both ends replaced by their
    representatives, next to their unchanged affinities. *)
Theorem merge_cross_chunk_edges_coalesces edges affs :
  length edges = length affs →
  ∃ remapped_edges remapped_affs mapping remapping,
    Cutting.merge_cross_chunk_edges edges affs
    = Return (remapped_edges, remapped_affs, mapping, remapping) ∧
    (∀ n, Spec.cross_node edges affs n →
          (n, Spec.rep mapping n) ∈ mapping ∧
          Spec.cross_connected edges affs n (Spec.rep mapping n) ∧
          ∀ m, Spec.cross_connected edges affs n m →
               (Spec.rep mapping n ≤ m)%N) ∧
    (∀ n, n ∈ Np.ravel edges → ¬ Spec.cross_node edges affs n →
          (n, n) ∈ mapping ∧ Spec.rep mapping n = n) ∧
    remapped_edges
    = (λ ea, (Spec.rep mapping (ea.1).1, Spec.rep mapping (ea.1).2))
      <$> Spec.weighted edges affs ∧
    remapped_affs = (Spec.weighted edges affs).*2.
Proof.
  intros Hlen.
  destruct (merge_cross_chunk_edges_structure edges affs Hlen)
    as (re & ra & mapping & rm & Hrun & Hnd & Hcover & Hrows & _ & _ & _ & Hre & Hra).
  exists re, ra, mapping, rm. split_and!; try done.
  - intros n Hn.
    assert (Hk : n ∈ mapping.*1) by by eapply Hcover, cross_nodes_in_edges.
    apply list_elem_of_fmap in Hk as ([k r] & -> & Hin). simpl in *.
    rewrite (rep_of_row mapping k r Hnd Hin).
    destruct (Hrows k r Hin) as [(c & Hc & Hkc & Hmin)|[Hno _]]; [|done].
    apply np_min_spec in Hmin as [Hrc Hle].
    pose proof (cross_graph_wf edges affs) as Hwf.
    split_and!; [done| |].
    + apply cross_graph_connected.
      by apply (component_members _ c k r Hwf Hc Hkc).
    + intros m Hm%cross_graph_connected. apply Hle.
      apply (component_members _ c k m Hwf Hc Hkc). split; [|done].
      eapply connected_in_nodes; [done| |done]. by apply cross_graph_nodes.
  - intros n Hn Hcross. apply Hcover in Hn.
    apply list_elem_of_fmap in Hn as ([k r] & -> & Hin). simpl in *.
    rewrite (rep_of_row mapping k r Hnd Hin).
    destruct (Hrows k r Hin) as [(c & Hc & Hkc & _)|[_ ->]]; [|done].
    exfalso. apply Hcross, elem_of_cross_components, list_elem_of_join.
    by exists c.
Qed.

Lemma count_NoDup (l : list N) x :
  NoDup l → x ∈ l → length (filter (λ y, y = x) l) = 1.
Proof.
  induction 1 as [|y l Hy Hnd IH]; [by intros ?%elem_of_nil|].
  rewrite filter_cons. intros Hx. case_decide as Hyx.
  - subst y. simpl. f_equal.
    destruct (filter (λ y, y = x) l) as [|z ?] eqn:E; [done|]. exfalso.
    assert (Hz : z ∈ filter (λ y, y = x) l) by (rewrite E; by left).
    apply list_elem_of_filter in Hz as [-> ?]. done.
  - apply IH. apply elem_of_cons in Hx as [->|?]; done.
Qed.

Lemma assert_unique_keys_passes (mapping : list (N * N)) :
  NoDup mapping.*1 → mapping ≠ [] → Cutting.assert_unique_keys mapping = Return ().
Proof.
  intros Hnd Hne. unfold Cutting.assert_unique_keys.
  set (keys := mapping.*1).
  set (counts := (λ k, length (filter (λ x, x = k) keys)) <$> Np.unique keys).
  assert (Hall : ∀ c, c ∈ counts → c = 1).
  { intros c (k & -> & Hk)%list_elem_of_fmap.
    apply count_NoDup; [done|]. by apply elem_of_unique. }
  assert (Hcne : counts ≠ []).
  { destruct mapping as [|[k r] mapping]; [done|].
    assert (Hk : k ∈ Np.unique keys) by (apply elem_of_unique; by left).
    intros Hnil. apply (list_elem_of_fmap_2
      (λ k, length (filter (λ x, x = k) keys))) in Hk.
    fold counts in Hk. rewrite Hnil in Hk. by apply elem_of_nil in Hk. }
  destruct counts as [|c counts'] eqn:E; [done|].
  rewrite decide_True; [done|].
  rewrite <- E in *. clear E.
  assert (Hmax : max_list counts ∈ counts) by by apply max_list_elem_of.
  by apply Hall.
Qed.

Lemma merge_mapping_unique edges affs remapped_edges remapped_affs
    mapping remapping :
  Cutting.merge_cross_chunk_edges edges affs
  = Return (remapped_edges, remapped_affs, mapping, remapping) →
  NoDup mapping.*1 ∧
  (∀ n, n ∈ Np.ravel edges → length (filter (λ k, k = n) mapping.*1) = 1) ∧
  (remapped_edges ≠ [] → Cutting.assert_unique_keys mapping = Return ()).
Proof.
  intros Hrun.
  pose proof (merge_cross_chunk_edges_length _ _ _ Hrun) as Hlen.
  destruct (merge_cross_chunk_edges_structure edges affs Hlen)
    as (re & ra & mp & rm & Hrun' & Hnd & Hcover & _ & _ & _ & _ & Hre & _).
  rewrite Hrun in Hrun'. injection Hrun' as -> -> -> ->.
  split_and!; [done| |].
  - intros n Hn. apply count_NoDup; [done|]. by apply Hcover.
  - intros Hne. apply assert_unique_keys_passes; [done|].
    intros ->. apply Hne. rewrite Hre.
    destruct (Spec.weighted edges affs) as [|[[u v] a] w] eqn:E; [done|].
    exfalso.
    assert (Hin : (u, v, a) ∈ Spec.weighted edges affs) by (rewrite E; by left).
    apply list_elem_of_filter in Hin as [_ Hin]. apply elem_of_zip_l in Hin.
    assert (Hu : u ∈ Np.ravel edges).
    { apply elem_of_ravel. exists (u, v). split; [done|by left]. }
    apply Hcover in Hu. by apply elem_of_nil in Hu.
Qed.

(** C5: the rows of [mapping] have pairwise distinct first entries, every
    node of the input has exactly one row, and the assertion of [mincut]
    on the multiplicities holds whenever it is reached (that is, when
    some weighted edge remains). *)
Theorem mapping_is_function edges affs remapped_edges remapped_affs
    mapping remapping :
  Cutting.merge_cross_chunk_edges edges affs
  = Return (remapped_edges, remapped_affs, mapping, remapping) →
  NoDup mapping.*1 ∧
  (∀ n, n ∈ Np.ravel edges → length (filter (λ k, k = n) mapping.*1) = 1) ∧
  (remapped_edges ≠ [] → Cutting.assert_unique_keys mapping = Return ()).
Proof. apply merge_mapping_unique. Qed.

(** * The connectivity check *)

Lemma any_in1d (a b : list N) :
  Np.any (Np.in1d a b) = true ↔ ∃ x, x ∈ a ∧ x ∈ b.
Proof.
  unfold Np.any, Np.in1d. induction a as [|y a IH]; simpl.
  - split; [done|]. by intros (? & ?%elem_of_nil & _).
  - rewrite orb_true_iff, IH, bool_decide_eq_true.
    split.
    + intros [?|(x & ? & ?)]; [exists y|exists x]; split; try done;
        [by left|by right].
    + intros (x & [->|?]%elem_of_cons & ?); [by left|right; by exists x].
Qed.

Lemma any_not_in1d (a b : list N) :
  Np.any (negb <$> Np.in1d a b) = true ↔ ∃ x, x ∈ a ∧ x ∉ b.
Proof.
  unfold Np.any, Np.in1d. induction a as [|y a IH]; simpl.
  - split; [done|]. by intros (? & ?%elem_of_nil & _).
  - rewrite orb_true_iff, IH.
    rewrite negb_true_iff, bool_decide_eq_false. split.
    + intros [?|(x & ? & ?)]; [exists y|exists x]; split; try done;
        [by left|by right].
    + intros (x & [->|?]%elem_of_cons & ?); [by left|right; by exists x].
Qed.

(** A component that holds a terminal and misses a terminal ends the
    check, whatever the components before it. *)
Lemma check_components_disconnected G ccs sources sinks cc :
  cc ∈ ccs →
  (∃ x, (x ∈ sources ∨ x ∈ sinks) ∧ x ∈ cc) →
  (∃ x, (x ∈ sources ∨ x ∈ sinks) ∧ x ∉ cc) →
  Cutting.check_components G ccs sources sinks = None.
Proof.
  intros Hcc (x & Hx & Hxc) (y & Hy & Hyc). revert G.
  induction ccs as [|c ccs IH]; intros G; [by apply elem_of_nil in Hcc|].
  cbn [Cutting.check_components].
  destruct (negb _) eqn:E1.
  - apply elem_of_cons in Hcc as [->|Hcc]; [|by apply IH].
    exfalso. apply negb_true_iff, orb_false_iff in E1 as [E1 E2].
    destruct Hx as [Hx|Hx].
    + assert (Np.any (Np.in1d sources c) = true) as Ht
        by (apply any_in1d; by exists x). congruence.
    + assert (Np.any (Np.in1d sinks c) = true) as Ht
        by (apply any_in1d; by exists x). congruence.
  - destruct (Np.any (negb <$> Np.in1d sources c)
              || Np.any (negb <$> Np.in1d sinks c)) eqn:E2; [reflexivity|].
    apply elem_of_cons in Hcc as [->|Hcc]; [|by apply IH].
    exfalso. apply orb_false_iff in E2 as [E2 E3].
    destruct Hy as [Hy|Hy].
    + assert (Np.any (negb <$> Np.in1d sources c) = true) as Ht
        by (apply any_not_in1d; by exists y). congruence.
    + assert (Np.any (negb <$> Np.in1d sinks c) = true) as Ht
        by (apply any_not_in1d; by exists y). congruence.
Qed.

(** C2: when a connected component of the working graph holds a source or
    a sink and misses a source or a sink, [mincut] reports that sources
    and sinks are in different connected components and returns no edge,
    whatever the minimum cut routine; so it does for [edges = [(1,2)]],
    [affs = [1.0]], [sources = [1]], [sinks = [99]]. *)
Theorem mincut_disconnected minimum_edge_cut edges affs sources sinks
    remapped_edges remapped_affs mapping remapping weighted_graph cc :
  Cutting.merge_cross_chunk_edges edges affs
  = Return (remapped_edges, remapped_affs, mapping, remapping) →
  remapped_edges ≠ [] →
  Cutting.build_weighted_graph remapped_edges remapped_affs
    (Spec.rep mapping <$> sources) (Spec.rep mapping <$> sinks)
  = Return weighted_graph →
  cc ∈ Nx.connected_components weighted_graph →
  (∃ x, (x ∈ Spec.rep mapping <$> sources ∨ x ∈ Spec.rep mapping <$> sinks)
        ∧ x ∈ cc) →
  (∃ x, (x ∈ Spec.rep mapping <$> sources ∨ x ∈ Spec.rep mapping <$> sinks)
        ∧ x ∉ cc) →
  Cutting.mincut minimum_edge_cut edges affs sources sinks
  = ([Cutting.disconnected_message], Return []).
Proof.
  intros Hmerge Hne Hbuild Hcc Hin Hout. unfold Cutting.mincut.
  rewrite Hmerge.
  rewrite decide_False by (by destruct remapped_edges).
  destruct (merge_mapping_unique _ _ _ _ _ _ Hmerge) as (_ & _ & Hassert).
  rewrite (Hassert Hne).
  change (Cutting.remap (Cutting.dict mapping)) with (Spec.rep mapping).
  rewrite Hbuild.
  by rewrite (check_components_disconnected _ _ _ _ cc Hcc Hin Hout).
Qed.

(** * The working graph *)

Lemma for_each_app {A S} (body : S → A → outcome S) (s : S) (l k : list A) :
  for_each body s (l ++ k) = (s' ← for_each body s l; for_each body s' k).
Proof.
  revert s. induction l as [|x l IH]; intros s; simpl; [done|].
  destruct (body s x) as [s'|]; simpl; [apply IH|done].
Qed.

Lemma ekey_comm u v : Nx.ekey u v = Nx.ekey v u.
Proof. unfold Nx.ekey. by rewrite N.min_comm, N.max_comm. Qed.

Lemma set_capacity_inv G u v c G' :
  Nx.set_capacity G u v c = Return G' →
  Nx.nodes G' = Nx.nodes G ∧
  Nx.adj G' = <[Nx.ekey u v := Some c]> (Nx.adj G).
Proof.
  unfold Nx.set_capacity. destruct (Nx.adj G !! Nx.ekey u v); [|done].
  by intros [= <-].
Qed.

(** A loop that gives one capacity to a list of pairs. *)
Lemma set_capacities_spec (c : spec_float) (l : list (N * N)) G G' :
  for_each (λ G p, Nx.set_capacity G p.1 p.2 c) G l = Return G' →
  Nx.nodes G' = Nx.nodes G ∧
  ∀ k, Nx.adj G' !! k
       = if decide (k ∈ (λ p, Nx.ekey p.1 p.2) <$> l) then Some (Some c)
         else Nx.adj G !! k.
Proof.
  revert G. induction l as [|p l IH]; intros G; rewrite ?fmap_cons;
    cbn [for_each].
  - intros [= <-]. split; [done|]. intros k.
    rewrite decide_False; [done|]. by intros ?%elem_of_nil.
  - destruct (Nx.set_capacity G p.1 p.2 c) as [G1|] eqn:E;
      cbn [mbind outcome_bind]; [|done].
    intros Hrun. destruct (IH G1 Hrun) as [Hn Ha].
    apply set_capacity_inv in E as [Hn1 Ha1].
    split; [congruence|]. intros k. rewrite Ha, Ha1.
    destruct (decide (k ∈ (λ p, Nx.ekey p.1 p.2) <$> l)) as [Hk|Hk].
    + rewrite decide_True; [done|]. by right.
    + destruct (decide (k = Nx.ekey p.1 p.2)) as [->|Hne].
      * rewrite lookup_insert_eq, decide_True; [done|]. by left.
      * rewrite lookup_insert_ne by done. rewrite decide_False; [done|].
        by intros [?|?]%elem_of_cons.
Qed.

(** The loop that gives each weighted edge its affinity: the edge keeps it
    unless a later edge joins the same two nodes. *)
Lemma set_affinities_spec (affs : list spec_float) (edges : list (N * N)) G G' :
  for_each (λ G (ie : nat * (N * N)),
              a ← Np.item affs ie.1;
              G ← Nx.set_capacity G (ie.2).1 (ie.2).2 a;
              Nx.set_capacity G (ie.2).2 (ie.2).1 a)
           G (imap (λ i e, (i, e)) edges) = Return G' →
  Nx.nodes G' = Nx.nodes G ∧
  ∀ i u v a,
    edges !! i = Some (u, v) → affs !! i = Some a →
    (∀ j e, i < j → edges !! j = Some e → Nx.ekey e.1 e.2 ≠ Nx.ekey u v) →
    Nx.adj G' !! Nx.ekey u v = Some (Some a).
Proof.
  revert G'. induction edges as [|[x y] edges IH] using rev_ind; intros G'.
  - simpl. intros [= <-]. split; [done|]. by intros i u v a ?.
  - rewrite imap_app, for_each_app. simpl.
    destruct (for_each _ G (imap _ edges)) as [G1|] eqn:E1; simpl; [|done].
    destruct (IH G1 eq_refl) as [Hn1 Ha1].
    rewrite Nat.add_0_r. unfold Np.item.
    destruct (affs !! length edges) as [b|] eqn:Eb; simpl; [|done].
    destruct (Nx.set_capacity G1 x y b) as [G2|] eqn:E2; simpl; [|done].
    destruct (Nx.set_capacity G2 y x b) as [G3|] eqn:E3; simpl; [|done].
    intros [= <-].
    apply set_capacity_inv in E2 as [Hn2 Ha2].
    apply set_capacity_inv in E3 as [Hn3 Ha3].
    split; [congruence|]. intros i u v a Hi Ha Hlater.
    rewrite Ha3, Ha2, (ekey_comm y x), insert_insert_eq.
    destruct (decide (i = length edges)) as [->|Hne].
    + rewrite list_lookup_middle in Hi by done. injection Hi as -> ->.
      rewrite lookup_insert_eq. congruence.
    + assert (Hlt : i < length edges).
      { apply lookup_lt_Some in Hi. rewrite length_app in Hi. simpl in Hi. lia. }
      rewrite lookup_app_l in Hi by done.
      rewrite lookup_insert_ne.
      * apply (Ha1 i u v a Hi Ha). intros j e Hj He.
        apply (Hlater j e Hj). rewrite lookup_app_l; [done|].
        by apply lookup_lt_Some in He.
      * apply (Hlater (length edges) (x, y) Hlt).
        by rewrite list_lookup_middle.
Qed.

Lemma elem_of_product {A B} (a : list A) (b : list B) x y :
  (x, y) ∈ Np.product a b ↔ x ∈ a ∧ y ∈ b.
Proof.
  unfold Np.product. rewrite list_elem_of_bind. split.
  - intros (x' & Hin & Hx). apply list_elem_of_bind in Hin as (y' & Hin & Hy).
    apply list_elem_of_singleton in Hin as [= -> ->]. done.
  - intros [Hx Hy]. exists x. split; [|done].
    apply list_elem_of_bind. exists y. split; [by left|done].
Qed.

Lemma ekey_eq u v x y :
  Nx.ekey u v = Nx.ekey x y ↔ (u = x ∧ v = y) ∨ (u = y ∧ v = x).
Proof.
  split.
  - destruct (ekey_cases u v) as [[-> ?]|[-> ?]],
             (ekey_cases x y) as [[-> ?]|[-> ?]]; intros [= -> ->]; auto.
  - intros [[-> ->]|[-> ->]]; [done|apply ekey_comm].
Qed.

Lemma ekey_in_product (l : list N) u v :
  Nx.ekey u v ∈ (λ p, Nx.ekey p.1 p.2) <$> Np.product l l ↔ u ∈ l ∧ v ∈ l.
Proof.
  rewrite list_elem_of_fmap. split.
  - intros ([x y] & Hk & [Hx Hy]%elem_of_product). simpl in Hk.
    apply ekey_eq in Hk as [[-> ->]|[-> ->]]; done.
  - intros [Hu Hv]. exists (u, v). split; [done|]. by apply elem_of_product.
Qed.

(** The three loops of [build_weighted_graph], taken apart. *)
Lemma build_weighted_graph_inv edges affs sources sinks G :
  Cutting.build_weighted_graph edges affs sources sinks = Return G →
  ∃ G1 G2,
    let G0 := Nx.add_edges_from
                (Nx.add_edges_from (Nx.add_edges_from Nx.empty edges)
                                   (Np.product sinks sinks))
                (Np.product sources sources) in
    for_each (λ G (ie : nat * (N * N)),
                a ← Np.item affs ie.1;
                G ← Nx.set_capacity G (ie.2).1 (ie.2).2 a;
                Nx.set_capacity G (ie.2).2 (ie.2).1 a)
             G0 (imap (λ i e, (i, e)) edges) = Return G1 ∧
    for_each (λ G p, Nx.set_capacity G p.1 p.2 Cutting.float_max)
             G1 (Np.product sinks sinks) = Return G2 ∧
    for_each (λ G p, Nx.set_capacity G p.1 p.2 Cutting.float_max)
             G2 (Np.product sources sources) = Return G.
Proof.
  unfold Cutting.build_weighted_graph. cbv zeta.
  destruct (for_each _ _ (imap _ edges)) as [G1|] eqn:E1; simpl; [|done].
  destruct (for_each _ G1 _) as [G2|] eqn:E2; simpl; [|done].
  intros E3. by exists G1, G2.
Qed.

Lemma working_graph_capacities_holds edges affs sources sinks G :
  Cutting.build_weighted_graph edges affs sources sinks = Return G →
  (∀ s1 s2, s1 ∈ sources → s2 ∈ sources →
            Nx.capacity G s1 s2 = Some Cutting.float_max) ∧
  (∀ t1 t2, t1 ∈ sinks → t2 ∈ sinks →
            Nx.capacity G t1 t2 = Some Cutting.float_max) ∧
  (∀ i u v a,
     edges !! i = Some (u, v) → affs !! i = Some a →
     (∀ j e, i < j → edges !! j = Some e → Nx.ekey e.1 e.2 ≠ Nx.ekey u v) →
     ¬ (u ∈ sources ∧ v ∈ sources) → ¬ (u ∈ sinks ∧ v ∈ sinks) →
     Nx.capacity G u v = Some a).
Proof.
  intros (G1 & G2 & E1 & E2 & E3)%build_weighted_graph_inv.
  apply set_affinities_spec in E1 as [_ H1].
  apply set_capacities_spec in E2 as [_ H2].
  apply set_capacities_spec in E3 as [_ H3].
  unfold Nx.capacity. split_and!.
  - intros s1 s2 Hs1 Hs2. rewrite H3, decide_True; [done|].
    by apply ekey_in_product.
  - intros t1 t2 Ht1 Ht2. rewrite H3. case_decide; [done|].
    rewrite H2, decide_True; [done|]. by apply ekey_in_product.
  - intros i u v a Hi Ha Hlater Hsrc Hsnk.
    rewrite H3, decide_False by (by rewrite ekey_in_product).
    rewrite H2, decide_False by (by rewrite ekey_in_product).
    by rewrite (H1 i u v a Hi Ha Hlater).
Qed.

(** C4, as the code has it: between every two (remapped) sources and
    between every two (remapped) sinks the working graph carries the
    capacity [float_max], the largest finite float32 (not an infinity);
    and a weighted edge carries its affinity as capacity when no later
    weighted edge joins the same two representatives and its ends are
    neither two sources nor two sinks. *)
Theorem working_graph_capacities edges affs sources sinks G :
  Cutting.build_weighted_graph edges affs sources sinks = Return G →
  (∀ s1 s2, s1 ∈ sources → s2 ∈ sources →
            Nx.capacity G s1 s2 = Some Cutting.float_max) ∧
  (∀ t1 t2, t1 ∈ sinks → t2 ∈ sinks →
            Nx.capacity G t1 t2 = Some Cutting.float_max) ∧
  (∀ i u v a,
     edges !! i = Some (u, v) → affs !! i = Some a →
     (∀ j e, i < j → edges !! j = Some e → Nx.ekey e.1 e.2 ≠ Nx.ekey u v) →
     ¬ (u ∈ sources ∧ v ∈ sources) → ¬ (u ∈ sinks ∧ v ∈ sinks) →
     Nx.capacity G u v = Some a).
Proof. apply working_graph_capacities_holds. Qed.

(** The statement of C4 fails in each of the three places that the
    amended statement changes.
    - The capacity between terminals is not infinite: with the edge
      (1,2) of affinity 1.0, source 1 and sink 2, the edge from the
      source to itself has the finite capacity [float_max].
    - A weighted edge that a later weighted edge repeats does not keep
      its affinity: with the edges (1,2) of affinity 1.0 and (2,1) of
      affinity 5.0, the capacity between 1 and 2 is 5.0.
    - A weighted edge between two sinks does not keep its affinity: with
      the edge (1,2) of affinity 1.0 and the sinks 1 and 2, the capacity
      between 1 and 2 is [float_max]. *)
Lemma working_graph_capacity_not_infinite :
  ¬ (∀ edges affs sources sinks G,
       Cutting.build_weighted_graph edges affs sources sinks = Return G →
       (∀ s1 s2, s1 ∈ sources → s2 ∈ sources →
                 Nx.capacity G s1 s2 = Some (S754_infinity false)) ∧
       (∀ t1 t2, t1 ∈ sinks → t2 ∈ sinks →
                 Nx.capacity G t1 t2 = Some (S754_infinity false))) ∧
  ¬ (∀ edges affs sources sinks G,
       Cutting.build_weighted_graph edges affs sources sinks = Return G →
       ∀ i u v a,
         edges !! i = Some (u, v) → affs !! i = Some a →
         ¬ (u ∈ sources ∧ v ∈ sources) → ¬ (u ∈ sinks ∧ v ∈ sinks) →
         Nx.capacity G u v = Some a) ∧
  ¬ (∀ edges affs sources sinks G,
       Cutting.build_weighted_graph edges affs sources sinks = Return G →
       ∀ i u v a,
         edges !! i = Some (u, v) → affs !! i = Some a →
         (∀ j e, i < j → edges !! j = Some e →
                 Nx.ekey e.1 e.2 ≠ Nx.ekey u v) →
         Nx.capacity G u v = Some a).
Proof.
  split_and!.
  - intros Hclaim.
    destruct (Cutting.build_weighted_graph
                [(1, 2)%N] [Scenario.one] [1%N] [2%N])
      as [G|e] eqn:E; [|by vm_compute in E].
    destruct (Hclaim _ _ _ _ G E) as (Hinf & _).
    destruct (working_graph_capacities_holds _ _ _ _ G E) as (Hmax & _).
    specialize (Hinf 1%N 1%N). specialize (Hmax 1%N 1%N).
    rewrite Hmax in Hinf by (by left).
    by specialize (Hinf ltac:(by left) ltac:(by left)).
  - intros Hclaim.
    destruct (Cutting.build_weighted_graph
                [(1, 2)%N; (2, 1)%N] [Scenario.one; Scenario.five] [1%N] [2%N])
      as [G|e] eqn:E; [|by vm_compute in E].
    assert (Hcap : Nx.capacity G 1 2 = Some Scenario.one).
    { apply (Hclaim _ _ _ _ G E 0 1%N 2%N); [done|done|..].
      - intros [_ H2]. by apply list_elem_of_singleton in H2.
      - intros [H1 _]. by apply list_elem_of_singleton in H1. }
    vm_compute in E. injection E as <-. vm_compute in Hcap. discriminate Hcap.
  - intros Hclaim.
    destruct (Cutting.build_weighted_graph
                [(1, 2)%N] [Scenario.one] [] [1%N; 2%N])
      as [G|e] eqn:E; [|by vm_compute in E].
    assert (Hcap : Nx.capacity G 1 2 = Some Scenario.one).
    { apply (Hclaim _ _ _ _ G E 0 1%N 2%N); [done|done|].
      intros [|j] e Hj He; [lia|done]. }
    vm_compute in E. injection E as <-. vm_compute in Hcap. discriminate Hcap.
Qed.

(** * Taking the cut back to the input edges *)

Section Uncoalesce.

Variables (edges : list (N * N)) (affs : list spec_float).
Variables (remapped_edges : list (N * N)) (remapped_affs : list spec_float).
Variables (mapping : list (N * N)) (remapping : gmap N (list N)).

Hypothesis Hmerge :
  Cutting.merge_cross_chunk_edges edges affs
  = Return (remapped_edges, remapped_affs, mapping, remapping).

Local Abbreviation rep := (Spec.rep mapping).
Local Abbreviation ccs :=
  (Nx.connected_components (Spec.cross_graph edges affs)).

Lemma merge_facts :
  NoDup mapping.*1 ∧
  (∀ n, n ∈ mapping.*1 ↔ n ∈ Np.ravel edges) ∧
  (∀ k r, (k, r) ∈ mapping →
     (∃ c, c ∈ ccs ∧ k ∈ c ∧ Np.min c = Return r)
     ∨ (¬ Spec.cross_node edges affs k ∧ r = k)) ∧
  (∀ c k r, c ∈ ccs → k ∈ c → Np.min c = Return r → (k, r) ∈ mapping) ∧
  (∀ u ns, remapping !! u = Some ns → ns ∈ ccs ∧ Np.min ns = Return u) ∧
  (∀ u, remapping !! u = None → ∀ c, c ∈ ccs → Np.min c ≠ Return u) ∧
  remapped_edges
  = (λ ea, (rep (ea.1).1, rep (ea.1).2)) <$> Spec.weighted edges affs.
Proof using Hmerge.
  pose proof (merge_cross_chunk_edges_length _ _ _ Hmerge) as Hlen.
  destruct (merge_cross_chunk_edges_structure edges affs Hlen)
    as (re & ra & mp & rm & Hrun & H1 & H2 & H3 & H4 & H5 & H6 & H7 & _).
  rewrite Hmerge in Hrun. injection Hrun as -> -> -> ->. done.
Qed.

(** A representative is its own representative. *)
Lemma rep_idemp x : rep (rep x) = rep x.
Proof using Hmerge.
  destruct merge_facts as (Hnd & _ & Hrows & Hconv & _).
  destruct (decide (x ∈ mapping.*1)) as [Hx|Hx].
  - apply list_elem_of_fmap in Hx as ([k r] & -> & Hin). simpl.
    rewrite (rep_of_row mapping k r Hnd Hin).
    destruct (Hrows k r Hin) as [(c & Hc & Hk & Hm)|[_ ->]].
    + apply (rep_of_row _ _ _ Hnd). apply (Hconv c); [done| |done].
      by apply np_min_spec in Hm as [? _].
    + by apply rep_of_row.
  - by rewrite !(rep_unmapped mapping x Hnd Hx).
Qed.

(** The nodes that the cut expands a representative to are the nodes of
    the input that it represents. *)
Lemma pre_cut_spec u a :
  rep u = u → a ∈ Np.ravel edges →
  a ∈ match remapping !! u with Some ns => ns | None => [u] end ↔ rep a = u.
Proof using Hmerge.
  intros Hu Ha.
  destruct merge_facts as (Hnd & Hcover & Hrows & Hconv & Hsome & Hnone & _).
  pose proof (cross_graph_wf edges affs) as Hwf.
  apply Hcover in Ha. apply list_elem_of_fmap in Ha as ([k r] & -> & Hin).
  simpl. rewrite (rep_of_row mapping k r Hnd Hin).
  destruct (remapping !! u) as [ns|] eqn:E.
  - destruct (Hsome u ns E) as [Hns Hmin]. split.
    + intros Hk. pose proof (Hconv ns k u Hns Hk Hmin) as Hin'.
      apply (dict_lookup _ _ _ Hnd) in Hin, Hin'. congruence.
    + intros ->. destruct (Hrows k u Hin) as [(c & Hc & Hk & Hm)|[Hno ->]].
      * apply np_min_spec in Hm as [Huc _].
        apply np_min_spec in Hmin as [Huns _].
        apply (component_members _ ns u k Hwf Hns Huns).
        by apply (component_members _ c u k Hwf Hc Huc).
      * by apply np_min_spec in Hmin as [? _].
  - rewrite list_elem_of_singleton. split.
    + intros ->. apply (dict_lookup _ _ _ Hnd) in Hin.
      unfold Spec.rep, Cutting.remap in Hu. rewrite Hin in Hu. done.
    + intros ->. destruct (Hrows k u Hin) as [(c & Hc & Hk & Hm)|[_ ->]]; [|done].
      by destruct (Hnone u E c Hc).
Qed.

Lemma expand_cut_spec cut a b :
  rep cut.1 = cut.1 → rep cut.2 = cut.2 →
  a ∈ Np.ravel edges → b ∈ Np.ravel edges →
  (a, b) ∈ Cutting.expand_cut remapping cut
  ↔ (rep a = cut.1 ∧ rep b = cut.2) ∨ (rep a = cut.2 ∧ rep b = cut.1).
Proof using Hmerge.
  intros H1 H2 Ha Hb. unfold Cutting.expand_cut. cbv zeta.
  rewrite elem_of_app, !elem_of_product.
  rewrite !(pre_cut_spec _ _ H1), !(pre_cut_spec _ _ H2) by done. tauto.
Qed.

End Uncoalesce.

Lemma uncoalesce_spec remapping cutset original_edges :
  ∃ res, Cutting.uncoalesce remapping cutset original_edges = Return res ∧
    ∀ e, e ∈ res ↔
         e ∈ original_edges ∧
         ∃ cut, cut ∈ cutset ∧ e ∈ Cutting.expand_cut remapping cut.
Proof.
  unfold Cutting.uncoalesce, Np.in1d. cbv zeta.
  rewrite (mask_select_self (λ e, bool_decide (e ∈ original_edges))).
  eexists. split; [done|]. intros e.
  rewrite list_elem_of_filter, bool_decide_eq_true, list_elem_of_bind.
  split; intros [? (cut & ? & ?)]; (split; [done|]); by exists cut.
Qed.

Lemma ravel_product_self (l : list N) x : x ∈ Np.ravel (Np.product l l) → x ∈ l.
Proof.
  intros ([a b] & [Ha Hb]%elem_of_product & Hx)%elem_of_ravel.
  by destruct Hx as [-> | ->].
Qed.

Lemma build_weighted_graph_nodes edges affs sources sinks G x :
  Cutting.build_weighted_graph edges affs sources sinks = Return G →
  x ∈ Nx.nodes G → x ∈ Np.ravel edges ∨ x ∈ sinks ∨ x ∈ sources.
Proof.
  intros (G1 & G2 & E1 & E2 & E3)%build_weighted_graph_inv.
  apply set_affinities_spec in E1 as [N1 _].
  apply set_capacities_spec in E2 as [N2 _].
  apply set_capacities_spec in E3 as [N3 _].
  rewrite N3, N2, N1, !elem_of_nodes_add_edges_from. simpl.
  intros [[[[]%elem_of_nil|?]|?%ravel_product_self]|?%ravel_product_self]; auto.
Qed.

Lemma check_components_nodes G ccs sources sinks G' x :
  Cutting.check_components G ccs sources sinks = Some G' →
  x ∈ Nx.nodes G' → x ∈ Nx.nodes G.
Proof.
  revert G. induction ccs as [|c ccs IH]; intros G; cbn [Cutting.check_components].
  - by intros [= <-].
  - destruct (negb _).
    + intros Hrun Hx. specialize (IH _ Hrun Hx). simpl in IH.
      by apply list_elem_of_filter in IH as [_ ?].
    + destruct (_ || _); [done|]. apply IH.
Qed.

Lemma mask_select_in1d_subset (a b : list (N * N)) r e :
  Np.mask_select a (Np.in1d a b) = Return r → e ∈ r → e ∈ b.
Proof.
  unfold Np.in1d. rewrite (mask_select_self (λ e, bool_decide (e ∈ b))).
  intros [= <-] [He _]%list_elem_of_filter. by apply bool_decide_eq_true in He.
Qed.

(** Every return of [mincut] is either an early empty list or the
    uncoalesced cut. *)
Lemma mincut_returns_edges minimum_edge_cut edges affs sources sinks out res :
  Cutting.mincut minimum_edge_cut edges affs sources sinks = (out, Return res) →
  ∀ e, e ∈ res → e ∈ edges.
Proof.
  unfold Cutting.mincut. intros Hrun e He.
  destruct (Cutting.merge_cross_chunk_edges edges affs)
    as [[[[re ra] mp] rm]|]; [|done].
  destruct (decide (length re = 0)).
  { injection Hrun as _ <-. by apply elem_of_nil in He. }
  destruct (Cutting.assert_unique_keys mp); [|done].
  destruct (Cutting.build_weighted_graph _ _ _ _) as [G|]; [|done].
  destruct (Cutting.check_components _ _ _ _) as [G'|].
  2:{ injection Hrun as _ <-. by apply elem_of_nil in He. }
  injection Hrun as _ Hres.
  destruct (Np.item (Cutting.remap (Cutting.dict mp) <$> sources) 0) as [s|];
    simpl in Hres; [|done].
  destruct (Np.item (Cutting.remap (Cutting.dict mp) <$> sinks) 0) as [t|];
    simpl in Hres; [|done].
  destruct (minimum_edge_cut G' s t) as [[cs|]|]; simpl in Hres;
    [| |done].
  - destruct (Np.item cs 0); simpl in Hres; [|done].
    by eapply mask_select_in1d_subset.
  - injection Hres as <-. by apply elem_of_nil in He.
Qed.

(** C3: every edge that [mincut] returns is an edge of the input; and
    when [mincut] reaches the minimum cut and the cut set lies in the
    working graph, the edges returned are exactly the edges (a, b) of the
    input for which some cut edge joins the representative of [a] and
    the representative of [b], in either order. *)
Theorem mincut_uncoalesces minimum_edge_cut edges affs sources sinks out res :
  Cutting.mincut minimum_edge_cut edges affs sources sinks = (out, Return res) →
  (∀ e, e ∈ res → e ∈ edges) ∧
  (∀ remapped_edges remapped_affs mapping remapping G G' s t cutset,
     Cutting.merge_cross_chunk_edges edges affs
     = Return (remapped_edges, remapped_affs, mapping, remapping) →
     remapped_edges ≠ [] →
     Cutting.build_weighted_graph remapped_edges remapped_affs
       (Spec.rep mapping <$> sources) (Spec.rep mapping <$> sinks) = Return G →
     Cutting.check_components G (Nx.connected_components G)
       (Spec.rep mapping <$> sources) (Spec.rep mapping <$> sinks) = Some G' →
     Np.item (Spec.rep mapping <$> sources) 0 = Return s →
     Np.item (Spec.rep mapping <$> sinks) 0 = Return t →
     minimum_edge_cut G' s t = Return (Some cutset) →
     (∀ cut, cut ∈ cutset → cut.1 ∈ Nx.nodes G' ∧ cut.2 ∈ Nx.nodes G') →
     ∀ e, e ∈ res ↔
          e ∈ edges ∧
          ∃ cut, cut ∈ cutset ∧
            ((Spec.rep mapping e.1 = cut.1 ∧ Spec.rep mapping e.2 = cut.2) ∨
             (Spec.rep mapping e.1 = cut.2 ∧ Spec.rep mapping e.2 = cut.1))).
Proof.
  intros Hrun. split; [by eapply mincut_returns_edges|].
  intros re ra mapping rm G G' s t cutset Hmerge Hne Hbuild Hcheck Hs Ht Hcut Hnodes.
  unfold Cutting.mincut in Hrun. rewrite Hmerge in Hrun.
  rewrite decide_False in Hrun by (by destruct re).
  destruct (merge_mapping_unique _ _ _ _ _ _ Hmerge) as (_ & _ & Hassert).
  rewrite (Hassert Hne) in Hrun.
  change (Cutting.remap (Cutting.dict mapping)) with (Spec.rep mapping) in Hrun.
  rewrite Hbuild, Hcheck, Hs, Ht in Hrun. simpl in Hrun.
  rewrite Hcut in Hrun. simpl in Hrun.
  injection Hrun as _ Hres.
  destruct (Np.item cutset 0) as [edge_cut|]; simpl in Hres; [|done].
  destruct (uncoalesce_spec rm cutset edges) as (res' & Hun & Hres').
  rewrite Hun in Hres. injection Hres as ->.
  assert (Hfix : ∀ cut, cut ∈ cutset →
            Spec.rep mapping cut.1 = cut.1 ∧ Spec.rep mapping cut.2 = cut.2).
  { assert (Hnode : ∀ x, x ∈ Nx.nodes G' → Spec.rep mapping x = x).
    { intros x Hx. apply (check_components_nodes _ _ _ _ _ _ Hcheck) in Hx.
      apply (build_weighted_graph_nodes _ _ _ _ _ _ Hbuild) in Hx.
      destruct (merge_facts _ _ _ _ _ _ Hmerge) as (_ & _ & _ & _ & _ & _ & Hre).
      destruct Hx as [Hx|[Hx|Hx]].
      - rewrite Hre in Hx. apply elem_of_ravel in Hx as (e' & He' & Hx).
        apply list_elem_of_fmap in He' as (ea & -> & _). simpl in Hx.
        destruct Hx as [-> | ->]; by eapply rep_idemp.
      - apply list_elem_of_fmap in Hx as (y & -> & _). by eapply rep_idemp.
      - apply list_elem_of_fmap in Hx as (y & -> & _). by eapply rep_idemp. }
    intros cut Hc. destruct (Hnodes cut Hc). split; by apply Hnode. }
  intros [a b]. rewrite Hres'. simpl. split.
  - intros [He (cut & Hc & Hex)]. split; [done|]. exists cut. split; [done|].
    destruct (Hfix cut Hc) as [H1 H2].
    apply (expand_cut_spec _ _ _ _ _ _ Hmerge cut a b H1 H2); [| |done];
      apply elem_of_ravel; exists (a, b); auto.
  - intros [He (cut & Hc & Hex)]. split; [done|]. exists cut. split; [done|].
    destruct (Hfix cut Hc) as [H1 H2].
    apply (expand_cut_spec _ _ _ _ _ _ Hmerge cut a b H1 H2); [| |done];
      apply elem_of_ravel; exists (a, b); auto.
Qed.

(** * The edit handlers *)

(** Unfolding of the handler monad and of its primitive actions. *)
Ltac unfold_handler H :=
  unfold Common.publish_edit, Common.undo_handlers in H;
  unfold mbind, Common.handler_bind, mret, Common.handler_ret,
    Common.try_except, Common.call, Common.raise, Common.lift,
    Common.set_table_id, Common.set_user_id, Common.send, Common.getenv in H;
  simpl in H.

(** Case analysis along a run: every test that the run [H] makes. *)
Ltac run_cases :=
  repeat (match goal with
          | H : context [match ?x with _ => _ end] |- _ => destruct x eqn:?
          end; simplify_eq/=).

Lemma app_eq_self {A} (l k : list A) : l = l ++ k → [] = k.
Proof. intros Heq. apply (app_inv_head l). by rewrite app_nil_r. Qed.

(** The calls that a run added, compared with the calls that a
    hypothesis names: the common history is removed and the unknown
    prefix is taken apart. *)
Ltac trace_cases H :=
  rewrite <- ?app_assoc in H; simpl in H;
  repeat match goal with
         | G : ?l ++ _ = ?l ++ _ |- _ => apply app_inv_head in G
         | G : ?l = ?l ++ _ |- _ => apply app_eq_self in G
         | G : _ = ?pre ++ _ |- _ => is_var pre; destruct pre; simplify_eq/=
         end.


Section HandlerFacts.

Import Common.
Context `{Backend}.

Lemma handle_merge_after_edit table req w w' out pre t u ae sc kc ans :
  handle_merge table req w = (w', out) →
  cg_calls w' = cg_calls w ++ pre ++ [AddEdges t u ae sc kc] →
  add_edges (cg_calls w ++ pre) t u ae sc kc = ans →
  match ans with
  | Raise (LockingError _) =>
      out = Raise (InternalServerError
                     "Could not acquire root lock for merge operation.")
  | Raise (PreconditionError msg) => out = Raise (BadRequest msg)
  | Raise e => out = Raise e
  | Return ret =>
      match new_root_ids ret with
      | None => out = Raise (InternalServerError
                               "Could not merge selected supervoxel.")
      | Some _ => out = Return ret
      end
  end.
Proof.
  intros Hrun Htrace. unfold handle_merge in Hrun. unfold_handler Hrun.
  run_cases; trace_cases Htrace.
  all: intros <-.
  all: match goal with
       | Hadd : add_edges _ _ _ _ _ _ = _ |- _ =>
           rewrite <- app_assoc in Hadd; simpl in Hadd; rewrite Hadd
       end.
  all: by repeat (case_match; simplify_eq/=).
Qed.

Lemma handle_split_after_edit table req w w' out pre t u src snk sc kc mc ans :
  handle_split table req w = (w', out) →
  cg_calls w' = cg_calls w ++ pre ++ [RemoveEdges t u src snk sc kc mc] →
  remove_edges (cg_calls w ++ pre) t u src snk sc kc mc = ans →
  match ans with
  | Raise (LockingError _) =>
      out = Raise (InternalServerError
                     "Could not acquire root lock for split operation.")
  | Raise (PreconditionError msg) => out = Raise (BadRequest msg)
  | Raise e => out = Raise e
  | Return ret =>
      match new_root_ids ret with
      | None => out = Raise (InternalServerError
                               "Could not split selected segment groups.")
      | Some _ => out = Return ret
      end
  end.
Proof.
  intros Hrun Htrace. unfold handle_split in Hrun. unfold_handler Hrun.
  run_cases; trace_cases Htrace.
  all: intros <-.
  all: match goal with
       | G : RemoveEdges _ _ _ _ _ _ _ = RemoveEdges _ _ _ _ _ _ _ |- _ =>
           injection G as <- <- <- <- <- <- <-
       end.
  all: match goal with
       | Hrem : remove_edges _ _ _ _ _ _ _ _ = _ |- _ =>
           rewrite <- app_assoc in Hrem; simpl in Hrem; rewrite Hrem
       end.
  all: by repeat (case_match; simplify_eq/=).
Qed.

(** C6, as the code has it: when the edit hands the merge or the split
    handler a result whose [new_root_ids] is [None], the handler raises
    [InternalServerError] and does not return the result.  (The test is
    against [None]: an empty array of roots is not caught by it.) *)
Theorem none_roots_raise_internal_error (ret : Result) :
  new_root_ids ret = None →
  (∀ table req w w' out pre t u ae sc kc,
     handle_merge table req w = (w', out) →
     cg_calls w' = cg_calls w ++ pre ++ [AddEdges t u ae sc kc] →
     add_edges (cg_calls w ++ pre) t u ae sc kc = Return ret →
     out = Raise (InternalServerError "Could not merge selected supervoxel.")) ∧
  (∀ table req w w' out pre t u src snk sc kc mc,
     handle_split table req w = (w', out) →
     cg_calls w' = cg_calls w ++ pre ++ [RemoveEdges t u src snk sc kc mc] →
     remove_edges (cg_calls w ++ pre) t u src snk sc kc mc = Return ret →
     out = Raise (InternalServerError
                    "Could not split selected segment groups.")).
Proof.
  intros Hnone. split.
  - intros table req w w' out pre t u ae sc kc Hrun Htrace Hans.
    pose proof (handle_merge_after_edit _ _ _ _ _ _ _ _ _ _ _ _
                  Hrun Htrace Hans) as Hout.
    simpl in Hout. by rewrite Hnone in Hout.
  - intros table req w w' out pre t u src snk sc kc mc Hrun Htrace Hans.
    pose proof (handle_split_after_edit _ _ _ _ _ _ _ _ _ _ _ _ _ _
                  Hrun Htrace Hans) as Hout.
    simpl in Hout. by rewrite Hnone in Hout.
Qed.

(** C7, as the code has it: when the edit of a merge or of a split raises
    [LockingError], the handler raises [InternalServerError] (a server
    error, not a client error); when it raises [PreconditionError], the
    handler raises [BadRequest] with the same message. *)
Theorem edit_errors_are_converted table req w w' out pre t u :
  (∀ ae sc kc,
     handle_merge table req w = (w', out) →
     cg_calls w' = cg_calls w ++ pre ++ [AddEdges t u ae sc kc] →
     (∀ msg, add_edges (cg_calls w ++ pre) t u ae sc kc
             = Raise (LockingError msg) →
             out = Raise (InternalServerError
                            "Could not acquire root lock for merge operation.")) ∧
     (∀ msg, add_edges (cg_calls w ++ pre) t u ae sc kc
             = Raise (PreconditionError msg) →
             out = Raise (BadRequest msg))) ∧
  (∀ src snk sc kc mc,
     handle_split table req w = (w', out) →
     cg_calls w' = cg_calls w ++ pre ++ [RemoveEdges t u src snk sc kc mc] →
     (∀ msg, remove_edges (cg_calls w ++ pre) t u src snk sc kc mc
             = Raise (LockingError msg) →
             out = Raise (InternalServerError
                            "Could not acquire root lock for split operation.")) ∧
     (∀ msg, remove_edges (cg_calls w ++ pre) t u src snk sc kc mc
             = Raise (PreconditionError msg) →
             out = Raise (BadRequest msg))).
Proof.
  split.
  - intros ae sc kc Hrun Htrace. split; intros msg Hans;
      apply (handle_merge_after_edit _ _ _ _ _ _ _ _ _ _ _ _
               Hrun Htrace Hans).
  - intros src snk sc kc mc Hrun Htrace. split; intros msg Hans;
      apply (handle_split_after_edit _ _ _ _ _ _ _ _ _ _ _ _ _ _
               Hrun Htrace Hans).
Qed.

(** C8, as the code has it: on the tables [fly_v26] and [fly_v31] the
    undo, redo and rollback handlers raise [InternalServerError] at once:
    no field is set, no call reaches the chunked graph, nothing is
    published. *)
Theorem deny_list_rejects table req w :
  table ∈ deny_list →
  handle_undo table req w
  = (w, Raise (InternalServerError
                 "Undo not supported for this chunkedgraph table.")) ∧
  handle_redo table req w
  = (w, Raise (InternalServerError
                 "Redo not supported for this chunkedgraph table.")) ∧
  handle_rollback table req w
  = (w, Raise (InternalServerError
                 "Rollback not supported for this chunkedgraph table.")).
Proof.
  intros Hdeny. unfold handle_undo, handle_redo, handle_rollback.
  by rewrite !decide_True by done.
Qed.










(** *** Rollback *)

Lemma insert_desc_perm x l : insert_desc x l ≡ₚ x :: l.
Proof.
  induction l as [|y l IH]; simpl; [done|].
  case_decide; [done|]. rewrite IH. apply Permutation_swap.
Qed.

Lemma sort_desc_perm l : sort_desc l ≡ₚ l.
Proof.
  induction l as [|x l IH]; simpl; [done|].
  by rewrite insert_desc_perm, IH.
Qed.

Lemma insert_desc_sorted x l :
  StronglySorted (λ a b : N * Z, (b.2 ≤ a.2)%Z) l →
  StronglySorted (λ a b : N * Z, (b.2 ≤ a.2)%Z) (insert_desc x l).
Proof.
  induction 1 as [|y l Hs IH Hall]; simpl.
  - repeat constructor.
  - case_decide as Hle.
    + constructor; [by constructor|]. constructor; [done|].
      eapply Forall_impl; [exact Hall|]. simpl. intros z ?. lia.
    + constructor; [done|]. rewrite insert_desc_perm.
      constructor; [lia|done].
Qed.

Lemma sort_desc_sorted l :
  StronglySorted (λ a b : N * Z, (b.2 ≤ a.2)%Z) (sort_desc l).
Proof.
  induction l as [|x l IH]; simpl; [constructor|]. by apply insert_desc_sorted.
Qed.

Lemma omap_keys_fst (m : gmap N log_entry) (l : list N) :
  (∀ k, k ∈ l → is_Some (m !! k)) →
  (omap (λ k, (λ e, (k, e)) <$> m !! k) l).*1 = l.
Proof.
  induction l as [|k l IH]; intros Hl; simpl; [done|].
  destruct (Hl k) as [e He]; [by left|]. rewrite He. simpl. f_equal.
  apply IH. intros k' ?. apply Hl. by right.
Qed.

Lemma sorted_rows_spec (m : gmap N log_entry) :
  NoDup (sorted_rows m).*1 ∧
  ∀ k e, (k, e) ∈ sorted_rows m ↔ m !! k = Some e.
Proof.
  unfold sorted_rows. split.
  - rewrite omap_keys_fst.
    + rewrite merge_sort_Permutation. apply NoDup_fst_map_to_list.
    + intros k. rewrite merge_sort_Permutation.
      intros ([k' e] & -> & Hin%elem_of_map_to_list)%list_elem_of_fmap.
      by eexists.
  - intros k e. rewrite list_elem_of_omap. split.
    + intros (k' & _ & Hk). destruct (m !! k') as [e'|] eqn:E; simpl in Hk;
        [|done]. by injection Hk as -> ->.
    + intros Hk. exists k. split; [|by rewrite Hk].
      rewrite merge_sort_Permutation. apply list_elem_of_fmap.
      exists (k, e). split; [done|]. by apply elem_of_map_to_list.
Qed.

(** The operations that the rollback works through: the rows of the
    target user, latest first. *)
Lemma rollback_operations_spec (rows : gmap N log_entry) (target : string) :
  let valid := filter (λ r, UserID r.2 = target) (sorted_rows rows) in
  let ops := sort_desc (zip valid.*1 ((λ r, timestamp r.2) <$> valid)) in
  (∀ id ts, (id, ts) ∈ ops ↔
            ∃ e, rows !! id = Some e ∧ UserID e = target ∧ timestamp e = ts) ∧
  NoDup ops.*1 ∧
  StronglySorted (λ a b : N * Z, (b.2 ≤ a.2)%Z) ops.
Proof.
  intros valid ops. destruct (sorted_rows_spec rows) as [Hnd Hrows].
  assert (Hzip : zip valid.*1 ((λ r, timestamp r.2) <$> valid)
                 = (λ r, (r.1, timestamp r.2)) <$> valid).
  { clear. induction valid as [|r v IH]; simpl; [done|]. by f_equal. }
  split_and!.
  - intros id ts. unfold ops. rewrite sort_desc_perm, Hzip, list_elem_of_fmap.
    split.
    + intros ([k e] & [= -> ->] & [Hu Hin]%list_elem_of_filter).
      exists e. split_and!; [by apply Hrows|done|done].
    + intros (e & He & Hu & Ht). exists (id, e). split; [by rewrite <- Ht|].
      apply list_elem_of_filter. split; [done|]. by apply Hrows.
  - unfold ops. rewrite sort_desc_perm, Hzip, <- list_fmap_compose.
    assert (Hfst : (fst ∘ (λ r : N * log_entry, (r.1, timestamp r.2))) <$> valid
                   = valid.*1).
    { clear. induction valid as [|r v IH]; simpl; [done|]. by f_equal. }
    rewrite Hfst. eapply sublist_NoDup; [exact Hnd|].
    apply fmap_sublist, sublist_filter.
  - apply sort_desc_sorted.
Qed.

Lemma rollback_one_trace table user target operation w w' out :
  rollback_one table user target operation w = (w', out) →
  cg_calls w' = cg_calls w ++ [UndoOperation table target operation.1].
Proof.
  intros Hrun. unfold rollback_one in Hrun. unfold_handler Hrun.
  by run_cases.
Qed.

(** The loop of the rollback calls [undo_operation] for the operations in
    their order, in the name of the target user, until one call raises. *)
Lemma rollback_loop_trace table user target operations w w' out :
  rollback_loop table user target operations w = (w', out) →
  ∃ k, cg_calls w'
       = cg_calls w ++ (UndoOperation table target <$> (take k operations).*1) ∧
       (∀ r, out = Return r → k = length operations).
Proof.
  revert w. induction operations as [|op ops IH]; intros w Hrun.
  - injection Hrun as <- <-. exists 0. by rewrite app_nil_r.
  - cbn [rollback_loop] in Hrun. unfold mbind, handler_bind in Hrun.
    destruct (rollback_one table user target op w) as [w1 [r1|e1]] eqn:E1.
    + apply rollback_one_trace in E1.
      destruct (IH w1 Hrun) as (k & Hk & Hdone). exists (S k). split.
      * rewrite Hk, E1, <- app_assoc. done.
      * intros r Hr. simpl. f_equal. by eapply Hdone.
    + injection Hrun as <- <-. apply rollback_one_trace in E1.
      exists 1. split; [by rewrite E1|]. by intros r.
Qed.

Lemma undo_calls_no_read table target (l : list N) pre t start rest :
  UndoOperation table target <$> l ≠ pre ++ ReadLogRows t start :: rest.
Proof.
  intros Heq.
  assert (Hin : ReadLogRows t start ∈ UndoOperation table target <$> l).
  { rewrite Heq. apply elem_of_app. right. by left. }
  by apply list_elem_of_fmap in Hin as (? & ? & _).
Qed.




End HandlerFacts.

(** * The properties at concrete inputs *)

Section Instances.

Import Common Scenario.

Local Open Scope N_scope.

Lemma merge_cross_chunk_edges_coalesces_witness :
  length chain_edges = length chain_affs ∧
  ∃ remapped_edges remapped_affs mapping remapping,
    Cutting.merge_cross_chunk_edges chain_edges chain_affs
    = Return (remapped_edges, remapped_affs, mapping, remapping) ∧
    Spec.rep mapping 2 = Spec.rep mapping 1 ∧
    (Spec.rep mapping 1 ≤ 2) ∧
    remapped_edges
    = (λ ea, (Spec.rep mapping (ea.1).1, Spec.rep mapping (ea.1).2))
      <$> Spec.weighted chain_edges chain_affs ∧
    remapped_affs = (Spec.weighted chain_edges chain_affs).*2.
Proof.
  split; [reflexivity|].
  destruct (merge_cross_chunk_edges_coalesces chain_edges chain_affs eq_refl)
    as (re & ra & mapping & rm & Hrun & Hcross & _ & Hre & Hra).
  exists re, ra, mapping, rm. split; [exact Hrun|].
  assert (E : re = [(1, 3)] ∧ mapping = chain_mapping).
  { vm_compute in Hrun. injection Hrun as <- _ <- _. by split. }
  destruct E as [_ ->]. split; [reflexivity|]. split; [|by split].
  assert (Hn : Spec.cross_node chain_edges chain_affs 1).
  { unfold Spec.cross_node. apply (bool_decide_unpack _). by vm_compute. }
  destruct (Hcross 1 Hn) as (_ & _ & Hle). apply Hle.
  apply rtsc_lr. apply (bool_decide_unpack _). by vm_compute.
Defined.

Lemma mincut_disconnected_witness :
  Cutting.mincut cut_1_3 [(1, 2)] [one] [1] [99]
  = ([Cutting.disconnected_message], Return []).
Proof.
  eapply (mincut_disconnected cut_1_3 [(1, 2)] [one] [1] [99]
            _ _ [(1, 1); (2, 2)] _ _ [1; 2]).
  - vm_compute. reflexivity.
  - discriminate.
  - vm_compute. reflexivity.
  - apply (bool_decide_unpack _). by vm_compute.
  - exists 1. split; [left|]; apply (bool_decide_unpack _); by vm_compute.
  - exists 99. split; [right|]; apply (bool_decide_unpack _); by vm_compute.
Defined.

Lemma mincut_uncoalesces_witness :
  Cutting.mincut cut_1_3 chain_edges chain_affs [1] [4] = ([], Return [(2, 3)]) ∧
  (∀ e, e ∈ [(2, 3)] → e ∈ chain_edges) ∧
  (∀ e, e ∈ [(2, 3)] ↔
        e ∈ chain_edges ∧
        ∃ cut, cut ∈ [(1, 3)] ∧
          ((Spec.rep chain_mapping e.1 = cut.1 ∧
            Spec.rep chain_mapping e.2 = cut.2) ∨
           (Spec.rep chain_mapping e.1 = cut.2 ∧
            Spec.rep chain_mapping e.2 = cut.1))).
Proof.
  assert (Hrun : Cutting.mincut cut_1_3 chain_edges chain_affs [1] [4]
                 = ([], Return [(2, 3)])) by (vm_compute; reflexivity).
  split; [exact Hrun|].
  destruct (mincut_uncoalesces _ _ _ _ _ _ _ Hrun) as [Hsub Hset].
  split; [exact Hsub|].
  eapply (Hset _ _ chain_mapping).
  - vm_compute. reflexivity.
  - discriminate.
  - vm_compute. reflexivity.
  - vm_compute. reflexivity.
  - reflexivity.
  - reflexivity.
  - reflexivity.
  - intros cut ->%list_elem_of_singleton.
    split; apply (bool_decide_unpack _); by vm_compute.
Defined.

Lemma working_graph_capacities_witness :
  ∃ G, Cutting.build_weighted_graph [(1, 2)] [one] [1] [2] = Return G ∧
       Nx.capacity G 1 1 = Some Cutting.float_max ∧
       Nx.capacity G 2 2 = Some Cutting.float_max ∧
       Nx.capacity G 1 2 = Some one.
Proof.
  destruct (Cutting.build_weighted_graph [(1, 2)] [one] [1] [2])
    as [G|e] eqn:E; [|by vm_compute in E].
  exists G. split; [reflexivity|].
  destruct (working_graph_capacities _ _ _ _ G E) as (Hsrc & Hsnk & Hw).
  split_and!.
  - apply Hsrc; by left.
  - apply Hsnk; by left.
  - apply (Hw 0%nat); [reflexivity|reflexivity| | |].
    + intros [|j] e' Hj He'; [lia|done].
    + intros [_ H2]. by apply list_elem_of_singleton in H2.
    + intros [H1 _]. by apply list_elem_of_singleton in H1.
Defined.

Lemma mapping_is_function_witness :
  NoDup chain_mapping.*1 ∧
  (∀ n, n ∈ Np.ravel chain_edges →
        length (filter (λ k, k = n) chain_mapping.*1) = 1%nat) ∧
  ([(1, 3)] ≠ [] → Cutting.assert_unique_keys chain_mapping = Return ()).
Proof.
  eapply (mapping_is_function chain_edges chain_affs).
  vm_compute. reflexivity.
Defined.

(** *** The handlers *)

Lemma none_roots_raise_internal_error_witness :
  (handle_merge (H := backend (Return none_roots) ∅) "t" merge_request world0).2
  = Raise (InternalServerError "Could not merge selected supervoxel.") ∧
  (handle_split (H := backend (Return none_roots) ∅) "t" split_request world0).2
  = Raise (InternalServerError "Could not split selected segment groups.").
Proof.
  destruct (none_roots_raise_internal_error
              (H := backend (Return none_roots) ∅) none_roots eq_refl)
    as [Hmerge Hsplit].
  split.
  - eapply (Hmerge "t" merge_request world0 _ _ before_edit);
      [apply surjective_pairing|reflexivity|reflexivity].
  - eapply (Hsplit "t" split_request world0 _ _ before_edit);
      [apply surjective_pairing|reflexivity|reflexivity].
Defined.

(** The statement of C6 for an empty array of roots fails: a merge whose
    edit returns [new_root_ids = []] returns that result. *)
Lemma empty_roots_are_returned :
  ¬ (∀ (B : Backend) (ret : Result),
       new_root_ids ret = Some [] →
       ∀ table req w w' out pre t u ae sc kc,
         handle_merge table req w = (w', out) →
         cg_calls w' = cg_calls w ++ pre ++ [AddEdges t u ae sc kc] →
         add_edges (cg_calls w ++ pre) t u ae sc kc = Return ret →
         ∃ msg, out = Raise (InternalServerError msg)).
Proof.
  intros Hclaim.
  pose proof (λ t u ae sc kc,
    Hclaim (backend (Return no_roots) ∅) no_roots eq_refl
      "t" merge_request world0 _ _ before_edit t u ae sc kc
      (surjective_pairing _)) as Hrun.
  edestruct Hrun as [msg Hmsg]; [reflexivity|reflexivity|].
  vm_compute in Hmsg. discriminate Hmsg.
Qed.

Lemma edit_errors_are_converted_witness :
  (handle_merge (H := backend (Raise (LockingError "busy")) ∅)
     "t" merge_request world0).2
  = Raise (InternalServerError
             "Could not acquire root lock for merge operation.") ∧
  (handle_split (H := backend (Raise (PreconditionError "same supervoxel")) ∅)
     "t" split_request world0).2
  = Raise (BadRequest "same supervoxel").
Proof.
  split.
  - eapply (proj1 (edit_errors_are_converted
                     (H := backend (Raise (LockingError "busy")) ∅)
                     "t" merge_request world0 _ _ before_edit _ _));
      [apply surjective_pairing|reflexivity|reflexivity].
  - eapply (proj2 (edit_errors_are_converted
                     (H := backend (Raise (PreconditionError "same supervoxel")) ∅)
                     "t" split_request world0 _ _ before_edit _ _));
      [apply surjective_pairing|reflexivity|reflexivity].
Defined.

(** The statement of C7 for the locking error fails: the merge handler
    turns it into [InternalServerError], which is no client error. *)
Lemma locking_error_is_no_client_error :
  ¬ (∀ (B : Backend) table req w w' out pre t u ae sc kc msg,
       handle_merge table req w = (w', out) →
       cg_calls w' = cg_calls w ++ pre ++ [AddEdges t u ae sc kc] →
       add_edges (cg_calls w ++ pre) t u ae sc kc = Raise (LockingError msg) →
       ∃ e, out = Raise e ∧ is_client_error e = true).
Proof.
  intros Hclaim.
  pose proof (λ t u ae sc kc msg,
    Hclaim (backend (Raise (LockingError "busy")) ∅)
      "t" merge_request world0 _ _ before_edit t u ae sc kc msg
      (surjective_pairing _)) as Hrun.
  edestruct Hrun as (e & He & Hclient); [reflexivity|reflexivity|].
  vm_compute in He. injection He as <-. discriminate Hclient.
Qed.

Lemma deny_list_rejects_witness :
  "fly_v26" ∈ deny_list ∧
  handle_undo (H := backend (Return edited) log) "fly_v26" undo_request world0
  = (world0, Raise (InternalServerError
                      "Undo not supported for this chunkedgraph table.")) ∧
  handle_redo (H := backend (Return edited) log) "fly_v26" undo_request world0
  = (world0, Raise (InternalServerError
                      "Redo not supported for this chunkedgraph table.")) ∧
  handle_rollback (H := backend (Return edited) log)
    "fly_v26" rollback_request world0
  = (world0, Raise (InternalServerError
                      "Rollback not supported for this chunkedgraph table.")).
Proof.
  assert (Hdeny : "fly_v26" ∈ deny_list) by (apply (bool_decide_unpack _); by vm_compute).
  split; [exact Hdeny|].
  split_and!; by apply (deny_list_rejects (H := backend (Return edited) log)).
Defined.

(** The statement of C8 with [BadRequest] fails: on [fly_v26] the undo
    handler raises [InternalServerError]. *)
Lemma deny_list_error_is_no_bad_request :
  ¬ (∀ (B : Backend) table req w,
       table ∈ deny_list →
       ∃ e, (handle_undo table req w).2 = Raise e ∧ is_bad_request e = true).
Proof.
  intros Hclaim.
  destruct (Hclaim (backend (Return edited) log) "fly_v26" undo_request world0)
    as (e & He & Hbad).
  - apply (bool_decide_unpack _). by vm_compute.
  - vm_compute in He. injection He as <-. discriminate Hbad.
Qed.




End Instances.

(** * Further properties of the cut *)

Lemma mask_select_mismatch {A} (a : list A) (m : list bool) :
  length a ≠ length m → Np.mask_select a m = Raise IndexError.
Proof.
  revert m. induction a as [|x a IH]; intros [|b m] Hlen; simpl in *; try done.
  rewrite IH; [done|]. intros Heq. apply Hlen. by f_equal.
Qed.

(** X1: [merge_cross_chunk_edges] returns exactly when it is given as
    many affinities as edges, and raises [IndexError] (from the boolean
    mask) exactly when it is not. *)
Theorem merge_cross_chunk_edges_returns_iff edges affs :
  ((∃ r, Cutting.merge_cross_chunk_edges edges affs = Return r)
   ↔ length edges = length affs) ∧
  (Cutting.merge_cross_chunk_edges edges affs = Raise IndexError
   ↔ length edges ≠ length affs).
Proof.
  assert (Hne : length edges ≠ length affs →
                Cutting.merge_cross_chunk_edges edges affs = Raise IndexError).
  { intros Hlen. unfold Cutting.merge_cross_chunk_edges.
    rewrite (mask_select_mismatch edges (Np.isinf <$> affs)); [reflexivity|].
    by rewrite length_fmap. }
  assert (Heq : length edges = length affs →
                ∃ r, Cutting.merge_cross_chunk_edges edges affs = Return r).
  { intros Hlen.
    destruct (merge_cross_chunk_edges_structure edges affs Hlen)
      as (re & ra & mp & rm & Hrun & _). by eexists. }
  split; split.
  - intros [r Hr]. by eapply merge_cross_chunk_edges_length.
  - done.
  - intros Hr. destruct (decide (length edges = length affs)) as [Hlen|]; [|done].
    destruct (Heq Hlen) as [r Hr']. congruence.
  - done.
Qed.

Section Coalescing.

Variables (edges : list (N * N)) (affs : list spec_float).
Variables (remapped_edges : list (N * N)) (remapped_affs : list spec_float).
Variables (mapping : list (N * N)) (remapping : gmap N (list N)).

Hypothesis Hmerge :
  Cutting.merge_cross_chunk_edges edges affs
  = Return (remapped_edges, remapped_affs, mapping, remapping).

Local Abbreviation rep := (Spec.rep mapping).
Local Abbreviation ccs :=
  (Nx.connected_components (Spec.cross_graph edges affs)).

(** The representative of a cross chunk node: the least node connected
    to it. *)
Lemma rep_cross_spec n :
  Spec.cross_node edges affs n →
  ∃ c, c ∈ ccs ∧ n ∈ c ∧ Np.min c = Return (rep n).
Proof using Hmerge.
  intros Hn.
  destruct (merge_facts _ _ _ _ _ _ Hmerge) as (Hnd & Hcover & Hrows & _).
  assert (Hk : n ∈ mapping.*1) by by eapply Hcover, cross_nodes_in_edges.
  apply list_elem_of_fmap in Hk as ([k r] & -> & Hin). simpl in *.
  rewrite (rep_of_row mapping k r Hnd Hin).
  destruct (Hrows k r Hin) as [(c & Hc & Hkc & Hmin)|[Hno _]]; [|done].
  by exists c.
Qed.

Lemma cross_connected_inv u v :
  Spec.cross_connected edges affs u v →
  u = v ∨ (Spec.cross_node edges affs u ∧ Spec.cross_node edges affs v).
Proof.
  intros Hc. destruct (decide (u = v)) as [|Hne]; [by left|]. right.
  assert (Hfirst : ∀ x y, Spec.cross_connected edges affs x y → x ≠ y →
                          Spec.cross_node edges affs x).
  { intros x y Hxy Hxy'. destruct Hxy as [|x z y Hs _]; [done|].
    unfold Spec.cross_node. apply elem_of_ravel.
    destruct Hs as [Hs|Hs]; eexists; (split; [exact Hs|]); auto. }
  split; [by eapply Hfirst|]. eapply Hfirst; [by symmetry|done].
Qed.

Lemma rep_eq_of_cross_connected u v :
  Spec.cross_connected edges affs u v → rep u = rep v.
Proof using Hmerge.
  intros Hc. destruct (cross_connected_inv u v Hc) as [->|[Hu Hv]]; [done|].
  pose proof (cross_graph_wf edges affs) as Hwf.
  destruct (rep_cross_spec u Hu) as (cu & Hcu & Huc & Hmu).
  destruct (rep_cross_spec v Hv) as (cv & Hcv & Hvc & Hmv).
  apply np_min_spec in Hmu as [Hru Hleu]. apply np_min_spec in Hmv as [Hrv Hlev].
  assert (Hsame : ∀ x, x ∈ cu ↔ x ∈ cv).
  { intros x. rewrite (component_members _ cu u x Hwf Hcu Huc).
    rewrite (component_members _ cv v x Hwf Hcv Hvc).
    apply cross_graph_connected in Hc.
    split; intros [? ?]; (split; [done|]).
    - transitivity u; [by symmetry|done].
    - by transitivity v. }
  apply N.le_antisymm; [apply Hleu|apply Hlev]; by apply Hsame.
Qed.

Lemma cross_connected_of_rep_eq u v :
  Spec.cross_node edges affs u → Spec.cross_node edges affs v →
  rep u = rep v → Spec.cross_connected edges affs u v.
Proof using Hmerge.
  intros Hu Hv Heq.
  pose proof (cross_graph_wf edges affs) as Hwf.
  destruct (rep_cross_spec u Hu) as (cu & Hcu & Huc & Hmu).
  destruct (rep_cross_spec v Hv) as (cv & Hcv & Hvc & Hmv).
  apply np_min_spec in Hmu as [Hru _]. apply np_min_spec in Hmv as [Hrv _].
  apply (component_members _ cu u _ Hwf Hcu Huc) in Hru as [_ Hru].
  apply (component_members _ cv v _ Hwf Hcv Hvc) in Hrv as [_ Hrv].
  apply cross_graph_connected in Hru, Hrv.
  transitivity (rep u); [done|]. rewrite Heq. by symmetry.
Qed.

Lemma remapping_entry_spec r ns :
  remapping !! r = Some ns →
  rep r = r ∧ Spec.cross_node edges affs r ∧ NoDup ns ∧
  ∀ n, n ∈ ns ↔ n ∈ Np.ravel edges ∧ rep n = r.
Proof using Hmerge.
  intros Hr.
  destruct (merge_facts _ _ _ _ _ _ Hmerge)
    as (Hnd & Hcover & Hrows & Hconv & Hsome & Hnone & _).
  pose proof (cross_graph_wf edges affs) as Hwf.
  destruct (Hsome r ns Hr) as [Hns Hmin].
  assert (Hrns : r ∈ ns) by by apply np_min_spec in Hmin as [? _].
  assert (Hrep : rep r = r).
  { apply (rep_of_row _ _ _ Hnd). by apply (Hconv ns). }
  assert (Hsub : ∀ n, n ∈ ns → Spec.cross_node edges affs n).
  { intros n Hn. apply elem_of_cross_components, list_elem_of_join.
    by exists ns. }
  split_and!; [done|by apply Hsub| |].
  - destruct (connected_components_spec _ Hwf) as (Ha & _).
    destruct (Ha ns Hns) as (v & _ & ->). by apply NoDup_plain_bfs.
  - intros n. pose proof (pre_cut_spec _ _ _ _ _ _ Hmerge r n Hrep) as Hpre.
    rewrite Hr in Hpre. split.
    + intros Hn. assert (Hin : n ∈ Np.ravel edges)
        by by eapply cross_nodes_in_edges, Hsub.
      split; [done|]. by apply Hpre.
    + intros [Hin Hn]. by apply Hpre.
Qed.

Lemma remapping_has_entry n :
  Spec.cross_node edges affs n → is_Some (remapping !! rep n).
Proof using Hmerge.
  intros Hn.
  destruct (merge_facts _ _ _ _ _ _ Hmerge) as (_ & _ & _ & _ & _ & Hnone & _).
  destruct (rep_cross_spec n Hn) as (c & Hc & _ & Hmin).
  destruct (remapping !! rep n) eqn:E; [by eexists|].
  by destruct (Hnone _ E c Hc).
Qed.

End Coalescing.

(** X2: the dictionary [remapping] that [merge_cross_chunk_edges] returns
    has one entry per cross chunk component, under its representative:
    the entry of [r] lists, without repetition, exactly the nodes of the
    input that [r] represents; every cross chunk node finds the entry of
    its representative; and only cross chunk nodes are keys. *)
Theorem remapping_lists_components edges affs remapped_edges remapped_affs
    mapping remapping :
  Cutting.merge_cross_chunk_edges edges affs
  = Return (remapped_edges, remapped_affs, mapping, remapping) →
  (∀ r ns, remapping !! r = Some ns →
     Spec.rep mapping r = r ∧ Spec.cross_node edges affs r ∧ NoDup ns ∧
     ∀ n, n ∈ ns ↔ n ∈ Np.ravel edges ∧ Spec.rep mapping n = r) ∧
  (∀ n, Spec.cross_node edges affs n →
        is_Some (remapping !! Spec.rep mapping n)).
Proof.
  intros Hmerge. split.
  - intros r ns. by eapply remapping_entry_spec.
  - intros n. by eapply remapping_has_entry.
Qed.

(** X3: the representatives are the classes of the cross chunk
    connection: two nodes joined by a chain of cross chunk edges have the
    same representative, and two cross chunk nodes with the same
    representative are joined by such a chain. *)
Theorem representatives_are_classes edges affs remapped_edges remapped_affs
    mapping remapping :
  Cutting.merge_cross_chunk_edges edges affs
  = Return (remapped_edges, remapped_affs, mapping, remapping) →
  (∀ u v, Spec.cross_connected edges affs u v →
          Spec.rep mapping u = Spec.rep mapping v) ∧
  (∀ u v, Spec.cross_node edges affs u → Spec.cross_node edges affs v →
          Spec.rep mapping u = Spec.rep mapping v →
          Spec.cross_connected edges affs u v).
Proof.
  intros Hmerge. split.
  - intros u v. by eapply rep_eq_of_cross_connected.
  - intros u v. by eapply cross_connected_of_rep_eq.
Qed.

(** X4: when no weighted edge is left (every affinity is infinite, or
    there is no edge at all), [mincut] returns the empty list at once: it
    prints nothing and the minimum cut routine plays no part. *)
Theorem mincut_without_weighted_edges minimum_edge_cut edges affs sources sinks :
  length edges = length affs →
  (∀ a, a ∈ affs → Np.isinf a = true) →
  Cutting.mincut minimum_edge_cut edges affs sources sinks = ([], Return []).
Proof.
  intros Hlen Hinf.
  destruct (merge_cross_chunk_edges_structure edges affs Hlen)
    as (re & ra & mp & rm & Hrun & _ & _ & _ & _ & _ & _ & Hre & _).
  assert (Hw : Spec.weighted edges affs = []).
  { destruct (Spec.weighted edges affs) as [|[e a] w] eqn:E; [done|]. exfalso.
    assert (Hin : (e, a) ∈ Spec.weighted edges affs) by (rewrite E; by left).
    apply list_elem_of_filter in Hin as [Hf Hin%elem_of_zip_r]. simpl in Hf.
    rewrite (Hinf a Hin) in Hf. done. }
  rewrite Hw in Hre. subst re.
  unfold Cutting.mincut. rewrite Hrun. done.
Qed.

(** *** The shape of the working graph *)

Local Abbreviation same_shape G G' :=
  (Nx.nodes G' = Nx.nodes G ∧
   ∀ k, is_Some (Nx.adj G' !! k) ↔ is_Some (Nx.adj G !! k)).

Lemma set_capacity_returns G u v c :
  Nx.has_edge G u v →
  ∃ G', Nx.set_capacity G u v c = Return G' ∧ same_shape G G'.
Proof.
  unfold Nx.has_edge, Nx.set_capacity. intros [a Ha]. rewrite Ha.
  eexists. split; [done|]. split; [done|]. simpl. intros k.
  destruct (decide (Nx.ekey u v = k)) as [<-|Hne].
  - rewrite lookup_insert_eq, Ha. split; by eexists.
  - by rewrite lookup_insert_ne.
Qed.

Lemma has_edge_same_shape G G' u v :
  same_shape G G' → Nx.has_edge G' u v ↔ Nx.has_edge G u v.
Proof. intros [_ Hk]. apply Hk. Qed.

Lemma wf_same_shape G G' : same_shape G G' → Nx.wf G → Nx.wf G'.
Proof.
  intros [Hn Hk] [Hnd Hwf]. split; rewrite Hn; [done|].
  intros u v Huv. by apply Hwf, Hk.
Qed.

Lemma set_capacities_return (c : spec_float) (l : list (N * N)) G :
  (∀ p, p ∈ l → Nx.has_edge G p.1 p.2) →
  ∃ G', for_each (λ G p, Nx.set_capacity G p.1 p.2 c) G l = Return G' ∧
        same_shape G G'.
Proof.
  revert G. induction l as [|p l IH]; intros G Hl.
  - exists G. by split.
  - destruct (set_capacity_returns G p.1 p.2 c) as (G1 & E1 & S1);
      [apply Hl; by left|].
    destruct (IH G1) as (G' & E' & S').
    { intros q Hq. apply (has_edge_same_shape G G1 _ _ S1), Hl. by right. }
    exists G'. split.
    + cbn [for_each]. by rewrite E1.
    + destruct S1 as [N1 K1], S' as [N' K']. split; [congruence|].
      intros k. by rewrite K', K1.
Qed.

Lemma set_affinities_return (affs : list spec_float) (l : list (nat * (N * N))) G :
  (∀ ie, ie ∈ l → ie.1 < length affs ∧ Nx.has_edge G (ie.2).1 (ie.2).2) →
  ∃ G', for_each (λ G (ie : nat * (N * N)),
                    a ← Np.item affs ie.1;
                    G ← Nx.set_capacity G (ie.2).1 (ie.2).2 a;
                    Nx.set_capacity G (ie.2).2 (ie.2).1 a) G l = Return G' ∧
        same_shape G G'.
Proof.
  revert G. induction l as [|[i [u v]] l IH]; intros G Hl.
  - exists G. by split.
  - destruct (Hl (i, (u, v))) as [Hi Huv]; [by left|]. simpl in Hi, Huv.
    destruct (lookup_lt_is_Some_2 affs i Hi) as [a Ha].
    destruct (set_capacity_returns G u v a Huv) as (G1 & E1 & S1).
    destruct (set_capacity_returns G1 v u a) as (G2 & E2 & S2).
    { apply has_edge_sym. by apply (has_edge_same_shape G G1 _ _ S1). }
    destruct (IH G2) as (G' & E' & S').
    { intros ie Hie. destruct (Hl ie) as [? He]; [by right|]. split; [done|].
      by apply (has_edge_same_shape G1 G2 _ _ S2),
               (has_edge_same_shape G G1 _ _ S1). }
    exists G'. split.
    + cbn [for_each]. unfold Np.item. simpl. rewrite Ha. simpl.
      rewrite E1. simpl. by rewrite E2.
    + destruct S1 as [N1 K1], S2 as [N2 K2], S' as [N' K'].
      split; [congruence|]. intros k. by rewrite K', K2, K1.
Qed.

Lemma ravel_product_self_iff (l : list N) x : x ∈ Np.ravel (Np.product l l) ↔ x ∈ l.
Proof.
  split; [apply ravel_product_self|]. intros Hx. apply elem_of_ravel.
  exists (x, x). split; [by apply elem_of_product|by left].
Qed.

Lemma build_weighted_graph_shape edges affs sources sinks :
  length edges ≤ length affs →
  ∃ G, Cutting.build_weighted_graph edges affs sources sinks = Return G ∧
    Nx.wf G ∧
    (∀ x, x ∈ Nx.nodes G ↔ x ∈ Np.ravel edges ∨ x ∈ sinks ∨ x ∈ sources) ∧
    (∀ u v, Nx.has_edge G u v ↔
            (u, v) ∈ edges ∨ (v, u) ∈ edges ∨
            (u ∈ sinks ∧ v ∈ sinks) ∨ (u ∈ sources ∧ v ∈ sources)).
Proof.
  intros Hlen. unfold Cutting.build_weighted_graph. cbv zeta.
  set (G0 := Nx.add_edges_from
               (Nx.add_edges_from (Nx.add_edges_from Nx.empty edges)
                                  (Np.product sinks sinks))
               (Np.product sources sources)).
  assert (Hedge : ∀ u v, Nx.has_edge G0 u v ↔
            (u, v) ∈ edges ∨ (v, u) ∈ edges ∨
            (u ∈ sinks ∧ v ∈ sinks) ∨ (u ∈ sources ∧ v ∈ sources)).
  { intros u v. unfold G0. rewrite !has_edge_add_edges_from, !elem_of_product.
    split; [|tauto].
    intros [[[[a Ha]|?]|?]|?]; [|tauto..]. simpl in Ha.
    by rewrite lookup_empty in Ha. }
  assert (Hwf : Nx.wf G0) by (do 3 apply wf_add_edges_from; apply wf_empty).
  destruct (set_affinities_return affs (imap (λ i e, (i, e)) edges) G0)
    as (G1 & E1 & S1).
  { intros ie (i & e & -> & Hi)%elem_of_lookup_imap. simpl. split.
    - apply lookup_lt_Some in Hi. lia.
    - apply Hedge. left. destruct e. by eapply list_elem_of_lookup_2. }
  destruct (set_capacities_return Cutting.float_max (Np.product sinks sinks) G1)
    as (G2 & E2 & S2).
  { intros [u v] [Hu Hv]%elem_of_product.
    apply (has_edge_same_shape G0 G1 _ _ S1), Hedge. auto. }
  destruct (set_capacities_return Cutting.float_max (Np.product sources sources) G2)
    as (G3 & E3 & S3).
  { intros [u v] [Hu Hv]%elem_of_product.
    apply (has_edge_same_shape G1 G2 _ _ S2),
          (has_edge_same_shape G0 G1 _ _ S1), Hedge. auto. }
  exists G3. rewrite E1. simpl. rewrite E2. simpl. split; [exact E3|].
  split_and!.
  - by eapply wf_same_shape, wf_same_shape, wf_same_shape.
  - intros x. destruct S1 as [N1 _], S2 as [N2 _], S3 as [N3 _].
    rewrite N3, N2, N1. unfold G0.
    rewrite !elem_of_nodes_add_edges_from, !ravel_product_self_iff. simpl.
    split; [|tauto]. intros [[[[]%elem_of_nil|?]|?]|?]; tauto.
  - intros u v.
    by rewrite (has_edge_same_shape G2 G3 _ _ S3),
               (has_edge_same_shape G1 G2 _ _ S2),
               (has_edge_same_shape G0 G1 _ _ S1).
Qed.

(** X5: given at least as many affinities as edges, building the working
    graph never fails (no assignment of a capacity meets a missing edge);
    its nodes are the ends of the edges and the terminals, and its edges
    are the weighted edges and all pairs of sinks and of sources (each
    terminal with itself included). *)
Theorem build_weighted_graph_returns edges affs sources sinks :
  length edges ≤ length affs →
  ∃ G, Cutting.build_weighted_graph edges affs sources sinks = Return G ∧
    (∀ x, x ∈ Nx.nodes G ↔ x ∈ Np.ravel edges ∨ x ∈ sinks ∨ x ∈ sources) ∧
    (∀ u v, Nx.has_edge G u v ↔
            (u, v) ∈ edges ∨ (v, u) ∈ edges ∨
            (u ∈ sinks ∧ v ∈ sinks) ∨ (u ∈ sources ∧ v ∈ sources)).
Proof.
  intros Hlen.
  destruct (build_weighted_graph_shape edges affs sources sinks Hlen)
    as (G & HG & _ & Hn & He).
  by exists G.
Qed.

(** *** The connectivity check and what follows it *)

Lemma check_components_none_inv G ccs sources sinks :
  Cutting.check_components G ccs sources sinks = None →
  ∃ cc, cc ∈ ccs ∧
    (∃ x, (x ∈ sources ∨ x ∈ sinks) ∧ x ∈ cc) ∧
    (∃ x, (x ∈ sources ∨ x ∈ sinks) ∧ x ∉ cc).
Proof.
  revert G. induction ccs as [|c ccs IH]; intros G; [done|].
  cbn [Cutting.check_components].
  destruct (negb _) eqn:E1.
  { intros (cc & ? & ?)%IH. exists cc. split; [by right|done]. }
  destruct (Np.any (negb <$> Np.in1d sources c)
            || Np.any (negb <$> Np.in1d sinks c)) eqn:E2.
  - intros _. exists c. split; [by left|]. split.
    + apply negb_false_iff, orb_true_iff in E1 as [E1|E1];
        apply any_in1d in E1 as (x & ? & ?); exists x; auto.
    + apply orb_true_iff in E2 as [E2|E2];
        apply any_not_in1d in E2 as (x & ? & ?); exists x; auto.
  - intros (cc & ? & ?)%IH. exists cc. split; [by right|done].
Qed.

Lemma merge_lengths edges affs remapped_edges remapped_affs mapping remapping :
  Cutting.merge_cross_chunk_edges edges affs
  = Return (remapped_edges, remapped_affs, mapping, remapping) →
  length remapped_edges = length remapped_affs.
Proof.
  intros Hrun.
  pose proof (merge_cross_chunk_edges_length _ _ _ Hrun) as Hlen.
  destruct (merge_cross_chunk_edges_structure edges affs Hlen)
    as (re & ra & mp & rm & Hrun' & _ & _ & _ & _ & _ & _ & Hre & Hra).
  rewrite Hrun in Hrun'. injection Hrun' as -> -> -> ->.
  by rewrite Hre, Hra, !length_fmap.
Qed.

Section AfterMerge.

Variables (edges : list (N * N)) (affs : list spec_float) (sources sinks : list N).
Variables (remapped_edges : list (N * N)) (remapped_affs : list spec_float).
Variables (mapping : list (N * N)) (remapping : gmap N (list N)).
Variable (G : Nx.Graph).

Hypothesis Hmerge :
  Cutting.merge_cross_chunk_edges edges affs
  = Return (remapped_edges, remapped_affs, mapping, remapping).
Hypothesis Hweighted : remapped_edges ≠ [].
Hypothesis Hbuild :
  Cutting.build_weighted_graph remapped_edges remapped_affs
    (Spec.rep mapping <$> sources) (Spec.rep mapping <$> sinks) = Return G.

Lemma working_graph_facts :
  Nx.wf G ∧
  (∀ x, x ∈ Nx.nodes G ↔
        x ∈ Np.ravel remapped_edges ∨ x ∈ Spec.rep mapping <$> sinks
        ∨ x ∈ Spec.rep mapping <$> sources).
Proof using Hmerge Hbuild.
  destruct (build_weighted_graph_shape remapped_edges remapped_affs
              (Spec.rep mapping <$> sources) (Spec.rep mapping <$> sinks))
    as (G' & HG' & Hwf & Hn & _).
  { by rewrite (merge_lengths _ _ _ _ _ _ Hmerge). }
  rewrite Hbuild in HG'. injection HG' as <-. by split.
Qed.

(** Every node of the working graph is its own representative. *)
Lemma working_graph_nodes_fixed G' x :
  Cutting.check_components G (Nx.connected_components G)
    (Spec.rep mapping <$> sources) (Spec.rep mapping <$> sinks) = Some G' →
  x ∈ Nx.nodes G' → Spec.rep mapping x = x.
Proof using Hmerge Hbuild.
  intros Hcheck Hx. apply (check_components_nodes _ _ _ _ _ _ Hcheck) in Hx.
  apply working_graph_facts in Hx.
  destruct (merge_facts _ _ _ _ _ _ Hmerge) as (_ & _ & _ & _ & _ & _ & Hre).
  destruct Hx as [Hx|[Hx|Hx]].
  - rewrite Hre in Hx. apply elem_of_ravel in Hx as (e' & He' & Hx).
    apply list_elem_of_fmap in He' as (ea & -> & _). simpl in Hx.
    destruct Hx as [-> | ->]; by eapply rep_idemp.
  - apply list_elem_of_fmap in Hx as (y & -> & _). by eapply rep_idemp.
  - apply list_elem_of_fmap in Hx as (y & -> & _). by eapply rep_idemp.
Qed.

Lemma terminals_disconnected_iff :
  Cutting.check_components G (Nx.connected_components G)
    (Spec.rep mapping <$> sources) (Spec.rep mapping <$> sinks) = None
  ↔ ∃ x y, x ∈ Spec.rep mapping <$> (sources ++ sinks) ∧
           y ∈ Spec.rep mapping <$> (sources ++ sinks) ∧
           ¬ Nx.connected G x y.
Proof using Hmerge Hbuild.
  destruct working_graph_facts as [Hwf Hnodes].
  assert (Hterm : ∀ x, x ∈ Spec.rep mapping <$> (sources ++ sinks) ↔
                       x ∈ Spec.rep mapping <$> sources
                       ∨ x ∈ Spec.rep mapping <$> sinks).
  { intros x. by rewrite fmap_app, elem_of_app. }
  assert (Hin : ∀ x, x ∈ Spec.rep mapping <$> (sources ++ sinks) →
                     x ∈ Nx.nodes G).
  { intros x Hx%Hterm. apply Hnodes. tauto. }
  split.
  - intros (cc & Hcc & (x & Hx & Hxc) & (y & Hy & Hyc))%check_components_none_inv.
    exists x, y. split_and!; [by apply Hterm|by apply Hterm|].
    intros Hxy. apply Hyc.
    apply (component_members _ cc x y Hwf Hcc Hxc). split; [|done].
    by apply Hin, Hterm.
  - intros (x & y & Hx & Hy & Hxy).
    destruct (connected_components_spec G Hwf) as (_ & Hcover & _).
    destruct (Hcover x (Hin x Hx)) as (cc & Hcc & Hxc).
    apply (check_components_disconnected _ _ _ _ cc Hcc).
    + exists x. split; [by apply Hterm|done].
    + exists y. split; [by apply Hterm|].
      intros Hyc. apply Hxy.
      by apply (component_members _ cc x y Hwf Hcc Hxc).
Qed.

Variable minimum_edge_cut : Nx.Graph → N → N → outcome (option (list (N * N))).

(** [mincut], up to the connectivity check. *)
Lemma mincut_to_check :
  Cutting.mincut minimum_edge_cut edges affs sources sinks
  = match Cutting.check_components G (Nx.connected_components G)
            (Spec.rep mapping <$> sources) (Spec.rep mapping <$> sinks) with
    | None => ([Cutting.disconnected_message], Return [])
    | Some G' =>
        ([],
         s ← Np.item (Spec.rep mapping <$> sources) 0;
         t ← Np.item (Spec.rep mapping <$> sinks) 0;
         cutset ← minimum_edge_cut G' s t;
         match cutset with
         | None => Return []
         | Some cutset =>
             _ ← Np.item cutset 0;
             Cutting.uncoalesce remapping cutset edges
         end)
    end.
Proof using Hmerge Hweighted Hbuild.
  unfold Cutting.mincut. rewrite Hmerge.
  rewrite decide_False by (by destruct remapped_edges).
  destruct (merge_mapping_unique _ _ _ _ _ _ Hmerge) as (_ & _ & Hassert).
  rewrite (Hassert Hweighted).
  change (Cutting.remap (Cutting.dict mapping)) with (Spec.rep mapping).
  by rewrite Hbuild.
Qed.

End AfterMerge.

(** X6: once the working graph is built, [mincut] prints the line that
    reports disconnected terminals (and returns the empty list) whenever
    two of the remapped sources and sinks are not connected in the
    working graph; when all of them are connected it does not print that
    line.  (Of what the code prints, the model keeps this line only.) *)
Theorem mincut_reports_disconnected_iff minimum_edge_cut edges affs
    sources sinks remapped_edges remapped_affs mapping remapping G :
  Cutting.merge_cross_chunk_edges edges affs
  = Return (remapped_edges, remapped_affs, mapping, remapping) →
  remapped_edges ≠ [] →
  Cutting.build_weighted_graph remapped_edges remapped_affs
    (Spec.rep mapping <$> sources) (Spec.rep mapping <$> sinks) = Return G →
  ((∃ x y, x ∈ Spec.rep mapping <$> (sources ++ sinks) ∧
           y ∈ Spec.rep mapping <$> (sources ++ sinks) ∧
           ¬ Nx.connected G x y) →
   Cutting.mincut minimum_edge_cut edges affs sources sinks
   = ([Cutting.disconnected_message], Return [])) ∧
  ((∀ x y, x ∈ Spec.rep mapping <$> (sources ++ sinks) →
           y ∈ Spec.rep mapping <$> (sources ++ sinks) →
           Nx.connected G x y) →
   (Cutting.mincut minimum_edge_cut edges affs sources sinks).1 = []).
Proof.
  intros Hmerge Hne Hbuild.
  rewrite (mincut_to_check _ _ _ _ _ _ _ _ _ Hmerge Hne Hbuild minimum_edge_cut).
  pose proof (terminals_disconnected_iff _ _ _ _ _ _ _ _ _ Hmerge Hbuild)
    as Hiff.
  split.
  - intros Hdis. apply Hiff in Hdis. by rewrite Hdis.
  - intros Hall.
    destruct (Cutting.check_components _ _ _ _) eqn:E; [done|].
    destruct (proj1 Hiff eq_refl) as (x & y & Hx & Hy & Hxy).
    by destruct (Hxy (Hall x y Hx Hy)).
Qed.

(** X7: without a source, or without a sink, [mincut] never yields a
    cut: it returns the empty list or raises [IndexError] (from
    [sources[0]] or [sinks[0]]), and the minimum cut routine is not
    asked. *)
Theorem mincut_needs_terminals minimum_edge_cut edges affs sources sinks :
  length edges = length affs →
  sources = [] ∨ sinks = [] →
  (Cutting.mincut minimum_edge_cut edges affs sources sinks).2 = Return [] ∨
  (Cutting.mincut minimum_edge_cut edges affs sources sinks).2
  = Raise IndexError.
Proof.
  intros Hlen Hempty.
  destruct (merge_cross_chunk_edges_structure edges affs Hlen)
    as (re & ra & mp & rm & Hmerge & _).
  destruct (decide (re = [])) as [->|Hne].
  { left. unfold Cutting.mincut. by rewrite Hmerge. }
  destruct (build_weighted_graph_shape re ra
              (Spec.rep mp <$> sources) (Spec.rep mp <$> sinks))
    as (G & Hbuild & _).
  { by rewrite (merge_lengths _ _ _ _ _ _ Hmerge). }
  rewrite (mincut_to_check _ _ _ _ _ _ _ _ _ Hmerge Hne Hbuild minimum_edge_cut).
  destruct (Cutting.check_components _ _ _ _) as [G'|]; [|by left].
  right. cbn [snd]. destruct Hempty as [-> | ->]; [done|].
  destruct (Np.item (Spec.rep mp <$> sources) 0) as [s|e] eqn:Hs; [done|].
  unfold Np.item in Hs. by destruct (_ !! 0); simplify_eq.
Qed.

(** X8: past the connectivity check, the answer of the minimum cut
    routine decides: [None] gives the empty list, an empty cut set
    raises [IndexError] (from [list(cutset)[0]]), and an exception of the
    routine is passed on; in none of these cases is the line that
    reports disconnected terminals printed. *)
Theorem mincut_degenerate_cuts minimum_edge_cut edges affs sources sinks
    remapped_edges remapped_affs mapping remapping G G' s t :
  Cutting.merge_cross_chunk_edges edges affs
  = Return (remapped_edges, remapped_affs, mapping, remapping) →
  remapped_edges ≠ [] →
  Cutting.build_weighted_graph remapped_edges remapped_affs
    (Spec.rep mapping <$> sources) (Spec.rep mapping <$> sinks) = Return G →
  Cutting.check_components G (Nx.connected_components G)
    (Spec.rep mapping <$> sources) (Spec.rep mapping <$> sinks) = Some G' →
  Np.item (Spec.rep mapping <$> sources) 0 = Return s →
  Np.item (Spec.rep mapping <$> sinks) 0 = Return t →
  (minimum_edge_cut G' s t = Return None →
   Cutting.mincut minimum_edge_cut edges affs sources sinks = ([], Return [])) ∧
  (minimum_edge_cut G' s t = Return (Some []) →
   Cutting.mincut minimum_edge_cut edges affs sources sinks
   = ([], Raise IndexError)) ∧
  (∀ e, minimum_edge_cut G' s t = Raise e →
        Cutting.mincut minimum_edge_cut edges affs sources sinks
        = ([], Raise e)).
Proof.
  intros Hmerge Hne Hbuild Hcheck Hs Ht.
  rewrite (mincut_to_check _ _ _ _ _ _ _ _ _ Hmerge Hne Hbuild minimum_edge_cut).
  rewrite Hcheck, Hs, Ht. simpl.
  split_and!; [intros ->|intros ->|intros e ->]; done.
Qed.

(** X9: [mincut] never separates what the cross chunk edges join: when
    the cut set lies in the working graph and no cut edge is a loop, no
    returned edge has its two ends connected by cross chunk edges (so no
    cross chunk edge is ever returned). *)
Theorem mincut_keeps_cross_chunk_components minimum_edge_cut edges affs
    sources sinks remapped_edges remapped_affs mapping remapping G G' s t
    cutset out res :
  Cutting.merge_cross_chunk_edges edges affs
  = Return (remapped_edges, remapped_affs, mapping, remapping) →
  remapped_edges ≠ [] →
  Cutting.build_weighted_graph remapped_edges remapped_affs
    (Spec.rep mapping <$> sources) (Spec.rep mapping <$> sinks) = Return G →
  Cutting.check_components G (Nx.connected_components G)
    (Spec.rep mapping <$> sources) (Spec.rep mapping <$> sinks) = Some G' →
  Np.item (Spec.rep mapping <$> sources) 0 = Return s →
  Np.item (Spec.rep mapping <$> sinks) 0 = Return t →
  minimum_edge_cut G' s t = Return (Some cutset) →
  (∀ cut, cut ∈ cutset →
          cut.1 ∈ Nx.nodes G' ∧ cut.2 ∈ Nx.nodes G' ∧ cut.1 ≠ cut.2) →
  Cutting.mincut minimum_edge_cut edges affs sources sinks = (out, Return res) →
  ∀ e, e ∈ res →
       ¬ Spec.cross_connected edges affs e.1 e.2 ∧
       e ∉ Spec.cross_edges edges affs.
Proof.
  intros Hmerge Hne Hbuild Hcheck Hs Ht Hcut Hnodes Hrun.
  rewrite (mincut_to_check _ _ _ _ _ _ _ _ _ Hmerge Hne Hbuild minimum_edge_cut) in Hrun.
  rewrite Hcheck, Hs, Ht in Hrun. simpl in Hrun. rewrite Hcut in Hrun.
  simpl in Hrun. injection Hrun as _ Hres.
  destruct (Np.item cutset 0) as [edge_cut|]; simpl in Hres; [|done].
  destruct (uncoalesce_spec remapping cutset edges) as (res' & Hun & Hres').
  rewrite Hun in Hres. injection Hres as ->.
  intros [a b] (He & cut & Hc & Hex)%Hres'.
  destruct (Hnodes cut Hc) as (H1 & H2 & Hloop).
  apply (working_graph_nodes_fixed _ _ _ _ _ _ _ _ _ Hmerge Hbuild _ _ Hcheck)
    in H1, H2.
  apply (expand_cut_spec _ _ _ _ _ _ Hmerge cut a b H1 H2) in Hex.
  2, 3: apply elem_of_ravel; exists (a, b); auto.
  assert (Hsep : ¬ Spec.cross_connected edges affs a b).
  { intros Hab.
    apply (rep_eq_of_cross_connected _ _ _ _ _ _ Hmerge) in Hab.
    destruct Hex as [[? ?]|[? ?]]; congruence. }
  split; [done|]. intros Hcross. apply Hsep. by apply rtsc_lr.
Qed.

(** * More on the edit handlers *)

Lemma split_masks {A B C} (a : list A) (sources : list B) (sinks : list C) :
  length a = length sources + length sinks →
  Np.mask_select a ((λ i, bool_decide (i = 0)) <$>
                    (((λ _, 0) <$> sources) ++ ((λ _, 1) <$> sinks)))
  = Return (take (length sources) a) ∧
  Np.mask_select a ((λ i, bool_decide (i = 1)) <$>
                    (((λ _, 0) <$> sources) ++ ((λ _, 1) <$> sinks)))
  = Return (drop (length sources) a).
Proof.
  revert a. induction sources as [|s sources IH]; intros a Hlen.
  - simpl in *. revert a Hlen.
    induction sinks as [|k sinks IH]; intros [|x a] Hlen; simplify_eq/=; [done|].
    destruct (IH a Hlen) as [-> Hd]. rewrite Hd. simpl.
    rewrite take_0, drop_0. done.
  - destruct a as [|x a]; simplify_eq/=.
    destruct (IH a Hlen) as [-> ->]. done.
Qed.

Section MoreHandlerFacts.

Import Common.
Context `{Backend}.

(** X10: the merge handler asks for the edit only when the two looked up
    supervoxels lie at most 3 chunks apart along every axis: beyond that
    it raises [BadRequest] with no further call and nothing published;
    within it, [add_edges] is the next call, with the looked up pair and
    the two coordinates. *)
Theorem merge_chebyshev_guard table req w w' out pre t coords ids rest sv a0 a1 :
  handle_merge table req w = (w', out) →
  cg_calls w' = cg_calls w ++ pre ++ SupervoxelIdLookup t coords ids :: rest →
  handle_supervoxel_id_lookup (cg_calls w ++ pre) t coords ids = Return sv →
  sv !! 0 = Some a0 →
  sv !! 1 = Some a1 →
  ((∃ d, d ∈ zip_with Z.sub (get_chunk_coordinates table a0)
                            (get_chunk_coordinates table a1) ∧
         (3 < Z.abs d)%Z) →
   rest = [] ∧ published w' = published w ∧
   out = Raise (BadRequest
     "Chebyshev distance between merge points exceeded allowed maximum (3 chunks).")) ∧
  ((∀ d, d ∈ zip_with Z.sub (get_chunk_coordinates table a0)
                            (get_chunk_coordinates table a1) →
         (Z.abs d ≤ 3)%Z) →
   rest = [AddEdges table (auth_user_id req) sv (take 1 coords) (drop 1 coords)]).
Proof.
  intros Hrun Htrace Hans H0 H1.
  unfold handle_merge in Hrun. unfold_handler Hrun. unfold Np.item in Hrun.
  run_cases; trace_cases Htrace.
  all: rewrite <- ?app_assoc in Hans; simpl in Hans.
  all: try match goal with
           | Hl : handle_supervoxel_id_lookup ?h ?a ?b ?c = _,
             Hs : handle_supervoxel_id_lookup ?h ?a ?b ?c = _ |- _ =>
               rewrite Hs in Hl; simplify_eq/=
           end.
  all: split.
  all: try (intros (d & Hd & Hlt); exfalso;
            match goal with
            | E : existsb _ _ = false |- _ =>
                apply not_true_iff_false in E; apply E;
                apply existsb_exists; exists d; split;
                [by apply list_elem_of_In|by apply bool_decide_eq_true]
            end).
  all: try (intros Hall; exfalso;
            match goal with
            | E : existsb _ _ = true |- _ =>
                apply existsb_exists in E as (d & Hd%list_elem_of_In & Hlt);
                apply bool_decide_eq_true in Hlt;
                specialize (Hall d Hd); lia
            end).
  all: try done.
  all: done.
Qed.

Lemma handle_merge_unpublished table req w w' out pre t u ae sc kc ans :
  handle_merge table req w = (w', out) →
  cg_calls w' = cg_calls w ++ pre ++ [AddEdges t u ae sc kc] →
  add_edges (cg_calls w ++ pre) t u ae sc kc = ans →
  match ans with
  | Raise _ => published w' = published w
  | Return ret => new_root_ids ret = None → published w' = published w
  end.
Proof.
  intros Hrun Htrace. unfold handle_merge in Hrun. unfold_handler Hrun.
  run_cases; trace_cases Htrace.
  all: intros <-.
  all: match goal with
       | Hadd : add_edges _ _ _ _ _ _ = _ |- _ =>
           rewrite <- app_assoc in Hadd; simpl in Hadd; rewrite Hadd
       end.
  all: first [done|intros ?; congruence].
Qed.

Lemma handle_split_unpublished table req w w' out pre t u src snk sc kc mc ans :
  handle_split table req w = (w', out) →
  cg_calls w' = cg_calls w ++ pre ++ [RemoveEdges t u src snk sc kc mc] →
  remove_edges (cg_calls w ++ pre) t u src snk sc kc mc = ans →
  match ans with
  | Raise _ => published w' = published w
  | Return ret => new_root_ids ret = None → published w' = published w
  end.
Proof.
  intros Hrun Htrace. unfold handle_split in Hrun. unfold_handler Hrun.
  run_cases; trace_cases Htrace.
  all: intros <-.
  all: match goal with
       | G : RemoveEdges _ _ _ _ _ _ _ = RemoveEdges _ _ _ _ _ _ _ |- _ =>
           injection G as <- <- <- <- <- <- <-
       end.
  all: match goal with
       | Hrem : remove_edges _ _ _ _ _ _ _ _ = _ |- _ =>
           rewrite <- app_assoc in Hrem; simpl in Hrem; rewrite Hrem
       end.
  all: first [done|intros ?; congruence].
Qed.

Lemma handle_undo_unpublished table req w w' out pre t u op e :
  handle_undo table req w = (w', out) →
  cg_calls w' = cg_calls w ++ pre ++ [Undo t u op] →
  undo (cg_calls w ++ pre) t u op = Raise e →
  published w' = published w.
Proof.
  intros Hrun Htrace. unfold handle_undo in Hrun. unfold_handler Hrun.
  run_cases; trace_cases Htrace.
  all: first [done|intros ?; congruence].
Qed.

Lemma handle_redo_unpublished table req w w' out pre t u op e :
  handle_redo table req w = (w', out) →
  cg_calls w' = cg_calls w ++ pre ++ [Redo t u op] →
  redo (cg_calls w ++ pre) t u op = Raise e →
  published w' = published w.
Proof.
  intros Hrun Htrace. unfold handle_redo in Hrun. unfold_handler Hrun.
  run_cases; trace_cases Htrace.
  all: first [done|intros ?; congruence].
Qed.

(** X11: when the edit of a merge, split, undo or redo raises, whatever
    the exception, and when the edit of a merge or of a split returns a
    result without roots, the handler publishes nothing: it ends before
    it reaches [publish_edit]. *)
Theorem failed_edit_publishes_nothing table req w w' out pre t u :
  (∀ ae sc kc,
     handle_merge table req w = (w', out) →
     cg_calls w' = cg_calls w ++ pre ++ [AddEdges t u ae sc kc] →
     (∀ e, add_edges (cg_calls w ++ pre) t u ae sc kc = Raise e →
           published w' = published w) ∧
     (∀ ret, add_edges (cg_calls w ++ pre) t u ae sc kc = Return ret →
             new_root_ids ret = None → published w' = published w)) ∧
  (∀ src snk sc kc mc,
     handle_split table req w = (w', out) →
     cg_calls w' = cg_calls w ++ pre ++ [RemoveEdges t u src snk sc kc mc] →
     (∀ e, remove_edges (cg_calls w ++ pre) t u src snk sc kc mc = Raise e →
           published w' = published w) ∧
     (∀ ret, remove_edges (cg_calls w ++ pre) t u src snk sc kc mc
             = Return ret →
             new_root_ids ret = None → published w' = published w)) ∧
  (∀ op e,
     handle_undo table req w = (w', out) →
     cg_calls w' = cg_calls w ++ pre ++ [Undo t u op] →
     undo (cg_calls w ++ pre) t u op = Raise e →
     published w' = published w) ∧
  (∀ op e,
     handle_redo table req w = (w', out) →
     cg_calls w' = cg_calls w ++ pre ++ [Redo t u op] →
     redo (cg_calls w ++ pre) t u op = Raise e →
     published w' = published w).
Proof.
  split_and!.
  - intros ae sc kc Hrun Htrace. split.
    + intros e Hans.
      apply (handle_merge_unpublished _ _ _ _ _ _ _ _ _ _ _ _ Hrun Htrace Hans).
    + intros ret Hans.
      apply (handle_merge_unpublished _ _ _ _ _ _ _ _ _ _ _ _ Hrun Htrace Hans).
  - intros src snk sc kc mc Hrun Htrace. split.
    + intros e Hans.
      apply (handle_split_unpublished _ _ _ _ _ _ _ _ _ _ _ _ _ _
               Hrun Htrace Hans).
    + intros ret Hans.
      apply (handle_split_unpublished _ _ _ _ _ _ _ _ _ _ _ _ _ _
               Hrun Htrace Hans).
  - intros op e. apply handle_undo_unpublished.
  - intros op e. apply handle_redo_unpublished.
Qed.

(** X12: an exception of the edit other than [LockingError] and
    [PreconditionError] leaves the merge and the split handler as it is;
    a [PostconditionError] is one of them. *)
Theorem merge_split_pass_other_errors table req w w' out pre t u e :
  (∀ msg, e ≠ LockingError msg) →
  (∀ msg, e ≠ PreconditionError msg) →
  (∀ ae sc kc,
     handle_merge table req w = (w', out) →
     cg_calls w' = cg_calls w ++ pre ++ [AddEdges t u ae sc kc] →
     add_edges (cg_calls w ++ pre) t u ae sc kc = Raise e →
     out = Raise e) ∧
  (∀ src snk sc kc mc,
     handle_split table req w = (w', out) →
     cg_calls w' = cg_calls w ++ pre ++ [RemoveEdges t u src snk sc kc mc] →
     remove_edges (cg_calls w ++ pre) t u src snk sc kc mc = Raise e →
     out = Raise e).
Proof.
  intros Hlock Hpre. split.
  - intros ae sc kc Hrun Htrace Hans.
    pose proof (handle_merge_after_edit _ _ _ _ _ _ _ _ _ _ _ _
                  Hrun Htrace Hans) as Hout.
    destruct e; try done; [by destruct (Hlock msg)|by destruct (Hpre msg)].
  - intros src snk sc kc mc Hrun Htrace Hans.
    pose proof (handle_split_after_edit _ _ _ _ _ _ _ _ _ _ _ _ _ _
                  Hrun Htrace Hans) as Hout.
    destruct e; try done; [by destruct (Hlock msg)|by destruct (Hpre msg)].
Qed.

Lemma handle_undo_after_edit table req w w' out pre t u op ans :
  handle_undo table req w = (w', out) →
  cg_calls w' = cg_calls w ++ pre ++ [Undo t u op] →
  undo (cg_calls w ++ pre) t u op = ans →
  match ans with
  | Raise (LockingError _) =>
      out = Raise (InternalServerError
                     "Could not acquire root lock for undo operation.")
  | Raise (PreconditionError msg) => out = Raise (BadRequest msg)
  | Raise (PostconditionError msg) => out = Raise (BadRequest msg)
  | Raise e => out = Raise e
  | Return ret =>
      match new_lvl2_ids ret, new_root_ids ret with
      | _ :: _, None => out = Raise AttributeError
      | _, _ => out = Return ret
      end
  end.
Proof.
  intros Hrun Htrace. unfold handle_undo in Hrun. unfold_handler Hrun.
  run_cases; trace_cases Htrace.
  all: intros <-.
  all: match goal with
       | Hans : undo _ _ _ _ = _ |- _ => rewrite Hans
       end.
  all: repeat (case_match; simplify_eq/=); try done; simpl in *; lia.
Qed.

Lemma handle_redo_after_edit table req w w' out pre t u op ans :
  handle_redo table req w = (w', out) →
  cg_calls w' = cg_calls w ++ pre ++ [Redo t u op] →
  redo (cg_calls w ++ pre) t u op = ans →
  match ans with
  | Raise (LockingError _) =>
      out = Raise (InternalServerError
                     "Could not acquire root lock for redo operation.")
  | Raise (PreconditionError msg) => out = Raise (BadRequest msg)
  | Raise (PostconditionError msg) => out = Raise (BadRequest msg)
  | Raise e => out = Raise e
  | Return ret =>
      match new_lvl2_ids ret, new_root_ids ret with
      | _ :: _, None => out = Raise AttributeError
      | _, _ => out = Return ret
      end
  end.
Proof.
  intros Hrun Htrace. unfold handle_redo in Hrun. unfold_handler Hrun.
  run_cases; trace_cases Htrace.
  all: intros <-.
  all: match goal with
       | Hans : redo _ _ _ _ = _ |- _ => rewrite Hans
       end.
  all: repeat (case_match; simplify_eq/=); try done; simpl in *; lia.
Qed.

(** X13: when the edit of an undo or of a redo raises [LockingError],
    the handler raises [InternalServerError]; when it raises
    [PreconditionError] or [PostconditionError], the handler raises
    [BadRequest] with the same message (the merge and the split handler
    let a [PostconditionError] through). *)
Theorem undo_redo_errors_are_converted table req w w' out pre t u op :
  (handle_undo table req w = (w', out) →
   cg_calls w' = cg_calls w ++ pre ++ [Undo t u op] →
   (∀ msg, undo (cg_calls w ++ pre) t u op = Raise (LockingError msg) →
           out = Raise (InternalServerError
                          "Could not acquire root lock for undo operation.")) ∧
   (∀ msg, undo (cg_calls w ++ pre) t u op = Raise (PreconditionError msg) ∨
           undo (cg_calls w ++ pre) t u op = Raise (PostconditionError msg) →
           out = Raise (BadRequest msg))) ∧
  (handle_redo table req w = (w', out) →
   cg_calls w' = cg_calls w ++ pre ++ [Redo t u op] →
   (∀ msg, redo (cg_calls w ++ pre) t u op = Raise (LockingError msg) →
           out = Raise (InternalServerError
                          "Could not acquire root lock for redo operation.")) ∧
   (∀ msg, redo (cg_calls w ++ pre) t u op = Raise (PreconditionError msg) ∨
           redo (cg_calls w ++ pre) t u op = Raise (PostconditionError msg) →
           out = Raise (BadRequest msg))).
Proof.
  split; intros Hrun Htrace; split; intros msg Hans.
  - apply (handle_undo_after_edit _ _ _ _ _ _ _ _ _ _ Hrun Htrace Hans).
  - destruct Hans as [Hans|Hans];
      apply (handle_undo_after_edit _ _ _ _ _ _ _ _ _ _ Hrun Htrace Hans).
  - apply (handle_redo_after_edit _ _ _ _ _ _ _ _ _ _ Hrun Htrace Hans).
  - destruct Hans as [Hans|Hans];
      apply (handle_redo_after_edit _ _ _ _ _ _ _ _ _ _ Hrun Htrace Hans).
Qed.

(** X14: the undo and the redo handler do not test the roots of the
    result: a result without roots ([new_root_ids] is [None]) is returned
    when it has no new level 2 id, and ends in [AttributeError], raised
    while the message is built, when it has one. *)
Theorem undo_redo_do_not_test_roots table req w w' out pre t u op ret :
  new_root_ids ret = None →
  (handle_undo table req w = (w', out) →
   cg_calls w' = cg_calls w ++ pre ++ [Undo t u op] →
   undo (cg_calls w ++ pre) t u op = Return ret →
   (new_lvl2_ids ret = [] → out = Return ret) ∧
   (new_lvl2_ids ret ≠ [] → out = Raise AttributeError)) ∧
  (handle_redo table req w = (w', out) →
   cg_calls w' = cg_calls w ++ pre ++ [Redo t u op] →
   redo (cg_calls w ++ pre) t u op = Return ret →
   (new_lvl2_ids ret = [] → out = Return ret) ∧
   (new_lvl2_ids ret ≠ [] → out = Raise AttributeError)).
Proof.
  intros Hnone. split; intros Hrun Htrace Hans.
  - pose proof (handle_undo_after_edit _ _ _ _ _ _ _ _ _ _ Hrun Htrace Hans)
      as Hout.
    simpl in Hout. rewrite Hnone in Hout.
    by destruct (new_lvl2_ids ret).
  - pose proof (handle_redo_after_edit _ _ _ _ _ _ _ _ _ _ Hrun Htrace Hans)
      as Hout.
    simpl in Hout. rewrite Hnone in Hout.
    by destruct (new_lvl2_ids ret).
Qed.

(** X15: the split handler hands [remove_edges] the looked up ids in two
    parts: the first ones, as many as there are sources in the request,
    as source ids and the rest as sink ids, with the coordinates of the
    sources and of the sinks; the lookup has then returned one id for
    each node of the request. *)
Theorem split_partitions_lookup table req w w' out pre t u src snk sc kc mc
    sources sinks :
  handle_split table req w = (w', out) →
  data req = TerminalsBody sources sinks →
  cg_calls w' = cg_calls w ++ pre ++ [RemoveEdges t u src snk sc kc mc] →
  ∃ sv,
    handle_supervoxel_id_lookup (cg_calls w ++ [GetCg table]) table
      (scale table <$> (sources ++ sinks)) (sources ++ sinks).*1 = Return sv ∧
    length sv = length sources + length sinks ∧
    src = take (length sources) sv ∧ snk = drop (length sources) sv ∧
    sc = scale table <$> sources ∧ kc = scale table <$> sinks ∧
    t = table ∧ u = auth_user_id req ∧ mc = arg_bool req "mincut".
Proof.
  intros Hrun Hdata Htrace. unfold handle_split in Hrun. rewrite Hdata in Hrun.
  unfold_handler Hrun.
  run_cases; trace_cases Htrace.
  all: match goal with
       | G : RemoveEdges _ _ _ _ _ _ _ = RemoveEdges _ _ _ _ _ _ _ |- _ =>
           injection G as <- <- <- <- <- <- <-
       end.
  all: match goal with
       | Hl : handle_supervoxel_id_lookup _ _ _ _ = Return ?sv |- _ =>
           exists sv; split; [first [exact Hl|reflexivity]|];
           assert (Hlen : length sv = length sources + length sinks)
       end.
  all: try (match goal with
            | Hm : Np.mask_select ?sv _ = Return _ |- length ?sv = _ =>
                apply mask_select_length in Hm;
                by rewrite Hm, length_fmap, length_app, !length_fmap
            end).
  all: split; [done|].
  all: assert (Hlenc : length (scale table <$> sources ++ sinks)
                       = length sources + length sinks)
         by (by rewrite length_fmap, length_app).
  all: destruct (split_masks _ sources sinks Hlen) as [Hs1 Hs2].
  all: destruct (split_masks _ sources sinks Hlenc) as [Hc1 Hc2].
  all: repeat match goal with
              | Hm : Np.mask_select _ _ = Return _ |- _ =>
                  first [rewrite Hs1 in Hm|rewrite Hs2 in Hm
                        |rewrite Hc1 in Hm|rewrite Hc2 in Hm];
                  injection Hm as <-
              end.
  all: rewrite fmap_app, take_app_length', drop_app_length'
         by (by rewrite length_fmap).
  all: done.
Qed.

(** *** More on the operations of a user and on the rollback *)

Lemma StronglySorted_sublist {A} (R : relation A) (l k : list A) :
  l `sublist_of` k → StronglySorted R k → StronglySorted R l.
Proof.
  induction 1 as [|x l k Hsub IH|x l k Hsub IH]; intros Hk; [done|..].
  - apply StronglySorted_inv in Hk as [Hk Hall]. constructor; [by apply IH|].
    apply Forall_forall. intros y Hy. apply (proj1 (Forall_forall _ _) Hall).
    by eapply elem_of_sublist.
  - apply StronglySorted_inv in Hk as [Hk _]. by apply IH.
Qed.

Lemma StronglySorted_le_lt (l : list N) :
  StronglySorted N.le l → NoDup l → StronglySorted N.lt l.
Proof.
  induction 1 as [|x l Hs IH Hall]; intros Hnd; [constructor|].
  apply NoDup_cons in Hnd as [Hx Hnd]. constructor; [by apply IH|].
  apply Forall_forall. intros y Hy.
  pose proof (proj1 (Forall_forall _ _) Hall y Hy).
  assert (x ≠ y) by (by intros ->). lia.
Qed.

Lemma sorted_rows_keys (m : gmap N log_entry) :
  StronglySorted N.lt (sorted_rows m).*1.
Proof.
  assert (Hkeys : (sorted_rows m).*1 = merge_sort N.le (map_to_list m).*1).
  { unfold sorted_rows. apply omap_keys_fst. intros k.
    rewrite merge_sort_Permutation.
    intros ([k' e] & -> & Hin%elem_of_map_to_list)%list_elem_of_fmap.
    by eexists. }
  apply StronglySorted_le_lt.
  - rewrite Hkeys. apply (StronglySorted_merge_sort N.le).
  - apply sorted_rows_spec.
Qed.

Lemma zip_fst_snd {A B C} (f : A → B) (g : A → C) (l : list A) :
  zip (f <$> l) (g <$> l) = (λ r, (f r, g r)) <$> l.
Proof. induction l as [|r l IH]; simpl; [done|]. by f_equal. Qed.

(** What [all_user_operations] returns for the rows [rows]. *)
Lemma user_operations_spec (rows : gmap N log_entry) (target : string) :
  let valid := filter (λ r, UserID r.2 = target) (sorted_rows rows) in
  let ids := valid.*1 in
  let tss := (λ r, timestamp r.2) <$> valid in
  StronglySorted N.lt ids ∧ length ids = length tss ∧
  ∀ id ts, (id, ts) ∈ zip ids tss ↔
           ∃ e, rows !! id = Some e ∧ UserID e = target ∧ timestamp e = ts.
Proof.
  intros valid ids tss. split_and!.
  - eapply StronglySorted_sublist; [|apply (sorted_rows_keys rows)].
    apply fmap_sublist, sublist_filter.
  - unfold ids, tss. by rewrite !length_fmap.
  - intros id ts.
    destruct (rollback_operations_spec rows target) as (Hops & _).
    rewrite <- Hops. by rewrite sort_desc_perm.
Qed.

(** The order of the rollback: later operations first and, of two
    operations with the same timestamp, the smaller id first. *)
Local Abbreviation rollback_order :=
  (λ a b : N * Z, (b.2 < a.2)%Z ∨ (b.2 = a.2 ∧ (a.1 < b.1)%N)).

Lemma insert_desc_stable x l :
  StronglySorted rollback_order l →
  Forall (λ y, (x.1 < y.1)%N) l →
  StronglySorted rollback_order (insert_desc x l).
Proof.
  induction 1 as [|y l Hs IH Hall]; intros Hx; simpl.
  - repeat constructor.
  - apply Forall_cons in Hx as [Hxy Hx]. case_decide as Hle.
    + constructor; [by constructor|]. constructor; [lia|].
      apply Forall_forall. intros z Hz.
      pose proof (proj1 (Forall_forall _ _) Hall z Hz).
      pose proof (proj1 (Forall_forall _ _) Hx z Hz). simpl in *. lia.
    + constructor; [by apply IH|]. rewrite insert_desc_perm.
      constructor; [lia|done].
Qed.

Lemma sort_desc_stable l :
  StronglySorted (λ a b : N * Z, (a.1 < b.1)%N) l →
  StronglySorted rollback_order (sort_desc l).
Proof.
  induction 1 as [|x l Hs IH Hall]; simpl; [constructor|].
  apply insert_desc_stable; [done|]. by rewrite sort_desc_perm.
Qed.

Lemma rollback_operations_stable (rows : gmap N log_entry) (target : string) :
  let valid := filter (λ r, UserID r.2 = target) (sorted_rows rows) in
  StronglySorted rollback_order
    (sort_desc (zip valid.*1 ((λ r, timestamp r.2) <$> valid))).
Proof.
  intros valid. apply sort_desc_stable.
  rewrite (zip_fst_snd fst (λ r, timestamp r.2)).
  destruct (user_operations_spec rows target) as (Hsorted & _).
  fold valid in Hsorted. clear -Hsorted.
  induction valid as [|r v IH]; [constructor|].
  rewrite fmap_cons in Hsorted.
  apply StronglySorted_inv in Hsorted as [Hs Hall].
  rewrite fmap_cons. constructor; [by apply IH|].
  apply Forall_forall. intros z (y & -> & Hy)%list_elem_of_fmap.
  apply (proj1 (Forall_forall _ _) Hall). apply list_elem_of_fmap. by exists y.
Qed.

Lemma rollback_one_published table user target operation w w' out :
  rollback_one table user target operation w = (w', out) →
  ∃ ms, published w' = published w ++ ms ∧
        Forall (λ m, attr_table_id m = table ∧ attr_user_id m = user ∧
                     attr_remesh_priority m = "false") ms.
Proof.
  intros Hrun. unfold rollback_one in Hrun. unfold_handler Hrun.
  run_cases.
  all: first [by exists []; rewrite app_nil_r
             |by eexists [_]; split; [done|repeat constructor]].
Qed.

Lemma rollback_loop_published table user target operations w w' out :
  rollback_loop table user target operations w = (w', out) →
  ∃ ms, published w' = published w ++ ms ∧
        Forall (λ m, attr_table_id m = table ∧ attr_user_id m = user ∧
                     attr_remesh_priority m = "false") ms.
Proof.
  revert w. induction operations as [|op ops IH]; intros w Hrun.
  - injection Hrun as <- <-. exists []. by rewrite app_nil_r.
  - cbn [rollback_loop] in Hrun. unfold mbind, handler_bind in Hrun.
    destruct (rollback_one table user target op w) as [w1 [r1|e1]] eqn:E1.
    + apply rollback_one_published in E1 as (ms1 & Hp1 & Hms1).
      destruct (IH w1 Hrun) as (ms & Hp & Hms). exists (ms1 ++ ms). split.
      * by rewrite Hp, Hp1, <- app_assoc.
      * by apply Forall_app.
    + injection Hrun as <- <-. by apply rollback_one_published in E1.
Qed.

(** X16: every message that a rollback publishes carries the table, the
    id of the user who asked for the rollback (the undo itself is made in
    the name of the target user) and the remesh priority "false",
    whatever the request says about the priority. *)
Theorem rollback_publishes_for_the_caller table req w w' out :
  handle_rollback table req w = (w', out) →
  ∃ ms, published w' = published w ++ ms ∧
        Forall (λ m, attr_table_id m = table ∧
                     attr_user_id m = auth_user_id req ∧
                     attr_remesh_priority m = "false") ms.
Proof.
  intros Hrun.
  unfold handle_rollback, all_user_operations, arg_user_id, parse_start_time
    in Hrun.
  unfold_handler Hrun. run_cases.
  all: try (exists []; by rewrite app_nil_r).
  all: match goal with
       | Hloop : rollback_loop _ _ _ _ _ = _ |- _ =>
           by apply rollback_loop_published in Hloop
       end.
Qed.

(** X17: [all_user_operations], when it returns, has made two calls
    (the graph, then the log rows since the start time of the request:
    the datetime of its [start_time] argument, or the epoch without one)
    and published nothing; the ids it returns are strictly ascending,
    the timestamps are as many, and the pairs of an id and the timestamp
    at the same index are the rows of the target user. *)
Theorem all_user_operations_result table req w w' ids tss :
  all_user_operations table req w = (w', Return (ids, tss)) →
  ∃ target start rows,
    args req !! "user_id" = Some target ∧
    (match args req !! "start_time" with
     | None => start = 0%Z
     | Some s => datetime_of_string s = Return start
     end) ∧
    cg_calls w' = cg_calls w ++ [GetCg table; ReadLogRows table start] ∧
    read_log_rows (cg_calls w ++ [GetCg table]) table start = Return rows ∧
    published w' = published w ∧
    StronglySorted N.lt ids ∧ length ids = length tss ∧
    ∀ id ts, (id, ts) ∈ zip ids tss ↔
             ∃ e, rows !! id = Some e ∧ UserID e = target ∧ timestamp e = ts.
Proof.
  intros Hrun.
  unfold all_user_operations, arg_user_id, parse_start_time in Hrun.
  unfold_handler Hrun. run_cases.
  all: match goal with
       | Hu : args _ !! "user_id" = Some ?u,
         Hr : read_log_rows _ _ ?s = Return ?rows |- _ =>
           exists u, s, rows;
           destruct (user_operations_spec rows u) as (Hs & Hl & Hz)
       end.
  all: rewrite <- app_assoc; by split_and!.
Qed.

Lemma handle_rollback_run table req w w' out pre start rest rows target :
  handle_rollback table req w = (w', out) →
  cg_calls w' = cg_calls w ++ pre ++ ReadLogRows table start :: rest →
  read_log_rows (cg_calls w ++ pre) table start = Return rows →
  args req !! "user_id" = Some target →
  let valid := filter (λ r, UserID r.2 = target) (sorted_rows rows) in
  ∃ k, rest = UndoOperation table target <$>
                (take k (sort_desc (zip valid.*1
                                        ((λ r, timestamp r.2) <$> valid)))).*1 ∧
       (∀ r, out = Return r →
             r = (valid.*1, (λ r, timestamp r.2) <$> valid)).
Proof.
  intros Hrun Htrace Hrows Htarget.
  unfold handle_rollback, all_user_operations, arg_user_id, parse_start_time
    in Hrun.
  rewrite Htarget in Hrun. unfold_handler Hrun.
  run_cases; try (trace_cases Htrace; fail).
  all: try match goal with
           | Hloop : rollback_loop _ _ _ _ _ = _ |- _ =>
               apply rollback_loop_trace in Hloop as (k & Hk & Hdone);
               simpl in Hk; rewrite Hk in Htrace
           end.
  all: trace_cases Htrace;
    try match goal with
        | G : _ <$> _ = _ |- _ => by apply undo_calls_no_read in G
        | G : _ <$> _ = _ ++ _ |- _ => by apply undo_calls_no_read in G
        end.
  all: try match goal with
           | G : _ <$> _ = ReadLogRows ?t ?s :: ?r |- _ =>
               by apply (undo_calls_no_read _ _ _ [] t s r) in G
           | G : _ <$> _ = ?c :: ?p ++ ReadLogRows ?t ?s :: ?r |- _ =>
               by apply (undo_calls_no_read _ _ _ (c :: p) t s r) in G
           end.
  all: match goal with
       | Hread : read_log_rows _ _ _ = _ |- _ =>
           rewrite <- app_assoc in Hread; simpl in Hread;
           rewrite Hread in Hrows; simplify_eq
       end.
  all: exists k; split; [done|].
  all: by intros r [= <-].
Qed.

(** X18: a rollback validates its arguments before it touches the log:
    without a [user_id] argument it raises [BadRequestKeyError] with no
    call at all; with a [start_time] whose conversion raises, it ends
    after asking for the graph only, in [BadRequest] when the exception
    is a [ValueError] or a [TypeError] and in the exception itself
    otherwise (an [OverflowError] is not caught).  In each case nothing
    is undone and nothing is published. *)
Theorem rollback_rejects_bad_arguments table req w :
  table ∉ deny_list →
  (args req !! "user_id" = None →
   (handle_rollback table req w).2 = Raise BadRequestKeyError ∧
   cg_calls (handle_rollback table req w).1 = cg_calls w ∧
   published (handle_rollback table req w).1 = published w) ∧
  (∀ target s e,
     args req !! "user_id" = Some target →
     args req !! "start_time" = Some s →
     datetime_of_string s = Raise e →
     get_cg (cg_calls w) table = Return () →
     (e = ValueError ∨ e = OtherError "TypeError" →
      (handle_rollback table req w).2
      = Raise (BadRequest
          "Timestamp parameter start_time is not a valid unix timestamp")) ∧
     (e ≠ ValueError → e ≠ OtherError "TypeError" →
      (handle_rollback table req w).2 = Raise e) ∧
     cg_calls (handle_rollback table req w).1 = cg_calls w ++ [GetCg table] ∧
     published (handle_rollback table req w).1 = published w).
Proof.
  intros Hallowed.
  unfold handle_rollback, all_user_operations, arg_user_id, parse_start_time.
  rewrite decide_False by done. split.
  - intros ->. done.
  - intros target s e -> -> Hs Hcg.
    unfold mbind, handler_bind, mret, handler_ret, call, raise, set_table_id,
      set_user_id, try_except, lift.
    simpl. rewrite Hcg, Hs.
    destruct e; simpl; try case_decide; simpl; subst.
    all: split_and!; try done.
    all: first [intros [?|?]; congruence|intros ? ?; congruence].
Qed.

(** X19: the rollback sorts stably: once it has read the log rows, it
    calls [undo_operation] for the operations of the target user with
    later timestamps first and, among operations with the same timestamp,
    with the smaller id first; what it returns in the end is not in that
    order but in ascending order of the ids. *)
Theorem rollback_order_is_stable table req w w' out pre start rest rows
    target :
  handle_rollback table req w = (w', out) →
  cg_calls w' = cg_calls w ++ pre ++ ReadLogRows table start :: rest →
  read_log_rows (cg_calls w ++ pre) table start = Return rows →
  args req !! "user_id" = Some target →
  ∃ (ops : list (N * Z)) k,
    rest = UndoOperation table target <$> (take k ops).*1 ∧
    (∀ id ts, (id, ts) ∈ ops ↔
              ∃ e, rows !! id = Some e ∧ UserID e = target ∧ timestamp e = ts) ∧
    StronglySorted rollback_order ops ∧
    (∀ ids tss, out = Return (ids, tss) →
                StronglySorted N.lt ids ∧ zip ids tss ≡ₚ ops).
Proof.
  intros Hrun Htrace Hrows Htarget.
  destruct (handle_rollback_run _ _ _ _ _ _ _ _ _ _ Hrun Htrace Hrows Htarget)
    as (k & Hrest & Hout).
  destruct (rollback_operations_spec rows target) as (Hops & _).
  destruct (user_operations_spec rows target) as (Hsorted & _).
  eexists _, k. split_and!; [exact Hrest|exact Hops| |].
  - apply rollback_operations_stable.
  - intros ids tss Hret. apply Hout in Hret as [= -> ->].
    split; [done|]. by rewrite sort_desc_perm.
Qed.

End MoreHandlerFacts.

(** * The read handlers *)

Section ReadHandlerFacts.

Import Common Reads.
Context `{Backend} `{Reader}.

Lemma sorted_rows_fst (m : gmap N log_entry) :
  (sorted_rows m).*1 = merge_sort N.le (map_to_list m).*1.
Proof.
  unfold sorted_rows. apply omap_keys_fst. intros k.
  rewrite merge_sort_Permutation.
  intros ([k' e] & -> & Hin%elem_of_map_to_list)%list_elem_of_fmap.
  by eexists.
Qed.

(** X20: [tabular_change_log_recent], when it returns, has made two
    calls (the graph, then the log rows since the start time) and
    published nothing; its three columns have one length, the ids are
    all the keys of the rows read, strictly ascending, and the timestamp
    and the user at an index are those of the row of the id at that
    index. *)
Theorem tabular_change_log_recent_result table req w w' ids tss users :
  tabular_change_log_recent table req w = (w', Return (ids, tss, users)) →
  ∃ start rows,
    (match args req !! "start_time" with
     | None => start = 0%Z
     | Some s => datetime_of_string s = Return start
     end) ∧
    cg_calls w' = cg_calls w ++ [GetCg table; ReadLogRows table start] ∧
    read_log_rows (cg_calls w ++ [GetCg table]) table start = Return rows ∧
    published w' = published w ∧
    StronglySorted N.lt ids ∧
    (∀ id, id ∈ ids ↔ is_Some (rows !! id)) ∧
    length tss = length ids ∧ length users = length ids ∧
    ∀ i id, ids !! i = Some id →
            ∃ e, rows !! id = Some e ∧ tss !! i = Some (timestamp e) ∧
                 users !! i = Some (UserID e).
Proof.
  intros Hrun.
  unfold tabular_change_log_recent, parse_start_time in Hrun.
  unfold_handler Hrun. run_cases.
  all: match goal with
       | Hr : read_log_rows _ _ ?s = Return ?rows |- _ =>
           exists s, rows; rewrite <- (sorted_rows_fst rows);
           destruct (sorted_rows_spec rows) as [Hnd Hrows]
       end.
  all: rewrite <- app_assoc.
  all: split_and!; [done|done|done|done|apply sorted_rows_keys| |
                    by rewrite !length_fmap|by rewrite !length_fmap|].
  all: try (intros id; rewrite list_elem_of_fmap; split;
            [intros ([k e] & -> & Hin); exists e; by apply Hrows
            |intros [e He]; exists (id, e); split; [done|by apply Hrows]]).
  all: intros i id Hi; rewrite list_lookup_fmap in Hi;
    match goal with
    | _ : read_log_rows _ _ _ = Return ?rows |- _ =>
        destruct (sorted_rows rows !! i) as [[k e]|] eqn:E; simplify_eq/=;
        exists e; rewrite !list_lookup_fmap, E;
        split; [by apply Hrows; eapply list_elem_of_lookup_2|done]
    end.
Qed.

Lemma restrict_rows (l : list (N * log_entry)) (target : string) :
  zip (filter (λ r, UserID r.2 = target) l).*1
      ((λ r, timestamp r.2) <$> filter (λ r, UserID r.2 = target) l)
  = fst <$> filter (λ r : N * Z * string, r.2 = target)
              (zip (zip l.*1 ((λ r, timestamp r.2) <$> l))
                   ((λ r, UserID r.2) <$> l)).
Proof.
  induction l as [|r l IH]; [done|].
  rewrite !fmap_cons. cbn [zip zip_with]. rewrite !filter_cons. simpl.
  case_decide; [|done]. rewrite !fmap_cons. cbn [zip zip_with]. by f_equal.
Qed.

(** X21: what [all_user_operations] returns is the recent change log
    restricted to the target user: the rows of
    [tabular_change_log_recent] whose user is the target, in their order,
    without the user column. *)
Theorem user_operations_restrict_change_log table req w w1 w2 ids tss
    ids' tss' users' target :
  all_user_operations table req w = (w1, Return (ids, tss)) →
  tabular_change_log_recent table req w = (w2, Return (ids', tss', users')) →
  args req !! "user_id" = Some target →
  zip ids tss
  = fst <$> filter (λ r : N * Z * string, r.2 = target)
              (zip (zip ids' tss') users').
Proof.
  intros Hops Htab Htarget.
  unfold all_user_operations, arg_user_id, parse_start_time in Hops.
  unfold tabular_change_log_recent, parse_start_time in Htab.
  rewrite Htarget in Hops.
  unfold_handler Hops. unfold_handler Htab. run_cases.
  all: rewrite <- sorted_rows_fst; apply restrict_rows.
Qed.

Local Abbreviation array_body :=
  (λ (l2_chunk_array : list N) (row : N * list (list N)),
     svs ← Np.item row.2 0;
     Return (l2_chunk_array ++ mjoin ((λ sv, [row.1; sv]) <$> svs))).

Local Abbreviation dict_body :=
  (λ (l2_chunk_dict : list (N * list N)) (row : N * list (list N)),
     v ← Np.item row.2 0;
     Return (dict_set row.1 v l2_chunk_dict)).

(** The flat array of a dictionary: each key before each of its
    supervoxels. *)
Local Abbreviation flat d :=
  (mjoin ((λ kv : N * list N, mjoin ((λ sv, [kv.1; sv]) <$> kv.2)) <$> d)).

Lemma dict_set_fresh k v d : k ∉ d.*1 → dict_set k v d = d ++ [(k, v)].
Proof.
  induction d as [|[k' v'] d IH]; intros Hk; simpl; [done|].
  apply not_elem_of_cons in Hk as [Hne Hk]. simpl in Hne.
  rewrite decide_False by done. by rewrite IH.
Qed.

Lemma l2_loops rows acc_a acc_d :
  NoDup (acc_d.*1 ++ rows.*1) →
  (∃ d, d.*1 = rows.*1 ∧
        for_each array_body acc_a rows = Return (acc_a ++ flat d) ∧
        for_each dict_body acc_d rows = Return (acc_d ++ d)) ∨
  (∃ e, for_each array_body acc_a rows = Raise e ∧
        for_each dict_body acc_d rows = Raise e).
Proof.
  revert acc_a acc_d. induction rows as [|[k cells] rows IH];
    intros acc_a acc_d Hnd.
  { left. exists []. simpl. by rewrite !app_nil_r. }
  cbn [for_each]. unfold Np.item. cbn [fst snd].
  destruct (cells !! 0) as [v|]; [|right; by eexists].
  change ((∃ d, d.*1 = ((k, cells) :: rows).*1 ∧
                for_each array_body
                  (acc_a ++ mjoin ((λ sv, [k; sv]) <$> v)) rows
                = Return (acc_a ++ flat d) ∧
                for_each dict_body (dict_set k v acc_d) rows
                = Return (acc_d ++ d)) ∨
          ∃ e, for_each array_body
                 (acc_a ++ mjoin ((λ sv, [k; sv]) <$> v)) rows = Raise e ∧
               for_each dict_body (dict_set k v acc_d) rows = Raise e).
  rewrite dict_set_fresh.
  2: { rewrite fmap_cons in Hnd. apply NoDup_app in Hnd as (_ & Hd & _).
       intros Hk. apply (Hd k Hk). by left. }
  destruct (IH (acc_a ++ mjoin ((λ sv, [k; sv]) <$> v)) (acc_d ++ [(k, v)]))
    as [(d & Hkeys & Ha & Hd)|(e & Ha & Hd)].
  { rewrite fmap_app, <- app_assoc. done. }
  - left. exists ((k, v) :: d). rewrite Ha, Hd. split_and!.
    + simpl. by f_equal.
    + by rewrite fmap_cons, <- app_assoc.
    + by rewrite <- app_assoc.
  - right. exists e. by rewrite Ha, Hd.
Qed.

(** X22: the two forms of [handle_l2_chunk_children] agree, given that
    the rows read are a dictionary (no key twice): the request answers
    for a chunk of layer 2 only, the array form returns exactly when the
    dictionary form does, with the same effects, and the array is the
    dictionary laid flat, each level 2 id before each of its supervoxels
    (a level 2 id without supervoxels does not occur in it). *)
Theorem l2_chunk_children_forms_agree table chunk now req w w' :
  (∀ h t c ts rows, range_read_chunk h t c ts = Return rows → NoDup rows.*1) →
  (∀ d, handle_l2_chunk_children table chunk false now req w
        = (w', Return (L2Dict d)) →
        get_chunk_layer table chunk = 2%N ∧ NoDup d.*1 ∧
        handle_l2_chunk_children table chunk true now req w
        = (w', Return (L2Array (flat d)))) ∧
  (∀ a, handle_l2_chunk_children table chunk true now req w
        = (w', Return (L2Array a)) →
        ∃ d, handle_l2_chunk_children table chunk false now req w
             = (w', Return (L2Dict d)) ∧ a = flat d).
Proof.
  intros Hdict.
  unfold handle_l2_chunk_children, parse_timestamp.
  unfold mbind, handler_bind, mret, handler_ret, call, raise, lift,
    set_table_id, set_user_id.
  simpl.
  destruct (match args req !! "timestamp" with
            | Some s => _
            | None => _
            end) as [w0 [ts|e]] eqn:Hts; [|by split].
  destruct (get_cg (cg_calls w0) table) as [[]|e]; [|by split].
  destruct (decide (get_chunk_layer table chunk ≠ 2%N)) as [Hl|Hl];
    [by split|].
  apply dec_stable in Hl.
  destruct (range_read_chunk _ table chunk ts) as [rows|e] eqn:Hread;
    [|by split].
  apply Hdict in Hread.
  destruct (l2_loops rows [] []) as [(d & Hkeys & Ha & Hd)|(e & Ha & Hd)];
    [done|..]; unfold mbind in Ha, Hd; simpl in Ha, Hd; rewrite Ha, Hd;
    simpl; [|by split].
  split.
  - intros d' [= <- <-]. by rewrite Hkeys.
  - intros a [= <- <-]. by exists d.
Qed.

End ReadHandlerFacts.

(** * The further properties at concrete inputs *)

Section MoreInstances.

Import Common Reads Scenario Inputs.

Local Open Scope N_scope.

Lemma remapping_lists_components_witness :
  ∃ remapped_edges remapped_affs mapping remapping,
    Cutting.merge_cross_chunk_edges chain_edges chain_affs
    = Return (remapped_edges, remapped_affs, mapping, remapping) ∧
    is_Some (remapping !! Spec.rep mapping 2).
Proof.
  destruct (Cutting.merge_cross_chunk_edges chain_edges chain_affs)
    as [[[[re ra] mp] rm]|e] eqn:Hrun; [|by vm_compute in Hrun].
  exists re, ra, mp, rm. split; [reflexivity|].
  apply (remapping_lists_components _ _ _ _ _ _ Hrun).
  unfold Spec.cross_node. apply (bool_decide_unpack _). by vm_compute.
Defined.

Lemma representatives_are_classes_witness :
  ∃ remapped_edges remapped_affs mapping remapping,
    Cutting.merge_cross_chunk_edges chain_edges chain_affs
    = Return (remapped_edges, remapped_affs, mapping, remapping) ∧
    Spec.rep mapping 3 = Spec.rep mapping 4.
Proof.
  destruct (Cutting.merge_cross_chunk_edges chain_edges chain_affs)
    as [[[[re ra] mp] rm]|e] eqn:Hrun; [|by vm_compute in Hrun].
  exists re, ra, mp, rm. split; [reflexivity|].
  apply (representatives_are_classes _ _ _ _ _ _ Hrun).
  apply rtsc_lr. apply (bool_decide_unpack _). by vm_compute.
Defined.

Lemma mincut_without_weighted_edges_witness :
  Cutting.mincut cut_1_3 [(1, 2); (2, 3)] [inf; inf] [1] [3] = ([], Return []).
Proof.
  apply mincut_without_weighted_edges; [reflexivity|].
  intros a Ha. repeat (apply elem_of_cons in Ha as [->|Ha]; [reflexivity|]).
  by apply elem_of_nil in Ha.
Defined.

Lemma build_weighted_graph_returns_witness :
  ∃ G, Cutting.build_weighted_graph [(1, 3)] [five] [1] [3; 4] = Return G ∧
       Nx.has_edge G 3 4 ∧ ¬ Nx.has_edge G 1 4.
Proof.
  destruct (build_weighted_graph_returns [(1, 3)] [five] [1] [3; 4])
    as (G & HG & _ & Hedge); [simpl; lia|].
  exists G. split; [exact HG|]. split.
  - apply Hedge. right. right. left.
    split; apply (bool_decide_unpack _); by vm_compute.
  - intros [He|[He|[[He _]|[_ He]]]]%Hedge; revert He;
      apply (bool_decide_unpack _); by vm_compute.
Defined.

Lemma mincut_reports_disconnected_iff_witness :
  (Cutting.mincut cut_1_3 [(1, 2)] [one] [1] [2]).1 = [].
Proof.
  destruct (Cutting.merge_cross_chunk_edges [(1, 2)] [one])
    as [[[[re ra] mp] rm]|e] eqn:Hm; [|by vm_compute in Hm].
  assert (Hval : re = [(1, 2)] ∧ ra = [one] ∧ mp = [(1, 1); (2, 2)]).
  { vm_compute in Hm. injection Hm as <- <- <- _. done. }
  destruct Hval as (-> & -> & ->).
  destruct (Cutting.build_weighted_graph [(1, 2)] [one]
              (Spec.rep [(1, 1); (2, 2)] <$> [1])
              (Spec.rep [(1, 1); (2, 2)] <$> [2]))
    as [G|e] eqn:Hb; [|by vm_compute in Hb].
  apply (proj2 (mincut_reports_disconnected_iff cut_1_3 [(1, 2)] [one]
                  [1] [2] _ _ _ _ G Hm ltac:(discriminate) Hb)).
  assert (H12 : Nx.has_edge G 1 2).
  { destruct (build_weighted_graph_shape [(1, 2)] [one]
                (Spec.rep [(1, 1); (2, 2)] <$> [1])
                (Spec.rep [(1, 1); (2, 2)] <$> [2]))
      as (G' & HG' & _ & _ & Hedge); [simpl; lia|].
    rewrite Hb in HG'. injection HG' as <-.
    apply Hedge. left. by left. }
  assert (Hcases : ∀ z, z ∈ Spec.rep [(1, 1); (2, 2)] <$> ([1] ++ [2]) →
                        z = 1 ∨ z = 2).
  { intros z Hz. change (z ∈ [1; 2]) in Hz.
    apply elem_of_cons in Hz as [->|Hz]; [by left|].
    apply elem_of_cons in Hz as [->|Hz]; [by right|].
    by apply elem_of_nil in Hz. }
  intros x y Hx Hy.
  destruct (Hcases x Hx) as [-> | ->], (Hcases y Hy) as [-> | ->].
  - reflexivity.
  - apply rtsc_lr. exact H12.
  - apply rtsc_rl. exact H12.
  - reflexivity.
Defined.

Lemma mincut_needs_terminals_witness :
  (Cutting.mincut cut_1_3 [(1, 2)] [one] [] [2]).2 = Return [] ∨
  (Cutting.mincut cut_1_3 [(1, 2)] [one] [] [2]).2 = Raise IndexError.
Proof.
  apply mincut_needs_terminals; [reflexivity|by left].
Defined.

Lemma mincut_degenerate_cuts_witness :
  Cutting.mincut (λ _ _ _, Return (Some [])) [(1, 2)] [one] [1] [2]
  = ([], Raise IndexError).
Proof.
  edestruct (mincut_degenerate_cuts (λ _ _ _, Return (Some []))
               [(1, 2)] [one] [1] [2]) as (_ & Hempty & _).
  - vm_compute. reflexivity.
  - discriminate.
  - vm_compute. reflexivity.
  - vm_compute. reflexivity.
  - reflexivity.
  - reflexivity.
  - exact (Hempty eq_refl).
Defined.

Lemma mincut_keeps_cross_chunk_components_witness :
  ¬ Spec.cross_connected chain_edges chain_affs 2 3.
Proof.
  epose proof (mincut_keeps_cross_chunk_components cut_1_3 chain_edges chain_affs
               [1] [4] _ _ chain_mapping _ _ _ _ _ [(1, 3)] [] [(2, 3)]) as Hthm.
  edestruct Hthm
    as [Hsep _].
  - vm_compute. reflexivity.
  - discriminate.
  - vm_compute. reflexivity.
  - vm_compute. reflexivity.
  - reflexivity.
  - reflexivity.
  - reflexivity.
  - intros cut ->%list_elem_of_singleton.
    split_and!; [apply (bool_decide_unpack _); by vm_compute..|done].
  - vm_compute. reflexivity.
  - by left.
  - exact Hsep.
Defined.

Lemma merge_chebyshev_guard_witness :
  (handle_merge (H := spread_backend 5 (Return edited) ∅)
     "t" merge_request world0).2
  = Raise (BadRequest
      "Chebyshev distance between merge points exceeded allowed maximum (3 chunks).") ∧
  cg_calls (handle_merge (H := spread_backend 1 (Return edited) ∅)
              "t" merge_request world0).1
  = before_edit
    ++ [AddEdges "t" "alice" [1; 2] [([0; 0; 0]%Z, [1; 1; 1]%Z)]
          [([8; 0; 0]%Z, [1; 1; 1]%Z)]].
Proof.
  split.
  - epose proof (merge_chebyshev_guard (H := spread_backend 5 (Return edited) ∅)
                 "t" merge_request world0 _ _ [GetCg "t"] "t"
                 [([0; 0; 0]%Z, [1; 1; 1]%Z); ([8; 0; 0]%Z, [1; 1; 1]%Z)]
                 [1; 2] [] [1; 2] 1 2) as Hthm.
    edestruct Hthm as [Hfar _].
    + apply surjective_pairing.
    + vm_compute. reflexivity.
    + reflexivity.
    + reflexivity.
    + reflexivity.
    + apply Hfar. exists (-5)%Z. split; [|lia].
      apply (bool_decide_unpack _). by vm_compute.
  - epose proof (merge_chebyshev_guard (H := spread_backend 1 (Return edited) ∅)
                 "t" merge_request world0 _ _ [GetCg "t"] "t"
                 [([0; 0; 0]%Z, [1; 1; 1]%Z); ([8; 0; 0]%Z, [1; 1; 1]%Z)]
                 [1; 2]
                 [AddEdges "t" "alice" [1; 2] [([0; 0; 0]%Z, [1; 1; 1]%Z)]
                    [([8; 0; 0]%Z, [1; 1; 1]%Z)]]
                 [1; 2] 1 2) as Hthm.
    edestruct Hthm as [_ Hnear].
    + apply surjective_pairing.
    + vm_compute. reflexivity.
    + reflexivity.
    + reflexivity.
    + reflexivity.
    + vm_compute. reflexivity.
Defined.

Lemma failed_edit_publishes_nothing_witness :
  published (handle_merge (H := backend (Return none_roots) ∅)
               "t" merge_request world0).1 = [] ∧
  published (handle_undo (H := backend (Raise (LockingError "busy")) ∅)
               "t" undo_request world0).1 = [].
Proof.
  split.
  - epose proof (failed_edit_publishes_nothing
                   (H := backend (Return none_roots) ∅)
                   "t" merge_request world0 _ _ before_edit "t" "alice")
      as (Hmerge & _).
    edestruct Hmerge as [_ Hnone];
      [apply surjective_pairing|reflexivity|].
    by apply (Hnone none_roots).
  - epose proof (failed_edit_publishes_nothing
                   (H := backend (Raise (LockingError "busy")) ∅)
                   "t" undo_request world0 _ _ [GetCg "t"] "t" "alice")
      as (_ & _ & Hundo & _).
    eapply (Hundo 7 (LockingError "busy"));
      [apply surjective_pairing|reflexivity|reflexivity].
Defined.

Lemma merge_split_pass_other_errors_witness :
  (handle_merge (H := backend (Raise (PostconditionError "cycle")) ∅)
     "t" merge_request world0).2
  = Raise (PostconditionError "cycle").
Proof.
  epose proof (merge_split_pass_other_errors
               (H := backend (Raise (PostconditionError "cycle")) ∅)
               "t" merge_request world0 _ _ before_edit "t" "alice"
               (PostconditionError "cycle")) as Hthm.
  edestruct Hthm as [Hmerge _];
    [done|done|].
  eapply Hmerge; [apply surjective_pairing|reflexivity|reflexivity].
Defined.

Lemma undo_redo_errors_are_converted_witness :
  (handle_undo (H := backend (Raise (PostconditionError "gone")) ∅)
     "t" undo_request world0).2
  = Raise (BadRequest "gone").
Proof.
  epose proof (undo_redo_errors_are_converted
               (H := backend (Raise (PostconditionError "gone")) ∅)
               "t" undo_request world0 _ _ [GetCg "t"] "t" "alice" 7) as Hthm.
  edestruct Hthm
    as [Hundo _].
  edestruct Hundo as [_ Hconv]; [apply surjective_pairing|reflexivity|].
  apply (Hconv "gone"). by right.
Defined.

Lemma undo_redo_do_not_test_roots_witness :
  (handle_undo (H := backend (Return none_roots) ∅) "t" undo_request world0).2
  = Return none_roots ∧
  (handle_redo (H := backend (Return rootless) ∅) "t" undo_request world0).2
  = Raise AttributeError.
Proof.
  split.
  - epose proof (undo_redo_do_not_test_roots (H := backend (Return none_roots) ∅)
                 "t" undo_request world0 _ _ [GetCg "t"] "t" "alice" 7
                 none_roots eq_refl) as Hthm.
    edestruct Hthm as [Hundo _].
    edestruct Hundo as [Hret _];
      [apply surjective_pairing|reflexivity|reflexivity|].
    by apply Hret.
  - epose proof (undo_redo_do_not_test_roots (H := backend (Return rootless) ∅)
                 "t" undo_request world0 _ _ [GetCg "t"] "t" "alice" 7
                 rootless eq_refl) as Hthm.
    edestruct Hthm as [_ Hredo].
    edestruct Hredo as [_ Hattr];
      [apply surjective_pairing|reflexivity|reflexivity|].
    by apply Hattr.
Defined.

Lemma split_partitions_lookup_witness :
  ∃ sv, length sv = 3%nat ∧ [1; 2] = take 2 sv ∧ [3] = drop 2 sv.
Proof.
  epose proof (split_partitions_lookup (H := backend (Return edited) ∅)
               "t" split_request_2_1 world0 _ _
               [GetCg "t";
                SupervoxelIdLookup "t"
                  [([0; 0; 0]%Z, [1; 1; 1]%Z); ([4; 0; 0]%Z, [1; 1; 1]%Z);
                   ([8; 0; 0]%Z, [1; 1; 1]%Z)] [1; 2; 3]]
               "t" "alice" [1; 2] [3] _ _ true
               [(1, [0; 0; 0]%Z); (2, [4; 0; 0]%Z)] [(3, [8; 0; 0]%Z)]) as Hthm.
  edestruct Hthm
    as (sv & _ & Hlen & Hsrc & Hsnk & _).
  - apply surjective_pairing.
  - reflexivity.
  - vm_compute. reflexivity.
  - exists sv. done.
Defined.

Lemma rollback_publishes_for_the_caller_witness :
  ∃ w' out,
    handle_rollback (H := backend (Return edited) log)
      "t" rollback_request world0 = (w', out) ∧
    length (published w') = 3%nat ∧
    Forall (λ m, attr_user_id m = "admin" ∧ attr_remesh_priority m = "false")
      (published w').
Proof.
  eexists _, _. split; [vm_compute; reflexivity|]. split; [reflexivity|].
  epose proof (rollback_publishes_for_the_caller
                 (H := backend (Return edited) log)
                 "t" rollback_request world0 _ _) as Hthm.
  edestruct Hthm as (ms & Hpub & Hall); [vm_compute; reflexivity|].
  simpl in Hpub. rewrite Hpub.
  eapply Forall_impl; [exact Hall|]. by intros m (_ & ? & ?).
Defined.

Lemma all_user_operations_result_witness :
  ∃ rows : gmap N log_entry,
    read_log_rows (Backend := dated_backend (Return edited) log)
      [GetCg "t"] "t" 20 = Return rows ∧
    ∀ id ts, (id, ts) ∈ zip [3; 4] [30; 25]%Z ↔
             ∃ e, rows !! id = Some e ∧ UserID e = "bob" ∧ timestamp e = ts.
Proof.
  epose proof (all_user_operations_result
                 (H := dated_backend (Return edited) log)
                 "t" since_request world0 _ [3; 4] [30; 25]%Z) as Hthm.
  edestruct Hthm
    as (target & start & rows & Htarget & Hstart & _ & Hread & _ & _ & _
        & Hrows).
  - vm_compute. reflexivity.
  - vm_compute in Htarget. injection Htarget as <-.
    vm_compute in Hstart. injection Hstart as <-.
    exists rows. split; [exact Hread|exact Hrows].
Defined.

Lemma rollback_rejects_bad_arguments_witness :
  (handle_rollback (H := backend (Return edited) log)
     "t" bad_start_request world0).2
  = Raise (BadRequest
      "Timestamp parameter start_time is not a valid unix timestamp") ∧
  cg_calls (handle_rollback (H := backend (Return edited) log)
              "t" bad_start_request world0).1 = [GetCg "t"] ∧
  (handle_rollback (H := dated_backend (Return edited) log)
     "t" inf_start_request world0).2
  = Raise (OtherError "OverflowError").
Proof.
  split_and!.
  - edestruct (rollback_rejects_bad_arguments (H := backend (Return edited) log)
                 "t" bad_start_request world0) as [_ Hbad].
    { apply (bool_decide_unpack _). by vm_compute. }
    edestruct (Hbad "bob" "yesterday" ValueError) as (Hout & _);
      [by vm_compute|by vm_compute|reflexivity|reflexivity|].
    apply Hout. by left.
  - edestruct (rollback_rejects_bad_arguments (H := backend (Return edited) log)
                 "t" bad_start_request world0) as [_ Hbad].
    { apply (bool_decide_unpack _). by vm_compute. }
    edestruct (Hbad "bob" "yesterday" ValueError) as (_ & _ & Hcalls & _);
      [by vm_compute|by vm_compute|reflexivity|reflexivity|].
    exact Hcalls.
  - edestruct (rollback_rejects_bad_arguments
                 (H := dated_backend (Return edited) log)
                 "t" inf_start_request world0) as [_ Hbad].
    { apply (bool_decide_unpack _). by vm_compute. }
    edestruct (Hbad "bob" "inf" (OtherError "OverflowError"))
      as (_ & Hout & _);
      [by vm_compute|by vm_compute|reflexivity|reflexivity|].
    by apply Hout.
Defined.

Lemma rollback_order_is_stable_witness :
  ∃ ops : list (N * Z),
    StronglySorted
      (λ a b : N * Z, (b.2 < a.2)%Z ∨ (b.2 = a.2 ∧ (a.1 < b.1)%N)) ops ∧
    [UndoOperation "t" "bob" 2; UndoOperation "t" "bob" 4;
     UndoOperation "t" "bob" 1]
    = UndoOperation "t" "bob" <$> ops.*1.
Proof.
  epose proof (rollback_order_is_stable (H := backend (Return unchanged) tied_log)
               "t" rollback_request world0 _
               (Return ([1; 2; 4], [10; 30; 30]%Z))
               [GetCg "t"; GetCg "t"] 0%Z
               [UndoOperation "t" "bob" 2; UndoOperation "t" "bob" 4;
                UndoOperation "t" "bob" 1]
               tied_log "bob") as Hthm.
  edestruct Hthm
    as (ops & k & Hrest & Hops & Hsorted & Hret).
  - vm_compute. reflexivity.
  - vm_compute. reflexivity.
  - reflexivity.
  - reflexivity.
  - exists ops. split; [exact Hsorted|].
    destruct (Hret _ _ eq_refl) as [_ Hperm].
    assert (Hlen : length ops = 3%nat) by (by rewrite <- Hperm).
    rewrite Hrest. do 2 f_equal. apply take_ge.
    apply (f_equal length) in Hrest.
    rewrite length_fmap, length_fmap, length_take in Hrest. simpl in Hrest. lia.
Defined.

Lemma tabular_change_log_recent_result_witness :
  ∃ rows : gmap N log_entry,
    read_log_rows (Backend := dated_backend (Return edited) log)
      [GetCg "t"] "t" 20 = Return rows ∧
    (∀ id, id ∈ [2; 3; 4] ↔ is_Some (rows !! id)) ∧
    ∀ i id, [2; 3; 4] !! i = Some id →
            ∃ e, rows !! id = Some e ∧
                 [20; 30; 25]%Z !! i = Some (timestamp e) ∧
                 ["eve"; "bob"; "bob"] !! i = Some (UserID e).
Proof.
  epose proof (tabular_change_log_recent_result
                 (H := dated_backend (Return edited) log)
                 "t" since_request world0 _ [2; 3; 4] [20; 30; 25]%Z
                 ["eve"; "bob"; "bob"]) as Hthm.
  edestruct Hthm
    as (start & rows & Hstart & _ & Hread & _ & _ & Hkeys & _ & _ & Hrows).
  - vm_compute. reflexivity.
  - vm_compute in Hstart. injection Hstart as <-.
    exists rows. split; [exact Hread|]. split; [exact Hkeys|exact Hrows].
Defined.

Lemma user_operations_restrict_change_log_witness :
  zip [1; 3; 4] [10; 30; 25]%Z
  = fst <$> filter (λ r : N * Z * string, r.2 = "bob")
              (zip (zip [1; 2; 3; 4] [10; 20; 30; 25]%Z)
                   ["bob"; "eve"; "bob"; "bob"]).
Proof.
  eapply (user_operations_restrict_change_log (H := backend (Return edited) log)
            "t" rollback_request world0).
  - vm_compute. reflexivity.
  - vm_compute. reflexivity.
  - by vm_compute.
Defined.

Lemma l2_chunk_children_forms_agree_witness :
  handle_l2_chunk_children (H := backend (Return edited) ∅)
    (H0 := reader 2 chunk_rows) "t" 9 true 0 undo_request world0
  = ((handle_l2_chunk_children (H := backend (Return edited) ∅)
        (H0 := reader 2 chunk_rows) "t" 9 false 0 undo_request world0).1,
     Return (L2Array [5; 50; 5; 51; 7; 70])).
Proof.
  edestruct (l2_chunk_children_forms_agree (H := backend (Return edited) ∅)
               (H0 := reader 2 chunk_rows) "t" 9 0%Z undo_request world0)
    as [Hdict _].
  { intros h t c ts rows [= <-]. apply (bool_decide_unpack _). by vm_compute. }
  edestruct (Hdict [(5, [50; 51]); (6, []); (7, [70])]) as (_ & _ & Harray).
  - vm_compute. reflexivity.
  - exact Harray.
Defined.

End MoreInstances.
